(** * The XDCC download job orchestrator

    A shallow embedding of
      - [src/mcp-server/tools/initiateDownloadTool/initiateDownloadLogic.ts]
        ([expandPacks], [getXdccConnection], [initiateDownload] and the
        callbacks it registers), and
      - [src/mcp-server/tools/getDownloadStatusTool/getDownloadStatusLogic.ts]
        ([getDownloadStatus]),
    followed by the properties of the orchestrator.

    Conventions of the embedding:
      - a JavaScript string is the list of its UTF-16 code units;
      - a JavaScript [Set] is the list of its elements in insertion order;
      - a call that may throw returns an [Outcome];
      - the two module-level [Map]s, the job objects they point to, the
        file system and the pending callbacks of the event loop form an
        explicit [State];
      - what the runtime supplies ([crypto.randomBytes], [new Date()],
        [new Error().stack]), what the IRC library reports and what the
        file system refuses are inputs;
      - logging has no effect on the state and is left out. *)

From Stdlib Require Import ZArith QArith Qcanon Ascii String.
From Stdlib Require Import PrimFloat FloatOps SpecFloat Uint63.
From stdpp Require Import base decidable option list list_numbers numbers
  countable gmap strings pretty.

Local Open Scope Z_scope.

(** * JavaScript values and built-ins *)

Module Js.

(** ** Strings *)

Abbreviation jsstring := (list N).

(** The code units of an ASCII literal. *)
Definition lit (s : string) : jsstring :=
  (λ a, N_of_ascii a) <$> list_ascii_of_string s.

(** ECMAScript [WhiteSpace] and [LineTerminator] code points: what
    [String.prototype.trim] strips and [parseInt] skips. *)
Definition isWhiteSpace (c : N) : bool :=
  bool_decide (c ∈ [0x09; 0x0A; 0x0B; 0x0C; 0x0D; 0x20; 0xA0; 0x1680;
                    0x2028; 0x2029; 0x202F; 0x205F; 0x3000; 0xFEFF]%N)
  || ((0x2000 <=? c) && (c <=? 0x200A))%N.

Fixpoint takeWhile {A} (p : A → bool) (l : list A) : list A :=
  match l with
  | x :: l' => if p x then x :: takeWhile p l' else []
  | [] => []
  end.

Fixpoint dropWhile {A} (p : A → bool) (l : list A) : list A :=
  match l with
  | x :: l' => if p x then dropWhile p l' else l
  | [] => []
  end.

(** [s.trim()] *)
Definition trim (s : jsstring) : jsstring :=
  reverse (dropWhile isWhiteSpace (reverse (dropWhile isWhiteSpace s))).

(** [s.includes(c)] for a one-character pattern. *)
Definition includes (c : N) (s : jsstring) : bool :=
  existsb (N.eqb c) s.

(** [s.split(c)] for a one-character separator: never the empty array. *)
Fixpoint split (sep : N) (s : jsstring) : list jsstring :=
  match s with
  | [] => [[]]
  | c :: s' =>
      if (c =? sep)%N then [] :: split sep s'
      else match split sep s' with
           | piece :: pieces => (c :: piece) :: pieces
           | [] => [[c]]
           end
  end.

Definition comma : N := 44.
Definition dash : N := 45.
Definition plus : N := 43.

(** ** Numbers

    A [number] is a double.  [Int z] is the double whose value is the
    integer [z], and [Fraction] stands for the finite values that are not
    integral.  [+0] and [-0] are one value, as [Set] treats them. *)

Inductive number :=
  | NaN
  | Infinity (negative : bool)
  | Int (z : Z)
  | Fraction (q : Qc).

#[global] Instance number_eq_dec : EqDecision number.
Proof. solve_decision. Defined.

Definition MAX_SAFE_INTEGER : Z := 2 ^ 53 - 1.

Definition isDigit (c : N) : bool := ((48 <=? c) && (c <=? 57))%N.

(** The mathematical value of a string of decimal digits. *)
Definition digitsValue (ds : jsstring) : Z :=
  foldl (λ acc c, 10 * acc + (Z.of_N c - 48)) 0 ds.

(** *** Integral doubles

    The values of [parseInt], and the sums and differences of such values:
    [NaN], an infinity, or a double whose value is an integer.  The pack
    arithmetic of [expandPacks] stays within these. *)
Inductive integral :=
  | notANumber
  | infinite (negative : bool)
  | integer (z : Z).

#[global] Instance integral_eq_dec : EqDecision integral.
Proof. solve_decision. Defined.

Definition number_of (x : integral) : number :=
  match x with
  | notANumber => NaN
  | infinite negative => Infinity negative
  | integer z => Int z
  end.

(** The double nearest to the natural number [n], a tie going to the even
    significand; [None] when that is beyond the largest double.  Up to
    [2 ^ 53] every integer is a double; above, a double has a significand
    [q] of 53 bits and an exponent [e]. *)
Definition roundMagnitude (n : Z) : option Z :=
  if n <? 2 ^ 53 then Some n
  else
    let e := Z.log2 n - 52 in
    let q := n `div` 2 ^ e in
    let rest := n `mod` 2 ^ e in
    let half := 2 ^ (e - 1) in
    let q' := if rest <? half then q
              else if half <? rest then q + 1
              else if Z.even q then q else q + 1 in
    if q' * 2 ^ e <? 2 ^ 1024 then Some (q' * 2 ^ e) else None.

(** The Number value for an integer: the rounding every arithmetic
    operation ends with. *)
Definition roundToDouble (z : Z) : integral :=
  match roundMagnitude (Z.abs z) with
  | Some m => integer (Z.sgn z * m)
  | None => infinite (z <? 0)
  end.

(** [isNaN(x)] *)
Definition isNaN (x : integral) : bool :=
  match x with notANumber => true | _ => false end.

(** [- x] *)
Definition negate (x : integral) : integral :=
  match x with
  | notANumber => notANumber
  | infinite negative => infinite (negb negative)
  | integer z => integer (- z)
  end.

(** [x + y] *)
Definition add (x y : integral) : integral :=
  match x, y with
  | notANumber, _ | _, notANumber => notANumber
  | infinite a, infinite b => if Bool.eqb a b then infinite a else notANumber
  | infinite a, integer _ | integer _, infinite a => infinite a
  | integer a, integer b => roundToDouble (a + b)
  end.

(** [x - y] *)
Definition sub (x y : integral) : integral := add x (negate y).

(** [x > y] *)
Definition gt (x y : integral) : bool :=
  match x, y with
  | notANumber, _ | _, notANumber => false
  | infinite a, infinite b => negb a && b
  | infinite a, integer _ => negb a
  | integer _, infinite b => b
  | integer a, integer b => b <? a
  end.

(** [parseInt(s, 10)].  Leading white space is skipped, a sign is read,
    then the longest prefix of decimal digits; what follows the digits is
    ignored.  Without a digit the result is [NaN]; otherwise it is the
    Number value for the integer the digits denote, which V8 rounds
    correctly whatever the number of digits. *)
Definition parseInt (s : jsstring) : integral :=
  let s1 := dropWhile isWhiteSpace s in
  let '(sign, s2) :=
    match s1 with
    | c :: rest =>
        if (c =? dash)%N then (-1, rest)
        else if (c =? plus)%N then (1, rest)
        else (1, s1)
    | [] => (1, s1)
    end in
  match takeWhile isDigit s2 with
  | [] => notANumber
  | ds => roundToDouble (sign * digitsValue ds)
  end.

(** [ToLength(x)]: the length of an array-like object. *)
Definition ToLength (x : integral) : Z :=
  match x with
  | notANumber => 0
  | infinite negative => if negative then 0 else 2 ^ 53 - 1
  | integer z => Z.min (Z.max z 0) (2 ^ 53 - 1)
  end.

(** [`${n}`] for an integer. *)
Definition showZ (z : Z) : jsstring := lit (pretty z).
Definition showNat (n : nat) : jsstring := lit (pretty n).

(** ** Sets, in insertion order *)

Abbreviation JSSet := (list number).

(** [set.add(x)] *)
Definition Set_add (x : number) (s : JSSet) : JSSet :=
  if decide (x ∈ s) then s else s ++ [x].

(** [xs.forEach(x => set.add(x))] *)
Definition Set_addAll (xs : list number) (s : JSSet) : JSSet :=
  foldl (λ acc x, Set_add x acc) s xs.

(** [new Set(xs)].  The bound an engine puts on the size of a [Set] is
    not modelled. *)
Definition Set_new (xs : list number) : JSSet := Set_addAll xs [].

(** [set.size] *)
Definition Set_size (s : JSSet) : nat := length s.

(** ** [Math.round] on doubles

    The integer nearest to [x], a tie going up.  The argument below is a
    quotient of two set sizes times 100, which is finite; on the values
    that are not ([NaN], the infinities) [Math.round] is the identity and
    no integer is returned. *)
Definition Math_round (x : float) : option Z :=
  match Prim2SF x with
  | S754_zero _ => Some 0
  | S754_finite s m e =>
      let n := if s then Z.neg m else Z.pos m in
      if 0 <=? e then Some (n * 2 ^ e)
      else Some ((2 * n + 2 ^ (- e)) `div` 2 ^ (- e + 1))
  | S754_infinity _ | S754_nan => None
  end.

(** A size as a double. *)
Definition toDouble (n : nat) : float :=
  PrimFloat.of_uint63 (Uint63.of_Z (Z.of_nat n)).

End Js.

Import Js.

(** * Errors *)

(** Modelled from the spec: the error codes and the error class of
    [types-global/errors.ts], which is not among the sources.  Of the codes
    these are the two the download tools use; an error carries its code and
    its message. *)
Inductive BaseErrorCode := VALIDATION_ERROR | INTERNAL_ERROR.

(** Modelled from the spec: [new McpError(code, message, context)], the
    error class of [types-global/errors.ts]. *)
Record McpError := { code : BaseErrorCode; errorText : jsstring }.

(** What the built-ins throw: the [RangeError] of an array length that is
    not one, and the error of [fs.mkdirSync] for a path it cannot make. *)
Inductive Exception :=
  | RangeError
  | SystemError (path : jsstring).

(** The outcome of a call that may throw: it returns, it throws an
    [McpError], or an exception of a built-in propagates. *)
Inductive Outcome (A : Type) :=
  | Returns (a : A)
  | Throws (e : McpError)
  | Raises (x : Exception).
Arguments Returns {A} a.
Arguments Throws {A} e.
Arguments Raises {A} x.

(** The rest of a block after a call that may throw. *)
Definition andThen {A B} (o : Outcome A) (k : A → Outcome B) : Outcome B :=
  match o with
  | Returns a => k a
  | Throws e => Throws e
  | Raises x => Raises x
  end.

(** [Array.from({ length }, (_, i) => mapfn(i))], called on [Array]: the
    length is read with [ToLength]; [new Array(len)] throws a [RangeError]
    when [len] exceeds [2 ^ 32 - 1]; the elements are made in order. *)
Definition Array_from {A} (length_ : integral) (mapfn : Z → A) : Outcome (list A) :=
  let len := ToLength length_ in
  if 2 ^ 32 - 1 <? len then Raises RangeError
  else Returns (mapfn <$> seqZ 0 len).

(** [parts.flatMap(callback)]: the arrays the callback returns, one after
    the other; the first exception of the callback propagates. *)
Fixpoint flatMap {A B} (callback : A → Outcome (list B)) (parts : list A)
    : Outcome (list B) :=
  match parts with
  | [] => Returns []
  | part :: parts' =>
      andThen (callback part) (λ numbers,
      andThen (flatMap callback parts') (λ numbers',
      Returns (numbers ++ numbers')))
  end.

(** * The pack range expander *)

(** One comma-separated part of the pack string: the body of the
    [flatMap] callback. *)
Definition expandPart (part : jsstring) : Outcome (list number) :=
  let trimmed := trim part in
  if includes dash trimmed then
    match trim <$> split dash trimmed with
    | startStr :: endStr :: _ =>
        let start := parseInt startStr in
        let end_ := parseInt endStr in
        if isNaN start || isNaN end_ || gt start end_ then Returns []
        else Array_from (add (sub end_ start) (integer 1))
                        (λ i, number_of (add start (integer i)))
    | _ => Returns []
    end
  else
    let num := parseInt trimmed in
    if isNaN num then Returns [] else Returns [number_of num].

Definition expandPacks (packsString : jsstring) : Outcome JSSet :=
  andThen (flatMap expandPart (split comma packsString)) (λ numbers,
  Returns (Set_new numbers)).

(** * The data model *)

Inductive DownloadJobStatus := in_progress | completed | failed | partially_completed.

#[global] Instance DownloadJobStatus_eq_dec : EqDecision DownloadJobStatus.
Proof. solve_decision. Defined.

(** An entry of [job.errors]: [{ message: string; stack?: string }]. *)
Record ErrorEntry := { message : jsstring; stack : option jsstring }.

Record DownloadJob := {
  id : jsstring;
  host : jsstring;
  port : Z;
  channel : jsstring;
  bot : jsstring;
  requestedPacks : JSSet;
  completedPacks : JSSet;
  failedPacks : JSSet;
  errors : list ErrorEntry;
  startTime : jsstring;
  endTime : option jsstring;
  status : DownloadJobStatus
}.

(** Field assignments on a job object. *)
Definition set_completedPacks (s : JSSet) (job : DownloadJob) : DownloadJob :=
  {| id := id job; host := host job; port := port job; channel := channel job;
     bot := bot job; requestedPacks := requestedPacks job;
     completedPacks := s; failedPacks := failedPacks job;
     errors := errors job; startTime := startTime job;
     endTime := endTime job; status := status job |}.

Definition set_errors (es : list ErrorEntry) (job : DownloadJob) : DownloadJob :=
  {| id := id job; host := host job; port := port job; channel := channel job;
     bot := bot job; requestedPacks := requestedPacks job;
     completedPacks := completedPacks job; failedPacks := failedPacks job;
     errors := es; startTime := startTime job;
     endTime := endTime job; status := status job |}.

Definition set_status (st : DownloadJobStatus) (job : DownloadJob) : DownloadJob :=
  {| id := id job; host := host job; port := port job; channel := channel job;
     bot := bot job; requestedPacks := requestedPacks job;
     completedPacks := completedPacks job; failedPacks := failedPacks job;
     errors := errors job; startTime := startTime job;
     endTime := endTime job; status := st |}.

(** The connection object of the IRC library, [new XDCC.default({...})],
    with the channels it was asked to join. *)
Record XDCC := {
  xdcc_host : jsstring;
  xdcc_port : Z;
  xdcc_nickname : jsstring;
  xdcc_path : jsstring;
  xdcc_joined : list jsstring
}.

(** [xdcc.join(channel)] *)
Definition join (chan : jsstring) (x : XDCC) : XDCC :=
  {| xdcc_host := xdcc_host x; xdcc_port := xdcc_port x;
     xdcc_nickname := xdcc_nickname x; xdcc_path := xdcc_path x;
     xdcc_joined := xdcc_joined x ++ [chan] |}.

(** A reference to a job object: its index in the order of creation. *)
Abbreviation ref := nat.

(** The state of the process.  [downloadJobs] maps an id to the job object
    stored under it; the callbacks of a job hold the object itself, so they
    are addressed by reference.  [directories] are the paths at which the
    file system has an entry, and [refused] the paths it will not make a
    directory at, for want of a permission or because a file is in the
    way.  [timers] are the jobs whose [setTimeout] callback has not run,
    [starting] those whose [xdcc.download] promise is pending, [wired]
    those whose event handlers are registered. *)
Record State := {
  ircConnections : gmap jsstring XDCC;
  downloadJobs : gmap jsstring ref;
  objects : list DownloadJob;
  directories : gset jsstring;
  refused : gset jsstring;
  timers : list ref;
  starting : list ref;
  wired : list ref
}.

(** The process as it starts: both maps empty, nothing pending, and the
    directories the file system happens to have.  What the file system
    refuses is said by the steps of a run. *)
Definition boot (dirs : gset jsstring) : State :=
  {| ircConnections := ∅; downloadJobs := ∅; objects := [];
     directories := dirs; refused := ∅;
     timers := []; starting := []; wired := [] |}.

Definition initial : State := boot ∅.

Definition set_ircConnections (m : gmap jsstring XDCC) (s : State) : State :=
  {| ircConnections := m; downloadJobs := downloadJobs s; objects := objects s;
     directories := directories s; refused := refused s; timers := timers s;
     starting := starting s; wired := wired s |}.

Definition set_directories (d : gset jsstring) (s : State) : State :=
  {| ircConnections := ircConnections s; downloadJobs := downloadJobs s;
     objects := objects s; directories := d; refused := refused s;
     timers := timers s; starting := starting s; wired := wired s |}.

Definition set_refused (paths : gset jsstring) (s : State) : State :=
  {| ircConnections := ircConnections s; downloadJobs := downloadJobs s;
     objects := objects s; directories := directories s; refused := paths;
     timers := timers s; starting := starting s; wired := wired s |}.

Definition set_objects (o : list DownloadJob) (s : State) : State :=
  {| ircConnections := ircConnections s; downloadJobs := downloadJobs s;
     objects := o; directories := directories s; refused := refused s;
     timers := timers s; starting := starting s; wired := wired s |}.

(** The job registered under an id: [downloadJobs.get(id)]. *)
Definition lookupJob (s : State) (job_id : jsstring) : option DownloadJob :=
  r ← downloadJobs s !! job_id; objects s !! r.

(** * Helper functions of the source *)

(** The lower-case hexadecimal digits of a byte. *)
Definition hexDigit (n : N) : N :=
  (if n <? 10 then 48 + n else 87 + n)%N.

Definition hexByte (b : N) : jsstring :=
  [hexDigit ((b `div` 16) `mod` 16); hexDigit (b `mod` 16)]%N.

(** [generateJobId], on the eight bytes [crypto.randomBytes(8)] returned. *)
Definition generateJobId (randomBytes : list N) : jsstring :=
  lit "job_" ++ (randomBytes ≫= hexByte).

(** [`${host}:${port}`] *)
Definition connectionKey (h : jsstring) (p : Z) : jsstring :=
  h ++ lit ":" ++ showZ p.

(** [fs.existsSync(path)]: the empty path names nothing. *)
Definition existsSync (path : jsstring) (s : State) : bool :=
  bool_decide (path ≠ [] ∧ path ∈ directories s).

(** [fs.mkdirSync(path, { recursive: true })], called for a path that does
    not exist: it throws for the empty path and for a path the file system
    refuses, and makes the directory otherwise. *)
Definition mkdirSync (path : jsstring) (s : State) : Outcome unit * State :=
  if decide (path = [] ∨ path ∈ refused s) then (Raises (SystemError path), s)
  else (Returns (), set_directories ({[path]} ∪ directories s) s).

(** [getXdccConnection]: the connection of [host:port], created, with its
    download directory, when the pool has none.  When the directory cannot
    be made the exception propagates and nothing is pooled. *)
Definition getXdccConnection (h : jsstring) (p : Z) (nickname downloadPath : jsstring)
    (s : State) : Outcome XDCC * State :=
  let key := connectionKey h p in
  match ircConnections s !! key with
  | Some xdcc => (Returns xdcc, s)
  | None =>
      let '(made, s1) :=
        if existsSync downloadPath s then (Returns (), s)
        else mkdirSync downloadPath s in
      match made with
      | Returns _ =>
          let xdcc := {| xdcc_host := h; xdcc_port := p; xdcc_nickname := nickname;
                         xdcc_path := downloadPath; xdcc_joined := [] |} in
          (Returns xdcc, set_ircConnections (<[key := xdcc]> (ircConnections s1)) s1)
      | Throws e => (Throws e, s1)
      | Raises x => (Raises x, s1)
      end
  end.

(** [xdcc.join(channel)] on the pooled connection of [key]. *)
Definition joinChannel (key chan : jsstring) (s : State) : State :=
  set_ircConnections (alter (join chan) key (ircConnections s)) s.

(** * The job initiator *)

Record InitiateDownloadToolInput := {
  in_host : jsstring;
  in_port : Z;
  in_channel : jsstring;
  in_bot : jsstring;
  in_packs : jsstring;
  in_download_path : jsstring;
  in_nickname : jsstring
}.

Record InitiateDownloadToolResponse := {
  out_job_id : jsstring;
  out_message : jsstring;
  out_status : DownloadJobStatus
}.

(** The synchronous part of [initiateDownload]: everything up to and
    including the call of [setTimeout].  [randomBytes] is what
    [crypto.randomBytes(8)] returns and [now] is
    [new Date().toISOString()].  An exception of [expandPacks] propagates
    before anything is written; an exception of [getXdccConnection]
    propagates after the job was registered and before its timer is set. *)
Definition initiateDownload (params : InitiateDownloadToolInput)
    (randomBytes : list N) (now : jsstring) (s : State)
    : Outcome InitiateDownloadToolResponse * State :=
  let host_ := trim (in_host params) in
  let channel_ := trim (in_channel params) in
  let bot_ := trim (in_bot params) in
  let packs_ := trim (in_packs params) in
  let download_path_ := trim (in_download_path params) in
  let nickname_ := trim (in_nickname params) in
  match expandPacks packs_ with
  | Throws e => (Throws e, s)
  | Raises x => (Raises x, s)
  | Returns requested =>
      if decide (Set_size requested = 0%nat) then
        (Throws {| code := VALIDATION_ERROR;
                   errorText := lit "No valid pack numbers provided" |}, s)
      else
        let jobId := generateJobId randomBytes in
        let response :=
          {| out_job_id := jobId;
             out_message := lit "Download started for " ++ showNat (Set_size requested)
                              ++ lit " file(s)";
             out_status := in_progress |} in
        let job :=
          {| id := jobId; host := host_; port := in_port params;
             channel := channel_; bot := bot_;
             requestedPacks := requested; completedPacks := []; failedPacks := [];
             errors := []; startTime := now; endTime := None;
             status := in_progress |} in
        let r := length (objects s) in
        let s1 :=
          {| ircConnections := ircConnections s;
             downloadJobs := <[jobId := r]> (downloadJobs s);
             objects := objects s ++ [job];
             directories := directories s; refused := refused s;
             timers := timers s; starting := starting s; wired := wired s |} in
        match getXdccConnection host_ (in_port params) nickname_ download_path_ s1 with
        | (Throws e, s2) => (Throws e, s2)
        | (Raises x, s2) => (Raises x, s2)
        | (Returns _, s2) =>
            let s3 := joinChannel (connectionKey host_ (in_port params)) channel_ s2 in
            (Returns response,
             {| ircConnections := ircConnections s3; downloadJobs := downloadJobs s3;
                objects := objects s3; directories := directories s3;
                refused := refused s3; timers := timers s3 ++ [r];
                starting := starting s3; wired := wired s3 |})
        end
  end.

(** * The progress aggregator: the callbacks of a job *)

(** [xdccJob.on('downloading', ...)]: logs only. *)
Definition onDownloading (job : DownloadJob) : DownloadJob := job.

(** [xdccJob.on('downloaded', ...)].  [success] is
    [xdccJob.show().success.map(Number)], the numbers that the entries of
    the library's success list convert to. *)
Definition onDownloaded (success : list number) (job : DownloadJob) : DownloadJob :=
  let job1 := set_completedPacks (Set_addAll success (completedPacks job)) job in
  if decide (Set_size (completedPacks job1) = Set_size (requestedPacks job1))
  then set_status completed job1
  else job1.

(** [xdccJob.on('error', ...)] *)
Definition onError (errorMessage : jsstring) (stack_ : option jsstring)
    (job : DownloadJob) : DownloadJob :=
  let error := {| message := errorMessage; stack := stack_ |} in
  set_status failed (set_errors (errors job ++ [error]) job).

(** The [.catch] of the promise of [xdcc.download]. *)
Definition onStartRejected (error : ErrorEntry) (job : DownloadJob) : DownloadJob :=
  set_status failed
    (set_errors (errors job ++ [{| message := message error; stack := stack error |}]) job).

(** What the event loop and the IRC library deliver to a job. *)
Inductive Event :=
  | TimerFired
  | StartResolved
  | StartRejected (error : ErrorEntry)
  | Downloading
  | Downloaded (success : list number)
  | PackError (errorMessage : jsstring) (stack_ : option jsstring).

(** [settle r l]: the callback of [r] is no longer pending. *)
Definition settle (r : ref) (l : list ref) : list ref :=
  filter (λ r', r' ≠ r) l.

(** Delivery of an event to the callbacks of the job object [r]; [None]
    when no such callback is pending or registered. *)
Definition deliver (r : ref) (ev : Event) (s : State) : option State :=
  match ev with
  | TimerFired =>
      if decide (r ∈ timers s) then
        Some {| ircConnections := ircConnections s; downloadJobs := downloadJobs s;
                objects := objects s; directories := directories s;
                refused := refused s; timers := settle r (timers s);
                starting := starting s ++ [r]; wired := wired s |}
      else None
  | StartResolved =>
      if decide (r ∈ starting s) then
        Some {| ircConnections := ircConnections s; downloadJobs := downloadJobs s;
                objects := objects s; directories := directories s;
                refused := refused s; timers := timers s;
                starting := settle r (starting s); wired := wired s ++ [r] |}
      else None
  | StartRejected error =>
      if decide (r ∈ starting s) then
        Some {| ircConnections := ircConnections s; downloadJobs := downloadJobs s;
                objects := alter (onStartRejected error) r (objects s);
                directories := directories s; refused := refused s;
                timers := timers s;
                starting := settle r (starting s); wired := wired s |}
      else None
  | Downloading =>
      if decide (r ∈ wired s) then Some (set_objects (alter onDownloading r (objects s)) s)
      else None
  | Downloaded success =>
      if decide (r ∈ wired s)
      then Some (set_objects (alter (onDownloaded success) r (objects s)) s)
      else None
  | PackError errorMessage stack_ =>
      if decide (r ∈ wired s)
      then Some (set_objects (alter (onError errorMessage stack_) r (objects s)) s)
      else None
  end.

(** One step of the process: a tool call, whether it returns or throws, a
    delivered event, or a change of what the file system refuses. *)
Inductive Action :=
  | Initiate (params : InitiateDownloadToolInput) (randomBytes : list N) (now : jsstring)
  | Deliver (r : ref) (ev : Event)
  | Refuse (paths : gset jsstring).

Definition step (a : Action) (s : State) : option State :=
  match a with
  | Initiate params randomBytes now => Some (initiateDownload params randomBytes now s).2
  | Deliver r ev => deliver r ev s
  | Refuse paths => Some (set_refused paths s)
  end.

Fixpoint run (actions : list Action) (s : State) : option State :=
  match actions with
  | [] => Some s
  | a :: actions' => s' ← step a s; run actions' s'
  end.

(** The states of the process. *)
Definition reachable (s : State) : Prop :=
  ∃ dirs actions, run actions (boot dirs) = Some s.

(** * The status projector *)

Record GetDownloadStatusToolResponse := {
  res_job_id : jsstring;
  res_status : DownloadJobStatus;
  res_completedPacks : list number;
  res_failedPacks : list number;
  res_progress : jsstring;
  res_message : jsstring;
  res_errors : list ErrorEntry;
  res_startTime : option jsstring;
  res_endTime : option jsstring
}.

(** [(totalCompleted / totalRequested) * 100], in double precision. *)
Definition ratio (totalCompleted totalRequested : nat) : float :=
  PrimFloat.mul (PrimFloat.div (toDouble totalCompleted) (toDouble totalRequested))
                (toDouble 100).

(** The value of the variable [progressPercent]; [None] would be a value
    that is not finite. *)
Definition progressPercent (totalCompleted totalRequested : nat) : option Z :=
  if decide (0 < totalRequested)%nat
  then Math_round (ratio totalCompleted totalRequested)
  else Some 0.

(** [`${progressPercent}`] *)
Definition showPercent (totalCompleted totalRequested : nat) : jsstring :=
  match progressPercent totalCompleted totalRequested with
  | Some z => showZ z
  | None =>
      match Prim2SF (ratio totalCompleted totalRequested) with
      | S754_infinity false => lit "Infinity"
      | S754_infinity true => lit "-Infinity"
      | _ => lit "NaN"
      end
  end.

(** The message of a known job, by status. *)
Definition statusMessage (job : DownloadJob) : jsstring :=
  let totalRequested := Set_size (requestedPacks job) in
  let totalCompleted := Set_size (completedPacks job) in
  match status job with
  | in_progress =>
      lit "Download in progress: " ++ showNat totalCompleted ++ lit "/"
        ++ showNat totalRequested ++ lit " packs completed ("
        ++ showPercent totalCompleted totalRequested ++ lit "%)"
  | completed =>
      lit "Download completed: all " ++ showNat totalRequested
        ++ lit " packs downloaded successfully"
  | failed =>
      lit "Download failed: " ++ showNat (length (errors job)) ++ lit " errors occurred"
  | partially_completed =>
      lit "Download partially completed: " ++ showNat totalCompleted ++ lit "/"
        ++ showNat totalRequested ++ lit " packs downloaded, "
        ++ showNat (Set_size (failedPacks job)) ++ lit " packs failed"
  end.

Definition getDownloadStatus (job_id : jsstring) (s : State)
    : GetDownloadStatusToolResponse :=
  match lookupJob s job_id with
  | None =>
      {| res_job_id := job_id; res_status := failed;
         res_completedPacks := []; res_failedPacks := [];
         res_progress := lit "0%";
         res_message := lit "Download job with ID " ++ job_id ++ lit " not found";
         res_errors := []; res_startTime := None; res_endTime := None |}
  | Some job =>
      let totalRequested := Set_size (requestedPacks job) in
      let totalCompleted := Set_size (completedPacks job) in
      {| res_job_id := job_id; res_status := status job;
         res_completedPacks := completedPacks job;
         res_failedPacks := failedPacks job;
         res_progress := showPercent totalCompleted totalRequested ++ lit "% ("
                           ++ showNat totalCompleted ++ lit "/"
                           ++ showNat totalRequested ++ lit ")";
         res_message := statusMessage job;
         res_errors := errors job;
         res_startTime := Some (startTime job);
         res_endTime := if decide (status job ≠ in_progress) then endTime job else None |}
  end.

(** [needle] occurs in [hay]. *)
Definition contains (needle hay : jsstring) : Prop :=
  ∃ before after, hay = before ++ needle ++ after.

(** * Scenarios *)

Definition request (packs : string) : InitiateDownloadToolInput :=
  {| in_host := lit "irc.example.com"; in_port := 6667; in_channel := lit "#test";
     in_bot := lit "bot1"; in_packs := lit packs;
     in_download_path := lit "./downloads/"; in_nickname := lit "MCPUser" |}.

Definition bytes1 : list N := [0; 1; 2; 3; 4; 5; 6; 255]%N.
Definition now1 : jsstring := lit "2025-01-01T00:00:00.000Z".

(** The state after a scenario. *)
Definition after (actions : list Action) : State :=
  default initial (run actions initial).

(** One pack requested and downloaded. *)
Definition scenario_completed : list Action :=
  [Initiate (request "1") bytes1 now1;
   Deliver 0 TimerFired; Deliver 0 StartResolved;
   Deliver 0 (Downloaded [Int 1])].

(** Two jobs on one bot, for pack 1 and for pack 2; the library reports
    pack 1 as downloaded to the handlers of both. *)
Definition bytes2 : list N := [16; 17; 18; 19; 20; 21; 22; 23]%N.

Definition scenario_shared_bot : list Action :=
  [Initiate (request "1") bytes1 now1; Initiate (request "2") bytes2 now1;
   Deliver 0 TimerFired; Deliver 1 TimerFired;
   Deliver 0 StartResolved; Deliver 1 StartResolved;
   Deliver 0 (Downloaded [Int 1]); Deliver 1 (Downloaded [Int 1])].

(** One pack requested, the transfer started. *)
Definition scenario_wired : list Action :=
  [Initiate (request "1") bytes1 now1;
   Deliver 0 TimerFired; Deliver 0 StartResolved].

Definition job_1_in_progress : DownloadJob :=
  {| id := lit "job_00010203040506ff"; host := lit "irc.example.com"; port := 6667;
     channel := lit "#test"; bot := lit "bot1";
     requestedPacks := [Int 1]; completedPacks := []; failedPacks := [];
     errors := []; startTime := now1; endTime := None; status := in_progress |}.

(** Forty packs requested, twenty-three downloaded. *)
Definition scenario_23_of_40 : list Action :=
  [Initiate (request "1-40") bytes1 now1;
   Deliver 0 TimerFired; Deliver 0 StartResolved;
   Deliver 0 (Downloaded (Int <$> seqZ 1 23))].

(** Four packs requested, one downloaded. *)
Definition scenario_1_of_4 : list Action :=
  [Initiate (request "1-4") bytes1 now1;
   Deliver 0 TimerFired; Deliver 0 StartResolved;
   Deliver 0 (Downloaded [Int 1])].

Definition job_1_of_4 : DownloadJob :=
  {| id := lit "job_00010203040506ff"; host := lit "irc.example.com"; port := 6667;
     channel := lit "#test"; bot := lit "bot1";
     requestedPacks := [Int 1; Int 2; Int 3; Int 4]; completedPacks := [Int 1];
     failedPacks := []; errors := []; startTime := now1; endTime := None;
     status := in_progress |}.

Definition job_1_completed : DownloadJob :=
  {| id := lit "job_00010203040506ff"; host := lit "irc.example.com"; port := 6667;
     channel := lit "#test"; bot := lit "bot1";
     requestedPacks := [Int 1]; completedPacks := [Int 1]; failedPacks := [];
     errors := []; startTime := now1; endTime := None; status := completed |}.

(** * Notions used by the properties *)

(** The callback an event runs on the job object. *)
Definition handle (ev : Event) (job : DownloadJob) : DownloadJob :=
  match ev with
  | TimerFired | StartResolved => job
  | StartRejected error => onStartRejected error job
  | Downloading => onDownloading job
  | Downloaded success => onDownloaded success job
  | PackError errorMessage stack_ => onError errorMessage stack_ job
  end.

(** What an action does to the job object [r]. *)
Definition evolve (r : ref) (a : Action) (job : DownloadJob) : DownloadJob :=
  match a with
  | Initiate _ _ _ | Refuse _ => job
  | Deliver r' ev => if decide (r' = r) then handle ev job else job
  end.

(** The success list an action carries to the job object [r]. *)
Definition carried (r : ref) (a : Action) : list number :=
  match a with
  | Deliver r' (Downloaded success) => if decide (r' = r) then success else []
  | _ => []
  end.

(** The success lists that the item-completed events among [actions]
    carried to the job object [r]. *)
Definition deliveredSuccess (r : ref) (actions : list Action) : list number :=
  actions ≫= carried r.

Definition terminal (st : DownloadJobStatus) : Prop :=
  st = completed ∨ st = failed.

(** The token without leading white space and without a leading [+]. *)
Definition unsigned (t : jsstring) : jsstring :=
  match dropWhile isWhiteSpace t with
  | c :: rest => if (c =? plus)%N then rest else c :: rest
  | [] => []
  end.

(** The decimal digits a dash-free token starts with. *)
Definition numericPrefix (t : jsstring) : jsstring :=
  takeWhile isDigit (unsigned t).

Definition startsWithDigit (t : jsstring) : bool :=
  match t with
  | c :: _ => isDigit c
  | [] => false
  end.

(** The percentage in the words of the specification:
    [round(100 * |completedPacks| / |requestedPacks|)], and 0 when nothing
    is requested; a half rounds up. *)
Definition spec_progressPercent (totalCompleted totalRequested : nat) : Z :=
  if decide (totalRequested = 0%nat) then 0
  else (200 * Z.of_nat totalCompleted + Z.of_nat totalRequested)
         `div` (2 * Z.of_nat totalRequested).

(** The same with a half rounding to the even neighbour. *)
Definition spec_progressPercent_even (totalCompleted totalRequested : nat) : Z :=
  if decide (totalRequested = 0%nat) then 0
  else
    let c := Z.of_nat totalCompleted in
    let r := Z.of_nat totalRequested in
    let q := (100 * c) `div` r in
    let rest := (100 * c) `mod` r in
    if decide (2 * rest < r) then q
    else if decide (2 * rest > r) then q + 1
    else if Z.even q then q else q + 1.

(** [p] is an integer nearest to [100 * c / r]. *)
Definition nearestPercent (c r : nat) (p : Z) : Prop :=
  Z.abs (2 * (p * Z.of_nat r - 100 * Z.of_nat c)) ≤ Z.of_nat r.

(** The percentage on integers, and the test that it is a nearest integer
    to [100 * c / r] and, below 40 requested packs, the percentage of the
    specification. *)
Definition percentZ (c r : Z) : option Z :=
  Math_round
    (PrimFloat.mul (PrimFloat.div (PrimFloat.of_uint63 (Uint63.of_Z c))
                                  (PrimFloat.of_uint63 (Uint63.of_Z r)))
                   (toDouble 100)).

Definition agrees (c r : Z) : bool :=
  match percentZ c r with
  | Some p =>
      (Z.abs (2 * (p * r - 100 * c)) <=? r)
      && (if r <? 40 then p =? (200 * c + r) `div` (2 * r) else true)
  | None => false
  end.

Definition agrees_upto (n : Z) : bool :=
  forallb (λ r, forallb (λ c, agrees c r) (seqZ 0 (r + 1))) (seqZ 1 n).

(** What holds of every state of the process: the references in use point
    to job objects, and no job has a failed pack or an end time. *)
Record invariant (s : State) : Prop := {
  inv_registry : ∀ job_id r, downloadJobs s !! job_id = Some r → (r < length (objects s))%nat;
  inv_timers : ∀ r, r ∈ timers s → (r < length (objects s))%nat;
  inv_starting : ∀ r, r ∈ starting s → (r < length (objects s))%nat;
  inv_wired : ∀ r, r ∈ wired s → (r < length (objects s))%nat;
  inv_failedPacks : ∀ r job, objects s !! r = Some job → failedPacks job = [];
  inv_endTime : ∀ r job, objects s !! r = Some job → endTime job = None
}.

(** * The echo resource *)

(** The validated query parameters: [{ message?: string }]. *)
Record EchoParams := { echo_message : option jsstring }.

Record EchoResource := {
  echo_text : jsstring;
  echo_timestamp : jsstring;
  echo_requestUri : jsstring
}.

(** [processEchoResource], on [uri.href], the parameters and
    [new Date().toISOString()].  [a || b] is [b] when [a] is undefined or
    the empty string. *)
Definition processEchoResource (href : jsstring) (params : EchoParams)
    (now : jsstring) : EchoResource :=
  let message_ :=
    match echo_message params with
    | Some (c :: m) => c :: m
    | Some [] | None => lit "Hello from echo resource!"
    end in
  {| echo_text := message_; echo_timestamp := now; echo_requestUri := href |}.

(** * Further notions used by the properties *)

(** The error an action appends to the log of the job object [r]. *)
Definition reported (r : ref) (a : Action) : list ErrorEntry :=
  match a with
  | Deliver r' (PackError errorMessage stack_) =>
      if decide (r' = r) then [{| message := errorMessage; stack := stack_ |}] else []
  | Deliver r' (StartRejected error) =>
      if decide (r' = r) then [{| message := message error; stack := stack error |}] else []
  | _ => []
  end.

(** The errors delivered to the job object [r], in order. *)
Definition deliveredErrors (r : ref) (actions : list Action) : list ErrorEntry :=
  actions ≫= reported r.

(** What the fields of a job tell about each other. *)
Record evident (job : DownloadJob) : Prop := {
  ev_requested : requestedPacks job ≠ [];
  ev_requested_NoDup : NoDup (requestedPacks job);
  ev_requested_packs :
    ∀ x, x ∈ requestedPacks job → (∃ z, x = Int z ∧ 0 ≤ z) ∨ x = Infinity false;
  ev_completed_NoDup : NoDup (completedPacks job);
  ev_status : status job ≠ partially_completed;
  ev_in_progress :
    status job = in_progress →
    errors job = [] ∧ Set_size (completedPacks job) ≠ Set_size (requestedPacks job);
  ev_failed : status job = failed → errors job ≠ [];
  ev_completed :
    status job = completed →
    (Set_size (requestedPacks job) ≤ Set_size (completedPacks job))%nat
}.

(** A job is in one phase at a time: its timer pending, its start pending,
    or its handlers registered. *)
Definition phased (s : State) : Prop :=
  ∀ r, (r ∈ timers s → (r ∉ starting s) ∧ (r ∉ wired s))
       ∧ (r ∈ starting s → r ∉ wired s).

(** The action is about the job registered under [job_id]: it creates a
    job with that id, or delivers an event to the job object stored under
    it. *)
Definition concerns (a : Action) (job_id : jsstring) (s : State) : Prop :=
  match a with
  | Initiate _ randomBytes _ => generateJobId randomBytes = job_id
  | Deliver r _ => downloadJobs s !! job_id = Some r
  | Refuse _ => False
  end.

(** Every pooled connection is stored under the key of its own endpoint,
    and its download directory exists. *)
Definition pooled (s : State) : Prop :=
  ∀ key xdcc,
    ircConnections s !! key = Some xdcc →
    key = connectionKey (xdcc_host xdcc) (xdcc_port xdcc)
    ∧ xdcc_path xdcc ∈ directories s.

(** The job object [r] has no callback left. *)
Definition dormant (r : ref) (s : State) : Prop :=
  (r ∉ timers s) ∧ (r ∉ starting s) ∧ (r ∉ wired s).

(** * The model at work *)

Example trim_example : trim (lit "  1 - 3 	") = lit "1 - 3".
Proof. vm_compute. reflexivity. Qed.

Example split_example :
  split comma (lit "1-3,,5,") = [lit "1-3"; lit ""; lit "5"; lit ""]
  ∧ split dash (lit "1--3") = [lit "1"; lit ""; lit "3"]
  ∧ split comma (lit "") = [lit ""].
Proof. vm_compute. done. Qed.

Example parseInt_example :
  parseInt (lit "42") = integer 42
  ∧ parseInt (lit "  7px") = integer 7
  ∧ parseInt (lit "+7") = integer 7
  ∧ parseInt (lit "-7") = integer (-7)
  ∧ parseInt (lit "007") = integer 7
  ∧ parseInt (lit "1e3") = integer 1
  ∧ parseInt (lit "") = notANumber
  ∧ parseInt (lit "abc") = notANumber
  ∧ parseInt (lit "+") = notANumber
  ∧ parseInt (lit "9007199254740991") = integer 9007199254740991
  ∧ parseInt (lit "9007199254740993") = integer 9007199254740992
  ∧ parseInt (lit "9007199254740995") = integer 9007199254740996
  ∧ parseInt (lit ("1" ++ String.concat "" (replicate 309 "0"))) = infinite false.
Proof. vm_compute. done. Qed.

(** The rounding of [roundToDouble] is the rounding of the hardware: the
    conversion of a 63-bit integer to a double gives the same value. *)
Example roundToDouble_example :
  Forall (λ z, roundToDouble z ≠ notANumber
               ∧ Some (number_of (roundToDouble z))
                 = Int <$> Math_round (PrimFloat.of_uint63 (Uint63.of_Z z)))
    [0; 1; 2 ^ 53 - 1; 2 ^ 53; 2 ^ 53 + 1; 2 ^ 53 + 2; 2 ^ 53 + 3; 2 ^ 54 + 2;
     2 ^ 54 + 5; 2 ^ 54 + 6; 2 ^ 60 + 127; 2 ^ 60 + 128; 2 ^ 60 + 129;
     2 ^ 60 + 384; 2 ^ 62 - 513; 2 ^ 62 - 1; 999999999999999999;
     1234567890123456789]
  ∧ roundToDouble (2 ^ 1024 - 2 ^ 970 - 1) = integer (2 ^ 1024 - 2 ^ 971)
  ∧ roundToDouble (2 ^ 1024 - 2 ^ 970) = infinite false
  ∧ roundToDouble (- 2 ^ 1024) = infinite true.
Proof.
  split; [|vm_compute; done].
  repeat (constructor; [by vm_compute|]). constructor.
Qed.

Example expandPacks_shapes :
  expandPacks (lit " 1 - 3 , 5 ") = Returns [Int 1; Int 2; Int 3; Int 5]
  ∧ expandPacks (lit "3,1-3,3") = Returns [Int 3; Int 1; Int 2]
  ∧ expandPacks (lit "1-3-9") = Returns [Int 1; Int 2; Int 3]
  ∧ expandPacks (lit "-5") = Returns []
  ∧ expandPacks (lit "5-") = Returns []
  ∧ expandPacks (lit "1--3") = Returns []
  ∧ expandPacks (lit "7-7") = Returns [Int 7]
  ∧ expandPacks (lit "9007199254740992-9007199254740994")
    = Returns [Int 9007199254740992; Int 9007199254740994]
  ∧ expandPacks (lit ("1" ++ String.concat "" (replicate 309 "0")))
    = Returns [Infinity false]
  ∧ expandPacks (lit "0-4294967295") = Raises RangeError
  ∧ expandPacks (lit "1,0-4294967295,a") = Raises RangeError.
Proof. vm_compute. done. Qed.

Example generateJobId_example :
  generateJobId bytes1 = lit "job_00010203040506ff".
Proof. vm_compute. reflexivity. Qed.

Example Math_round_example :
  Math_round (ratio 1 8) = Some 13
  ∧ Math_round (ratio 1 3) = Some 33
  ∧ Math_round (ratio 2 3) = Some 67
  ∧ Math_round (ratio 1 200) = Some 1
  ∧ Math_round (ratio 0 5) = Some 0
  ∧ Math_round (ratio 5 5) = Some 100.
Proof. vm_compute. done. Qed.

(** The scenario of the specification: packs "1-2", both reported
    completed, then the status. *)
Example scenario_end_to_end :
  let s := after [Initiate (request "1-2") bytes1 now1;
                  Deliver 0 TimerFired; Deliver 0 StartResolved;
                  Deliver 0 (Downloaded [Int 1]);
                  Deliver 0 (Downloaded [Int 1; Int 2])] in
  let res := getDownloadStatus (lit "job_00010203040506ff") s in
  (initiateDownload (request "1-2") bytes1 now1 initial).1
  = Returns {| out_job_id := lit "job_00010203040506ff";
               out_message := lit "Download started for 2 file(s)";
               out_status := in_progress |}
  ∧ res_status res = completed
  ∧ res_completedPacks res = [Int 1; Int 2]
  ∧ res_progress res = lit "100% (2/2)"
  ∧ res_message res = lit "Download completed: all 2 packs downloaded successfully".
Proof. vm_compute. done. Qed.

(** Two requests for one endpoint share the connection of the first; both
    channels are joined on it. *)
Example pool_example :
  let second :=
    {| in_host := lit " irc.example.com"; in_port := 6667; in_channel := lit "#other";
       in_bot := lit "bot2"; in_packs := lit "9";
       in_download_path := lit "/tmp/elsewhere"; in_nickname := lit "Someone" |} in
  let s := after [Initiate (request "1") bytes1 now1; Initiate second bytes2 now1] in
  ircConnections s
  = {[ lit "irc.example.com:6667" :=
         {| xdcc_host := lit "irc.example.com"; xdcc_port := 6667;
            xdcc_nickname := lit "MCPUser"; xdcc_path := lit "./downloads/";
            xdcc_joined := [lit "#test"; lit "#other"] |} ]}
  ∧ directories s = {[ lit "./downloads/" ]}.
Proof. vm_compute. done. Qed.

(** * The pack range expander: properties *)

Section lists.
Context {A : Type} (p : A → bool).

Lemma takeWhile_app_stop (l k : list A) :
  (match k with x :: _ => p x = false | [] => True end) →
  Forall (λ x, p x = true) l →
  takeWhile p (l ++ k) = l.
Proof.
  intros Hk Hl. induction Hl as [|x l Hx _ IH]; simpl.
  - destruct k as [|y k]; simpl; [done|]. by rewrite Hk.
  - by rewrite Hx, IH.
Qed.

Lemma dropWhile_none (l : list A) :
  (match l with x :: _ => p x = false | [] => True end) →
  dropWhile p l = l.
Proof. destruct l as [|x l]; simpl; [done|]. by intros ->. Qed.

Lemma dropWhile_suffix (l : list A) : ∃ k, l = k ++ dropWhile p l ∧ Forall (λ x, p x = true) k.
Proof.
  induction l as [|x l [k [Hk Hall]]]; simpl.
  - by exists [].
  - destruct (p x) eqn:Hx.
    + exists (x :: k). split; [by rewrite <- app_comm_cons, <- Hk|by constructor].
    + by exists [].
Qed.

Lemma dropWhile_head (l : list A) :
  match dropWhile p l with x :: _ => p x = false | [] => True end.
Proof. induction l as [|x l IH]; simpl; [done|]. destruct (p x) eqn:Hx; [done|]. exact Hx. Qed.

Lemma takeWhile_app_junk (q : A → bool) (l w : list A) :
  (∀ x, q x = true → p x = false) →
  Forall (λ x, q x = true) w →
  takeWhile p (l ++ w) = takeWhile p l.
Proof.
  intros Hq Hw. induction l as [|x l IH]; simpl.
  - destruct Hw as [|y w Hy _]; simpl; [done|]. by rewrite (Hq _ Hy).
  - destruct (p x); [by rewrite IH|done].
Qed.
End lists.

Lemma isDigit_bounds c : isDigit c = true ↔ (48 ≤ c ≤ 57)%N.
Proof.
  unfold isDigit. rewrite andb_true_iff, !N.leb_le. done.
Qed.

Lemma whiteSpace_not_digit c : isWhiteSpace c = true → isDigit c = false.
Proof.
  intros Hws. destruct (isDigit c) eqn:Hd; [|done].
  apply isDigit_bounds in Hd. unfold isWhiteSpace in Hws.
  apply orb_true_iff in Hws as [Hws|Hws].
  - apply bool_decide_eq_true in Hws.
    repeat (apply elem_of_cons in Hws as [->|Hws]; [lia|]).
    by apply elem_of_nil in Hws.
  - apply andb_true_iff in Hws as [Hws _]. apply N.leb_le in Hws. lia.
Qed.

Lemma digit_not_whiteSpace c : isDigit c = true → isWhiteSpace c = false.
Proof.
  intros Hd. destruct (isWhiteSpace c) eqn:Hws; [|done].
  apply whiteSpace_not_digit in Hws. congruence.
Qed.

Lemma split_without sep (t : jsstring) : sep ∉ t → split sep t = [t].
Proof.
  induction t as [|c t IH]; simpl; [done|].
  intros Hnot. apply not_elem_of_cons in Hnot as [Hne Hnot].
  destruct (N.eqb_spec c sep) as [->|_]; [done|]. by rewrite IH.
Qed.

Lemma includes_false c (t : jsstring) : c ∉ t → includes c t = false.
Proof.
  unfold includes. induction t as [|d t IH]; simpl; [done|].
  intros Hnot. apply not_elem_of_cons in Hnot as [Hne Hnot].
  rewrite IH by done. destruct (N.eqb_spec c d); [done|done].
Qed.

(** A string is its trimmed part between two runs of white space. *)
Lemma trim_decompose (t : jsstring) :
  ∃ w, dropWhile isWhiteSpace t = trim t ++ w
       ∧ Forall (λ c, isWhiteSpace c = true) w
       ∧ (∃ k, t = k ++ trim t ++ w).
Proof.
  destruct (dropWhile_suffix isWhiteSpace t) as [k [Hk _]].
  destruct (dropWhile_suffix isWhiteSpace (reverse (dropWhile isWhiteSpace t)))
    as [w [Hw Hall]].
  exists (reverse w). unfold trim.
  assert (dropWhile isWhiteSpace t
          = reverse (dropWhile isWhiteSpace (reverse (dropWhile isWhiteSpace t)))
              ++ reverse w) as Heq.
  { rewrite <- reverse_app, <- Hw. by rewrite reverse_involutive. }
  split; [exact Heq|]. split.
  - by apply Forall_reverse.
  - exists k. by rewrite <- Heq.
Qed.

Lemma trim_subseteq (t : jsstring) c : c ∈ trim t → c ∈ t.
Proof.
  destruct (trim_decompose t) as [w [_ [_ [k Hk]]]].
  intros Hin. rewrite Hk. rewrite !elem_of_app. auto.
Qed.

Lemma unsigned_trim (t : jsstring) :
  takeWhile isDigit (unsigned (trim t)) = takeWhile isDigit (unsigned t).
Proof.
  destruct (trim_decompose t) as [w [Hdrop [Hw _]]].
  pose proof (dropWhile_head isWhiteSpace t) as Hhead.
  unfold unsigned. rewrite Hdrop in *.
  destruct (trim t) as [|c a] eqn:Htrim; simpl in *.
  - destruct w as [|d w]; [done|].
    apply Forall_cons in Hw as [Hd _]. congruence.
  - rewrite Hhead.
    assert (takeWhile isDigit (a ++ w) = takeWhile isDigit a) as Hjunk
      by (apply (takeWhile_app_junk isDigit isWhiteSpace);
          [apply whiteSpace_not_digit|exact Hw]).
    destruct (c =? plus)%N; [by rewrite Hjunk|].
    simpl. by rewrite Hjunk.
Qed.

(** ** Rounding *)

Lemma roundToDouble_exact (z : Z) : Z.abs z ≤ 2 ^ 53 → roundToDouble z = integer z.
Proof.
  intros Hz. destruct (decide (Z.abs z = 2 ^ 53)) as [Htop|Hbelow].
  - assert (z = 2 ^ 53 ∨ z = - 2 ^ 53) as [-> | ->] by lia; vm_compute; reflexivity.
  - unfold roundToDouble, roundMagnitude.
    destruct (Z.ltb_spec (Z.abs z) (2 ^ 53)) as [_|Hge]; [|lia].
    f_equal. lia.
Qed.

Lemma roundToDouble_safe (z : Z) :
  Z.abs z ≤ MAX_SAFE_INTEGER → roundToDouble z = integer z.
Proof. unfold MAX_SAFE_INTEGER. intros Hz. apply roundToDouble_exact. lia. Qed.

Lemma roundMagnitude_nonneg (n m : Z) : 0 ≤ n → roundMagnitude n = Some m → 0 ≤ m.
Proof.
  intros Hn. unfold roundMagnitude.
  destruct (n <? 2 ^ 53); [by intros [= <-]|].
  set (e := Z.log2 n - 52).
  assert (0 ≤ 2 ^ e) as Hpow by (apply Z.pow_nonneg; lia).
  assert (0 ≤ n `div` 2 ^ e) as Hq by (apply Z_div_nonneg_nonneg; lia).
  destruct (_ <? 2 ^ 1024); [|done]. intros [= <-].
  repeat case_match; nia.
Qed.

(** The double nearest to a natural number is a natural number or
    [Infinity]; rounding never gives [NaN]. *)
Lemma roundToDouble_nonneg (z : Z) :
  0 ≤ z → (∃ m, roundToDouble z = integer m ∧ 0 ≤ m) ∨ roundToDouble z = infinite false.
Proof.
  intros Hz. unfold roundToDouble.
  destruct (roundMagnitude (Z.abs z)) as [m|] eqn:Hm.
  - left. eexists. split; [done|].
    apply roundMagnitude_nonneg in Hm; [|lia]. nia.
  - right. f_equal. lia.
Qed.

(** What [roundMagnitude] gives is a double, a significand of at most 53
    bits times a power of two below [2 ^ 1024], and it lies within half a
    unit in the last place of the number. *)
Lemma roundMagnitude_nearest (n m : Z) :
  0 ≤ n →
  roundMagnitude n = Some m →
  ∃ q e, m = q * 2 ^ e ∧ 0 ≤ e ∧ 0 ≤ q ≤ 2 ^ 53 ∧ m < 2 ^ 1024
         ∧ 2 * Z.abs (m - n) ≤ 2 ^ e
         ∧ (2 ^ 53 ≤ n → 2 ^ 52 ≤ q).
Proof.
  intros Hn. unfold roundMagnitude.
  destruct (Z.ltb_spec n (2 ^ 53)) as [Hsmall|Hbig].
  { intros [= <-]. exists n, 0. rewrite Z.pow_0_r. split_and!; lia. }
  set (e := Z.log2 n - 52).
  assert (53 ≤ Z.log2 n) as Hlog by (apply Z.log2_le_pow2; lia).
  destruct (Z.log2_spec n ltac:(lia)) as [Hlow Hhigh].
  assert (0 < e) as He by lia.
  assert (Z.log2 n = e + 52) as Hl by lia. rewrite Hl in Hlow.
  replace (Z.succ (Z.log2 n)) with (e + 53) in Hhigh by lia.
  rewrite Z.pow_add_r in Hlow, Hhigh by lia.
  assert (0 < 2 ^ e) as Hpow by (apply Z.pow_pos_nonneg; lia).
  assert (2 ^ e = 2 * 2 ^ (e - 1)) as Hhalf.
  { rewrite <- (Z.pow_succ_r 2 (e - 1)) by lia. f_equal. lia. }
  pose proof (Z.div_mod n (2 ^ e) ltac:(lia)) as Hdm.
  pose proof (Z.mod_pos_bound n (2 ^ e) Hpow) as Hmod.
  set (q := n `div` 2 ^ e) in *. set (rest := n `mod` 2 ^ e) in *.
  assert (2 ^ 52 ≤ q < 2 ^ 53) as Hq by (split; nia).
  destruct (_ <? 2 ^ 1024) eqn:Hfin; [|done]. apply Z.ltb_lt in Hfin.
  intros [= <-].
  destruct (Z.ltb_spec rest (2 ^ (e - 1))) as [Hlt|Hge].
  - exists q, e. split_and!; try lia.
  - destruct (Z.ltb_spec (2 ^ (e - 1)) rest) as [Hgt|Hle].
    + exists (q + 1), e. split_and!; try lia.
    + destruct (Z.even q); [exists q, e|exists (q + 1), e]; split_and!; try lia.
Qed.

Lemma roundToDouble_isNaN (z : Z) : isNaN (roundToDouble z) = false.
Proof. unfold roundToDouble. by destruct (roundMagnitude (Z.abs z)). Qed.

(** ** What a call that may throw returns *)

Lemma flatMap_app {A B} (callback : A → Outcome (list B)) (l1 l2 : list A) :
  flatMap callback (l1 ++ l2)
  = andThen (flatMap callback l1) (λ numbers,
    andThen (flatMap callback l2) (λ numbers',
    Returns (numbers ++ numbers'))).
Proof.
  induction l1 as [|x l1 IH]; simpl.
  - by destruct (flatMap callback l2).
  - rewrite IH. destruct (callback x) as [ys| |]; simpl; [|done..].
    destruct (flatMap callback l1) as [zs| |]; simpl; [|done..].
    destruct (flatMap callback l2) as [ws| |]; simpl; [|done..].
    by rewrite app_assoc.
Qed.

(** [flatMap] returns when the callback returns for every part, and then
    what it returns is what the callback returned, part after part. *)
Lemma flatMap_Returns {A B} (callback : A → Outcome (list B)) (l : list A) (ys : list B) :
  flatMap callback l = Returns ys →
  (∀ x, x ∈ l → ∃ xs, callback x = Returns xs ∧ xs ⊆ ys)
  ∧ (∀ y, y ∈ ys → ∃ x xs, x ∈ l ∧ callback x = Returns xs ∧ y ∈ xs).
Proof.
  revert ys. induction l as [|x l IH]; intros ys; simpl.
  - intros [= <-]. split; [by intros x ?%elem_of_nil|by intros y ?%elem_of_nil].
  - destruct (callback x) as [xs| |] eqn:Hx; simpl; [|done..].
    destruct (flatMap callback l) as [zs| |]; simpl; [|done..].
    intros [= <-]. destruct (IH zs eq_refl) as [Hparts Helems]. split.
    + intros x' [->|Hin]%elem_of_cons.
      * exists xs. split; [done|]. intros y Hy. apply elem_of_app. by left.
      * destruct (Hparts x' Hin) as (xs' & Hx' & Hsub).
        exists xs'. split; [done|]. intros y Hy. apply elem_of_app. right. by apply Hsub.
    + intros y [Hy|Hy]%elem_of_app.
      * exists x, xs. split; [left|done].
      * destruct (Helems y Hy) as (x' & xs' & Hin & Hx' & Hy').
        exists x', xs'. split; [by right|done].
Qed.

(** ** Parts without a dash *)

(** On a dash-free string [parseInt] reads the numeric prefix. *)
Lemma parseInt_dash_free (t : jsstring) :
  dash ∉ t →
  parseInt t = match numericPrefix t with
               | [] => notANumber
               | ds => roundToDouble (digitsValue ds)
               end.
Proof.
  intros Hdash. unfold parseInt, numericPrefix, unsigned.
  destruct (dropWhile_suffix isWhiteSpace t) as [k [Hk _]].
  destruct (dropWhile isWhiteSpace t) as [|c rest]; simpl; [done|].
  destruct (N.eqb_spec c dash) as [->|_].
  { exfalso. apply Hdash. rewrite Hk. apply elem_of_app. right. left. }
  destruct (c =? plus)%N.
  - destruct (takeWhile isDigit rest); [done|]. f_equal. lia.
  - simpl. destruct (isDigit c); [|done]. f_equal. lia.
Qed.

(** A dash-free part contributes the double nearest to the value of its
    numeric prefix, or nothing when it has none. *)
Lemma expandPart_dash_free (t : jsstring) :
  dash ∉ t →
  expandPart t = match numericPrefix t with
                 | [] => Returns []
                 | ds => Returns [number_of (roundToDouble (digitsValue ds))]
                 end.
Proof.
  intros Hdash. unfold expandPart.
  rewrite includes_false by (intros Hin; by apply Hdash, trim_subseteq).
  rewrite parseInt_dash_free by (intros Hin; by apply Hdash, trim_subseteq).
  unfold numericPrefix. rewrite unsigned_trim.
  destruct (takeWhile isDigit (unsigned t)); [done|].
  by rewrite roundToDouble_isNaN.
Qed.

Lemma expandPacks_single (t : jsstring) :
  comma ∉ t →
  expandPacks t = andThen (expandPart t) (λ numbers, Returns (Set_new numbers)).
Proof.
  intros Hcomma. unfold expandPacks.
  rewrite split_without by done. simpl.
  destruct (expandPart t); simpl; [|done..]. by rewrite app_nil_r.
Qed.

Lemma numericPrefix_digits (ds rest : jsstring) :
  ds ≠ [] →
  Forall (λ c, isDigit c = true) ds →
  startsWithDigit rest = false →
  numericPrefix (ds ++ rest) = ds.
Proof.
  intros Hne Hds Hrest. unfold numericPrefix, unsigned.
  destruct ds as [|d ds]; [done|].
  apply Forall_cons in Hds as [Hd Hds].
  simpl. rewrite (digit_not_whiteSpace d Hd).
  destruct (N.eqb_spec d plus) as [->|_]; [done|].
  rewrite app_comm_cons. apply takeWhile_app_stop.
  - by destruct rest.
  - by constructor.
Qed.

(** C4: the expander maps "1-3,5,7-9" to 1,2,3,5,7,8,9 and "2-1,abc,4" to
    4 alone, the parts "2-1" and "abc" contributing nothing; the pack
    string "abc" expands to the empty set, and [initiateDownload] then
    throws the validation error, whatever the other parameters, and leaves
    the state as it was. *)
Theorem expandPacks_examples :
  expandPacks (lit "1-3,5,7-9") = Returns (Int <$> [1; 2; 3; 5; 7; 8; 9])
  ∧ expandPacks (lit "2-1,abc,4") = Returns [Int 4]
  ∧ expandPart (lit "2-1") = Returns []
  ∧ expandPart (lit "abc") = Returns []
  ∧ expandPacks (lit "abc") = Returns []
  ∧ ∀ h p c b d n randomBytes now s,
      initiateDownload
        {| in_host := h; in_port := p; in_channel := c; in_bot := b;
           in_packs := lit "abc"; in_download_path := d; in_nickname := n |}
        randomBytes now s
      = (Throws {| code := VALIDATION_ERROR;
                   errorText := lit "No valid pack numbers provided" |}, s).
Proof.
  do 5 (split; [vm_compute; reflexivity|]).
  intros. unfold initiateDownload. cbn [in_packs].
  assert (expandPacks (trim (lit "abc")) = Returns []) as -> by (vm_compute; reflexivity).
  reflexivity.
Qed.

(** * Sets: properties *)

Lemma Set_add_elem (x y : number) (s : JSSet) :
  y ∈ Set_add x s ↔ y ∈ s ∨ y = x.
Proof.
  unfold Set_add. case_decide as Hin.
  - split; [auto|]. intros [Hy| ->]; done.
  - rewrite elem_of_app, list_elem_of_singleton. done.
Qed.

Lemma Set_addAll_elem (xs : list number) (s : JSSet) (y : number) :
  y ∈ Set_addAll xs s ↔ y ∈ s ∨ y ∈ xs.
Proof.
  unfold Set_addAll. revert s.
  induction xs as [|x xs IH]; intros s; simpl.
  - rewrite elem_of_nil. tauto.
  - rewrite IH, Set_add_elem, elem_of_cons. tauto.
Qed.

Lemma Set_add_NoDup (x : number) (s : JSSet) : NoDup s → NoDup (Set_add x s).
Proof.
  intros Hs. unfold Set_add. case_decide as Hin; [done|].
  apply NoDup_app. split; [done|]. split.
  - intros y Hy Hx. apply list_elem_of_singleton in Hx as ->. done.
  - apply NoDup_singleton.
Qed.

Lemma Set_addAll_NoDup (xs : list number) (s : JSSet) :
  NoDup s → NoDup (Set_addAll xs s).
Proof.
  unfold Set_addAll. revert s.
  induction xs as [|x xs IH]; intros s Hs; simpl; [done|].
  by apply IH, Set_add_NoDup.
Qed.

(** * The connection pool: properties *)

Lemma getXdccConnection_frame h p n d s :
  let s' := (getXdccConnection h p n d s).2 in
  downloadJobs s' = downloadJobs s ∧ objects s' = objects s
  ∧ timers s' = timers s ∧ starting s' = starting s ∧ wired s' = wired s
  ∧ refused s' = refused s.
Proof.
  unfold getXdccConnection.
  destruct (ircConnections s !! connectionKey h p); simpl; [done|].
  destruct (existsSync d s); simpl; [done|].
  unfold mkdirSync. case_decide; done.
Qed.

(** The three ways of [getXdccConnection]: the connection is pooled, it is
    made, or its directory cannot be made. *)
Lemma getXdccConnection_cases h p n d s :
  let key := connectionKey h p in
  let xdcc := {| xdcc_host := h; xdcc_port := p; xdcc_nickname := n;
                 xdcc_path := d; xdcc_joined := [] |} in
  match ircConnections s !! key with
  | Some pooled_ => getXdccConnection h p n d s = (Returns pooled_, s)
  | None =>
      if decide (d ≠ [] ∧ d ∈ directories s) then
        getXdccConnection h p n d s
        = (Returns xdcc, set_ircConnections (<[key := xdcc]> (ircConnections s)) s)
      else if decide (d = [] ∨ d ∈ refused s) then
        getXdccConnection h p n d s = (Raises (SystemError d), s)
      else
        getXdccConnection h p n d s
        = (Returns xdcc,
           set_ircConnections (<[key := xdcc]> (ircConnections s))
             (set_directories ({[d]} ∪ directories s) s))
  end.
Proof.
  unfold getXdccConnection, existsSync, mkdirSync. simpl.
  destruct (ircConnections s !! connectionKey h p); [done|].
  case_bool_decide; [by rewrite decide_True|]. rewrite decide_False by done.
  case_decide; done.
Qed.

Lemma getXdccConnection_pooled h p n d s xdcc s' :
  getXdccConnection h p n d s = (Returns xdcc, s') →
  ircConnections s' !! connectionKey h p = Some xdcc.
Proof.
  pose proof (getXdccConnection_cases h p n d s) as Hcases. simpl in Hcases.
  destruct (ircConnections s !! connectionKey h p) eqn:Hpool.
  - rewrite Hcases. by intros [= <- <-].
  - repeat case_decide; rewrite Hcases; intros [= <- <-]; simpl; apply lookup_insert_eq.
Qed.

(** A call of [getXdccConnection] that does not return has changed
    nothing: the directory could not be made. *)
Lemma getXdccConnection_fails h p n d s o s' :
  getXdccConnection h p n d s = (o, s') →
  (∀ xdcc, o ≠ Returns xdcc) →
  s' = s ∧ o = Raises (SystemError d)
  ∧ ircConnections s !! connectionKey h p = None
  ∧ (d = [] ∨ d ∈ refused s).
Proof.
  pose proof (getXdccConnection_cases h p n d s) as Hcases. simpl in Hcases.
  destruct (ircConnections s !! connectionKey h p) eqn:Hpool.
  - rewrite Hcases. intros [= <- <-] Hfails. by destruct (Hfails _ eq_refl).
  - repeat case_decide; rewrite Hcases; intros [= <- <-] Hfails;
      try (by destruct (Hfails _ eq_refl)). done.
Qed.

(** * The process: how a step changes the state *)

(** A call of [initiateDownload] that returns has created one job object
    and set its timer. *)
Lemma initiateDownload_returns params randomBytes now s response s' :
  initiateDownload params randomBytes now s = (Returns response, s') →
  ∃ job requested,
    objects s' = objects s ++ [job]
    ∧ downloadJobs s' = <[generateJobId randomBytes := length (objects s)]> (downloadJobs s)
    ∧ timers s' = timers s ++ [length (objects s)]
    ∧ starting s' = starting s ∧ wired s' = wired s
    ∧ response = {| out_job_id := generateJobId randomBytes;
                    out_message := lit "Download started for "
                                     ++ showNat (Set_size (requestedPacks job))
                                     ++ lit " file(s)";
                    out_status := in_progress |}
    ∧ expandPacks (trim (in_packs params)) = Returns requested
    ∧ requested ≠ []
    ∧ job = {| id := generateJobId randomBytes; host := trim (in_host params);
               port := in_port params; channel := trim (in_channel params);
               bot := trim (in_bot params);
               requestedPacks := requested;
               completedPacks := []; failedPacks := []; errors := [];
               startTime := now; endTime := None; status := in_progress |}.
Proof.
  unfold initiateDownload.
  destruct (expandPacks (trim (in_packs params))) as [requested| |]; [|done..].
  case_decide as Hempty; [done|].
  match goal with
  | |- context [getXdccConnection ?h ?p ?n ?d ?s1] =>
      pose proof (getXdccConnection_frame h p n d s1) as Hframe;
      destruct (getXdccConnection h p n d s1) as [[xdcc| |] s2]; [|done..]
  end.
  simpl in Hframe.
  destruct Hframe as (Hjobs & Hobjects & Htimers & Hstarting & Hwired & _).
  intros [= <- <-]. simpl.
  eexists _, requested. rewrite Hjobs, Hobjects, Htimers, Hstarting, Hwired.
  split_and!; try done. intros ->. done.
Qed.

(** A call that throws an [McpError] has changed nothing, and so has a
    call out of which a [RangeError] propagates. *)
Lemma initiateDownload_throws params randomBytes now s e s' :
  initiateDownload params randomBytes now s = (Throws e, s') → s' = s.
Proof.
  unfold initiateDownload.
  destruct (expandPacks (trim (in_packs params))) as [requested| |];
    [|by intros [= _ <-]..].
  case_decide as Hempty; [by intros [= _ <-]|].
  match goal with
  | |- context [getXdccConnection ?h ?p ?n ?d ?s1] =>
      destruct (getXdccConnection h p n d s1) as [[xdcc|e'|x] s2] eqn:Hget; [done| |done]
  end.
  apply getXdccConnection_fails in Hget as (_ & [=] & _); done.
Qed.

(** A call that does not return has changed nothing, or it has registered
    its job and the directory could not be made: the job is there, without
    a timer, and the pool and the directories are as they were. *)
Lemma initiateDownload_fails params randomBytes now s o s' :
  initiateDownload params randomBytes now s = (o, s') →
  (∀ response, o ≠ Returns response) →
  (s' = s ∧ ∀ requested, expandPacks (trim (in_packs params)) = Returns requested →
                          requested = [])
  ∨ ∃ job requested,
      objects s' = objects s ++ [job]
      ∧ downloadJobs s' = <[generateJobId randomBytes := length (objects s)]> (downloadJobs s)
      ∧ timers s' = timers s ∧ starting s' = starting s ∧ wired s' = wired s
      ∧ ircConnections s' = ircConnections s ∧ directories s' = directories s
      ∧ refused s' = refused s
      ∧ o = Raises (SystemError (trim (in_download_path params)))
      ∧ expandPacks (trim (in_packs params)) = Returns requested
      ∧ requested ≠ []
      ∧ job = {| id := generateJobId randomBytes; host := trim (in_host params);
                 port := in_port params; channel := trim (in_channel params);
                 bot := trim (in_bot params);
                 requestedPacks := requested;
                 completedPacks := []; failedPacks := []; errors := [];
                 startTime := now; endTime := None; status := in_progress |}.
Proof.
  unfold initiateDownload.
  destruct (expandPacks (trim (in_packs params))) as [requested| |];
    [|intros [= _ <-] _; by left..].
  case_decide as Hempty.
  { intros [= _ <-] _. left. split; [done|]. intros ? [= <-]. by destruct requested. }
  match goal with
  | |- context [getXdccConnection ?h ?p ?n ?d ?s1] =>
      destruct (getXdccConnection h p n d s1) as [o2 s2] eqn:Hget
  end.
  intros Hcall Hfails. right.
  assert (∀ xdcc, o2 ≠ Returns xdcc) as Hfails2.
  { intros xdcc ->. injection Hcall as <- _. by destruct (Hfails _ eq_refl). }
  apply getXdccConnection_fails in Hget as (-> & -> & _); [|done].
  injection Hcall as <- <-. simpl.
  eexists _, requested. split_and!; try done. intros ->. done.
Qed.

(** What a call of [initiateDownload] does to the jobs, whether it returns
    or not: nothing, or one job object more, registered under its id, with
    or without its timer. *)
Lemma initiateDownload_state params randomBytes now s :
  let s' := (initiateDownload params randomBytes now s).2 in
  s' = s
  ∨ ∃ job requested,
      objects s' = objects s ++ [job]
      ∧ downloadJobs s' = <[generateJobId randomBytes := length (objects s)]> (downloadJobs s)
      ∧ (timers s' = timers s ∨ timers s' = timers s ++ [length (objects s)])
      ∧ starting s' = starting s ∧ wired s' = wired s
      ∧ expandPacks (trim (in_packs params)) = Returns requested
      ∧ requested ≠ []
      ∧ job = {| id := generateJobId randomBytes; host := trim (in_host params);
                 port := in_port params; channel := trim (in_channel params);
                 bot := trim (in_bot params);
                 requestedPacks := requested;
                 completedPacks := []; failedPacks := []; errors := [];
                 startTime := now; endTime := None; status := in_progress |}.
Proof.
  destruct (initiateDownload params randomBytes now s) as [o s'] eqn:Hcall. simpl.
  destruct o as [response|e|x].
  - right. apply initiateDownload_returns in Hcall
      as (job & requested & ? & ? & ? & ? & ? & _ & ? & ? & ?).
    exists job, requested. split_and!; auto.
  - left. by eapply initiateDownload_throws.
  - apply initiateDownload_fails in Hcall
      as [[-> _]|(job & requested & ? & ? & ? & ? & ? & _ & _ & _ & _ & ? & ? & ?)];
      [by left| |done].
    right. exists job, requested. split_and!; auto.
Qed.

(** A step keeps the job objects there are and runs at most one callback
    on each. *)
Lemma step_objects a s s' r job :
  step a s = Some s' →
  objects s !! r = Some job →
  objects s' !! r = Some (evolve r a job).
Proof.
  intros Hstep Hjob. destruct a as [params randomBytes now|r' ev|paths]; simpl in *.
  - injection Hstep as <-.
    destruct (initiateDownload_state params randomBytes now s)
      as [->|(job' & requested & -> & _)]; [done|].
    by apply lookup_app_l_Some.
  - destruct (decide (r' = r)) as [->|Hne];
      destruct ev; simpl in *; case_decide; try done;
      injection Hstep as <-; simpl; try done;
      by rewrite ?list_lookup_alter_eq, ?list_lookup_alter_ne, ?Hjob.
  - by injection Hstep as <-.
Qed.

(** What no callback touches. *)
Lemma handle_frame ev job :
  failedPacks (handle ev job) = failedPacks job
  ∧ endTime (handle ev job) = endTime job
  ∧ requestedPacks (handle ev job) = requestedPacks job
  ∧ id (handle ev job) = id job
  ∧ startTime (handle ev job) = startTime job.
Proof.
  destruct ev; simpl; try done.
  unfold onDownloaded. case_decide; done.
Qed.

Lemma evolve_frame r a job :
  failedPacks (evolve r a job) = failedPacks job
  ∧ endTime (evolve r a job) = endTime job
  ∧ requestedPacks (evolve r a job) = requestedPacks job.
Proof.
  destruct a as [|r' ev|]; simpl; [done| |done].
  case_decide; [|done]. by destruct (handle_frame ev job) as (? & ? & ? & _).
Qed.

Lemma settle_elem r x (l : list ref) : x ∈ settle r l → x ∈ l.
Proof. unfold settle. rewrite list_elem_of_filter. tauto. Qed.

Lemma deliver_state r ev s s' :
  deliver r ev s = Some s' →
  objects s' = alter (handle ev) r (objects s)
  ∧ downloadJobs s' = downloadJobs s
  ∧ ircConnections s' = ircConnections s
  ∧ directories s' = directories s
  ∧ (∀ x, x ∈ timers s' → x ∈ timers s)
  ∧ (∀ x, x ∈ starting s' → x ∈ starting s ∨ x ∈ timers s)
  ∧ (∀ x, x ∈ wired s' → x ∈ wired s ∨ x ∈ starting s).
Proof.
  destruct ev; simpl; case_decide; try done; intros [= <-]; simpl;
    rewrite ?(list_alter_id (λ job, job)) by done;
    repeat split; try done; intros x;
    rewrite ?elem_of_app, ?list_elem_of_singleton;
    try (intros Hx%settle_elem; by auto); try (by auto);
    intros [Hx| ->]; auto.
Qed.

Lemma invariant_boot dirs : invariant (boot dirs).
Proof.
  split; simpl; intros *; try (by intros ?%elem_of_nil); by rewrite ?lookup_empty, ?lookup_nil.
Qed.

Lemma invariant_step a s s' : invariant s → step a s = Some s' → invariant s'.
Proof.
  intros [Hreg Htimers Hstarting Hwired Hfailed Hend] Hstep.
  destruct a as [params randomBytes now|r ev|paths]; simpl in Hstep;
    [| |by injection Hstep as <-].
  - injection Hstep as <-.
    destruct (initiateDownload_state params randomBytes now s)
      as [->|(job & requested & Hobjects & Hjobs & Ht & Hs & Hw & _ & _ & Hjob)];
      [by split|].
    split; rewrite ?Hobjects, ?Hjobs, ?Hs, ?Hw, ?length_app; simpl.
    + intros job_id r. rewrite lookup_insert. case_decide.
      * intros [= <-]. lia.
      * intros Hr%Hreg. lia.
    + destruct Ht as [-> | ->].
      * intros r Hr%Htimers. lia.
      * intros r [Hr%Htimers| ->%list_elem_of_singleton]%elem_of_app; lia.
    + intros r Hr%Hstarting. lia.
    + intros r Hr%Hwired. lia.
    + intros r job' [Hr|[_ Hr]]%lookup_app_Some; [by eapply Hfailed|].
      apply list_lookup_singleton_Some in Hr as [_ <-]. by rewrite Hjob.
    + intros r job' [Hr|[_ Hr]]%lookup_app_Some; [by eapply Hend|].
      apply list_lookup_singleton_Some in Hr as [_ <-]. by rewrite Hjob.
  - apply deliver_state in Hstep as (Hobjects & Hjobs & _ & _ & Ht & Hs & Hw).
    split; rewrite ?Hobjects, ?Hjobs, ?length_alter.
    + done.
    + intros x Hx%Ht. auto.
    + intros x [Hx|Hx]%Hs; auto.
    + intros x [Hx|Hx]%Hw; auto.
    + intros r' job' Hjob'.
      destruct (decide (r = r')) as [->|Hne].
      * rewrite list_lookup_alter_eq in Hjob'.
        destruct (objects s !! r') as [job|] eqn:Hjob; [|done].
        injection Hjob' as <-.
        destruct (handle_frame ev job) as [-> _]. by eapply Hfailed.
      * rewrite list_lookup_alter_ne in Hjob' by done. by eapply Hfailed.
    + intros r' job' Hjob'.
      destruct (decide (r = r')) as [->|Hne].
      * rewrite list_lookup_alter_eq in Hjob'.
        destruct (objects s !! r') as [job|] eqn:Hjob; [|done].
        injection Hjob' as <-.
        destruct (handle_frame ev job) as (_ & -> & _). by eapply Hend.
      * rewrite list_lookup_alter_ne in Hjob' by done. by eapply Hend.
Qed.

Lemma invariant_run actions s s' : invariant s → run actions s = Some s' → invariant s'.
Proof.
  revert s. induction actions as [|a actions IH]; intros s Hinv; simpl.
  - by intros [= <-].
  - destruct (step a s) as [s1|] eqn:Hstep; [|done]. simpl.
    apply IH. by eapply invariant_step.
Qed.

Lemma reachable_invariant s : reachable s → invariant s.
Proof. intros (dirs & actions & Hrun). eapply invariant_run; [apply invariant_boot|done]. Qed.

Lemma reachable_run actions s s' : reachable s → run actions s = Some s' → reachable s'.
Proof.
  intros (dirs & before & Hbefore) Hrun. exists dirs, (before ++ actions).
  revert Hbefore. generalize (boot dirs).
  induction before as [|a before IH]; intros s0; simpl.
  - by intros [= ->].
  - destruct (step a s0); simpl; [apply IH|done].
Qed.

(** Over several steps a job object stays where it is. *)
Lemma run_objects actions s s' r job :
  run actions s = Some s' →
  objects s !! r = Some job →
  ∃ job', objects s' !! r = Some job'.
Proof.
  revert s job. induction actions as [|a actions IH]; intros s job; simpl.
  - intros [= <-] Hjob. eauto.
  - destruct (step a s) as [s1|] eqn:Hstep; [|done]. simpl.
    intros Hrun Hjob. eapply IH; [done|]. by eapply step_objects.
Qed.

(** * The job state machine: properties *)

(** C1, as stated, fails: a job that has completed is set to failed by a
    pack error delivered afterwards, and a job that has failed is set to
    completed by a pack completion delivered afterwards. *)
Lemma terminal_status_overwritten :
  ∃ s1 s2 s3 job1 job2 job3,
    run scenario_completed initial = Some s1
    ∧ objects s1 !! 0%nat = Some job1 ∧ status job1 = completed
    ∧ step (Deliver 0 (PackError (lit "timeout") None)) s1 = Some s2
    ∧ objects s2 !! 0%nat = Some job2 ∧ status job2 = failed
    ∧ step (Deliver 0 (Downloaded [Int 1])) s2 = Some s3
    ∧ objects s3 !! 0%nat = Some job3 ∧ status job3 = completed.
Proof.
  do 6 eexists. split_and!; vm_compute; reflexivity.
Qed.

Lemma handle_terminal ev job :
  terminal (status job) →
  terminal (status (handle ev job))
  ∧ (status (handle ev job) = status job
     ∨ (status (handle ev job) = failed
        ∧ ((∃ m st, ev = PackError m st) ∨ (∃ e, ev = StartRejected e)))
     ∨ (status (handle ev job) = completed
        ∧ ∃ success, ev = Downloaded success
            ∧ Set_size (Set_addAll success (completedPacks job))
              = Set_size (requestedPacks job))).
Proof.
  intros Hterm. destruct ev; simpl; try (split; [done|by left]).
  - split; [by right|]. right. left. eauto.
  - unfold onDownloaded. case_decide as Hsize; simpl.
    + split; [by left|]. right. right. eauto.
    + split; [done|by left].
  - split; [by right|]. right. left. eauto.
Qed.

(** Whatever the state, a step leaves a job that is completed or failed
    completed or failed, and leaves its end time as it is; the status
    changes only when the callback of a pack error or of a rejected start
    sets it to failed, or when the callback of a pack completion finds as
    many completed packs as requested packs and sets it to completed. *)
Lemma terminal_step a s s' r job :
  step a s = Some s' →
  objects s !! r = Some job →
  terminal (status job) →
  ∃ job',
    objects s' !! r = Some job'
    ∧ job' = evolve r a job
    ∧ terminal (status job')
    ∧ endTime job' = endTime job
    ∧ (status job' = status job
       ∨ (status job' = failed
          ∧ ((∃ m st, a = Deliver r (PackError m st))
             ∨ (∃ e, a = Deliver r (StartRejected e))))
       ∨ (status job' = completed
          ∧ ∃ success, a = Deliver r (Downloaded success)
              ∧ Set_size (completedPacks job') = Set_size (requestedPacks job'))).
Proof.
  intros Hstep Hjob Hterm. exists (evolve r a job).
  split; [by eapply step_objects|]. split; [done|].
  destruct (evolve_frame r a job) as (_ & Hend & _).
  split; [|split; [done|]]; destruct a as [|r' ev|]; simpl; try done; try (by left);
    case_decide as Hr; try done; try (by left); subst r'.
  - by apply handle_terminal.
  - destruct (handle_terminal ev job Hterm) as [_ [Hsame|[[Hf Hev]|[Hc Hev]]]].
    + by left.
    + right. left. split; [done|].
      destruct Hev as [(m & st & ->)|(e & ->)]; eauto.
    + right. right. split; [done|].
      destruct Hev as (success & -> & Hsize). exists success. split; [done|].
      simpl. unfold onDownloaded. simpl. case_decide; simpl; done.
Qed.

(** C2: the code breaks the claim, and its own check with it.  Two jobs
    run on one bot, the first for pack 1 and the second for pack 2, and the
    library reports pack 1 as downloaded to the handlers of both.  The
    handler of the second job adds the success list whole, so the job
    records pack 1, which it never requested, and its completed packs are
    not within its requested packs.  Under the comment "Check if all packs
    are completed" the handler then compares the sizes of the two sets
    only: the job is marked completed, and its snapshot reports that all of
    its 1 packs have been downloaded, while pack 2 has not been. *)
Theorem completedPacks_outside_requestedPacks :
  ∃ s job,
    run scenario_shared_bot initial = Some s
    ∧ reachable s
    ∧ objects s !! 1%nat = Some job
    ∧ lookupJob s (lit "job_1011121314151617") = Some job
    ∧ requestedPacks job = [Int 2]
    ∧ completedPacks job = [Int 1]
    ∧ ¬ (completedPacks job ++ failedPacks job ⊆ requestedPacks job)
    ∧ (Int 2 ∉ completedPacks job)
    ∧ status job = completed
    ∧ res_status (getDownloadStatus (lit "job_1011121314151617") s) = completed
    ∧ res_message (getDownloadStatus (lit "job_1011121314151617") s)
      = lit "Download completed: all 1 packs downloaded successfully".
Proof.
  exists (after scenario_shared_bot).
  eexists. split; [vm_compute; reflexivity|]. split; [|split; [vm_compute; reflexivity|]].
  - exists ∅, scenario_shared_bot. vm_compute. reflexivity.
  - split; [vm_compute; reflexivity|].
    do 2 (split; [reflexivity|]). split; [|split].
    + simpl. intros Hsub. specialize (Hsub (Int 1)).
      rewrite !list_elem_of_singleton in Hsub. by specialize (Hsub eq_refl).
    + simpl. by intros [=]%list_elem_of_singleton.
    + split; [reflexivity|]. split; vm_compute; reflexivity.
Qed.

Lemma evolve_completedPacks r a job x :
  x ∈ completedPacks (evolve r a job) ↔ x ∈ completedPacks job ∨ x ∈ carried r a.
Proof.
  destruct a as [|r' ev|]; simpl.
  - rewrite elem_of_nil. tauto.
  - case_decide as Hr;
      [destruct ev; simpl; rewrite ?elem_of_nil; try tauto
      |destruct ev; rewrite ?elem_of_nil; tauto].
    unfold onDownloaded. case_decide; simpl; apply Set_addAll_elem.
  - rewrite elem_of_nil. tauto.
Qed.

Lemma run_completedPacks actions s s' r job :
  run actions s = Some s' →
  objects s !! r = Some job →
  ∃ job', objects s' !! r = Some job'
    ∧ requestedPacks job' = requestedPacks job
    ∧ ∀ x, x ∈ completedPacks job' ↔ x ∈ completedPacks job ∨ x ∈ deliveredSuccess r actions.
Proof.
  revert s job. induction actions as [|a actions IH]; intros s job; simpl.
  - intros [= <-] Hjob. exists job. split; [done|]. split; [done|].
    intros x. unfold deliveredSuccess. simpl. rewrite elem_of_nil. tauto.
  - destruct (step a s) as [s1|] eqn:Hstep; [|done]. simpl.
    intros Hrun Hjob.
    destruct (IH s1 (evolve r a job) Hrun (step_objects _ _ _ _ _ Hstep Hjob))
      as (job' & Hjob' & Hreq & Hiff).
    exists job'. split; [done|]. split.
    + rewrite Hreq. by destruct (evolve_frame r a job) as (_ & _ & ->).
    + intros x. rewrite Hiff, evolve_completedPacks.
      unfold deliveredSuccess. simpl. rewrite elem_of_app. tauto.
Qed.

(** Along every run of the process, from a state the process can be in, a
    job keeps its requested packs, its completed packs only grow and its
    failed packs stay empty.  The completed packs are the earlier ones
    together with every number of every success list delivered to the job
    in between. *)
Lemma packs_grow actions s s' r job :
  reachable s →
  run actions s = Some s' →
  objects s !! r = Some job →
  ∃ job',
    objects s' !! r = Some job'
    ∧ requestedPacks job' = requestedPacks job
    ∧ completedPacks job ⊆ completedPacks job'
    ∧ failedPacks job = [] ∧ failedPacks job' = []
    ∧ (∀ x, x ∈ completedPacks job' → x ∉ failedPacks job')
    ∧ (∀ x, x ∈ completedPacks job'
            ↔ x ∈ completedPacks job ∨ x ∈ deliveredSuccess r actions).
Proof.
  intros Hreach Hrun Hjob.
  destruct (run_completedPacks _ _ _ _ _ Hrun Hjob) as (job' & Hjob' & Hreq & Hiff).
  pose proof (inv_failedPacks _ (reachable_invariant _ Hreach) _ _ Hjob) as Hfailed.
  pose proof (inv_failedPacks _ (reachable_invariant _ (reachable_run _ _ _ Hreach Hrun))
                _ _ Hjob') as Hfailed'.
  exists job'. rewrite Hfailed, Hfailed', Hreq.
  repeat split; try done.
  - intros x Hx. apply Hiff. by left.
  - intros x _. apply not_elem_of_nil.
  - by apply Hiff.
  - by apply Hiff.
Qed.

(** No step of the process assigns [endTime]. *)
Lemma endTime_never_set s r job :
  reachable s → objects s !! r = Some job → endTime job = None.
Proof. intros Hreach. apply inv_endTime, reachable_invariant, Hreach. Qed.

(** C3: the code leaves [endTime] unset when a job leaves [in_progress].
    After a pack error the job is failed and has no end time, and its
    status snapshot reports none; after its only pack has completed the job
    is completed and has no end time either. *)
Theorem endTime_unset_after_leaving_in_progress :
  ∃ s1 job1 s2 job2,
    run (scenario_wired ++ [Deliver 0 (PackError (lit "timeout") None)]) initial = Some s1
    ∧ objects s1 !! 0%nat = Some job1
    ∧ status job1 = failed
    ∧ endTime job1 = None
    ∧ res_status (getDownloadStatus (id job1) s1) = failed
    ∧ res_endTime (getDownloadStatus (id job1) s1) = None
    ∧ run scenario_completed initial = Some s2
    ∧ objects s2 !! 0%nat = Some job2
    ∧ status job2 = completed
    ∧ endTime job2 = None.
Proof.
  exists (after (scenario_wired ++ [Deliver 0 (PackError (lit "timeout") None)])),
         (onError (lit "timeout") None job_1_in_progress),
         (after scenario_completed), job_1_completed.
  do 9 (split; [vm_compute; reflexivity|]). reflexivity.
Qed.

(** C9: no job the process can hold has a failed pack, so the snapshot of a
    job reports none; the callback of a pack error appends the error and
    sets the status to failed, and leaves the failed packs as they are, as
    every callback does. *)
Theorem failedPacks_always_empty s :
  reachable s →
  (∀ r job, objects s !! r = Some job → failedPacks job = [])
  ∧ (∀ job_id, res_failedPacks (getDownloadStatus job_id s) = [])
  ∧ (∀ errorMessage stack_ job,
       failedPacks (onError errorMessage stack_ job) = failedPacks job
       ∧ errors (onError errorMessage stack_ job)
         = errors job ++ [{| message := errorMessage; stack := stack_ |}]
       ∧ status (onError errorMessage stack_ job) = failed)
  ∧ (∀ ev job, failedPacks (handle ev job) = failedPacks job).
Proof.
  intros Hreach. pose proof (reachable_invariant _ Hreach) as Hinv.
  split; [apply Hinv|]. split; [|split; [done|intros; apply handle_frame]].
  intros job_id. unfold getDownloadStatus, lookupJob.
  destruct (downloadJobs s !! job_id) as [r|]; simpl; [|done].
  destruct (objects s !! r) as [job|] eqn:Hjob; simpl; [|done].
  by eapply (inv_failedPacks _ Hinv).
Qed.

Lemma failedPacks_always_empty_witness :
  ∃ s job,
    reachable s
    ∧ objects s !! 0%nat = Some job
    ∧ status job = failed
    ∧ failedPacks job = []
    ∧ res_failedPacks (getDownloadStatus (lit "job_00010203040506ff") s) = [].
Proof.
  pose (s := after (scenario_wired ++ [Deliver 0 (PackError (lit "timeout") None)])).
  assert (reachable s) as Hreach.
  { exists ∅, (scenario_wired ++ [Deliver 0 (PackError (lit "timeout") None)]).
    vm_compute. reflexivity. }
  destruct (failedPacks_always_empty s Hreach) as (Hobjects & Hsnapshot & _).
  exists s. eexists. split; [exact Hreach|].
  assert (objects s !! 0%nat
          = Some (onError (lit "timeout") None job_1_in_progress)) as Hjob
    by (vm_compute; reflexivity).
  split; [exact Hjob|]. split; [reflexivity|].
  split; [exact (Hobjects _ _ Hjob)|apply Hsnapshot].
Defined.

(** * The status projector: properties *)

(** C5: for an id that the registry does not hold, [getDownloadStatus]
    returns a snapshot, with status failed, a message that contains the id,
    no completed packs, no failed packs, progress 0% and no errors. *)
Theorem unknown_job_reported job_id s :
  downloadJobs s !! job_id = None →
  getDownloadStatus job_id s
  = {| res_job_id := job_id; res_status := failed;
       res_completedPacks := []; res_failedPacks := [];
       res_progress := lit "0%";
       res_message := lit "Download job with ID " ++ job_id ++ lit " not found";
       res_errors := []; res_startTime := None; res_endTime := None |}
  ∧ contains job_id (res_message (getDownloadStatus job_id s)).
Proof.
  intros Hnone. unfold getDownloadStatus, lookupJob. rewrite Hnone. simpl.
  split; [done|]. by exists (lit "Download job with ID "), (lit " not found").
Qed.

Lemma unknown_job_reported_witness :
  res_status (getDownloadStatus (lit "job_doesnotexist") (after scenario_completed)) = failed
  ∧ contains (lit "job_doesnotexist")
      (res_message (getDownloadStatus (lit "job_doesnotexist") (after scenario_completed))).
Proof.
  destruct (unknown_job_reported (lit "job_doesnotexist") (after scenario_completed))
    as [Hsnapshot Hmessage].
  - vm_compute. reflexivity.
  - rewrite Hsnapshot at 1. split; [reflexivity|exact Hmessage].
Defined.

(** * The connection pool and the initiator: properties *)

(** C7: after a connection was acquired for a host and a port, acquiring
    one for the same host and port, whatever the nickname and the download
    path, returns that connection and leaves the whole state, the pool and
    the directories with it, as it is; the pool holds the connection under
    the key and has not grown.  A connection the first call created carries
    the first nickname and path, and a first call that finds its directory
    leaves the directories as they are.  The first call returns whenever
    the pool has the connection, or the directory exists or can be made;
    the one way it does not return is that the directory cannot be made,
    and then nothing is pooled and the state is as it was. *)
Theorem getXdccConnection_idempotent h p nickname1 path1 nickname2 path2 s :
  let s1 := (getXdccConnection h p nickname1 path1 s).2 in
  match (getXdccConnection h p nickname1 path1 s).1 with
  | Returns xdcc1 =>
      getXdccConnection h p nickname2 path2 s1 = (Returns xdcc1, s1)
      ∧ ircConnections s1 !! connectionKey h p = Some xdcc1
      ∧ size (ircConnections (getXdccConnection h p nickname2 path2 s1).2)
        = size (ircConnections s1)
      ∧ (ircConnections s !! connectionKey h p = None →
         xdcc1 = {| xdcc_host := h; xdcc_port := p; xdcc_nickname := nickname1;
                    xdcc_path := path1; xdcc_joined := [] |})
      ∧ (path1 ∈ directories s → directories s1 = directories s)
      ∧ (is_Some (ircConnections s !! connectionKey h p) → s1 = s)
  | Throws _ => False
  | Raises x =>
      x = SystemError path1 ∧ s1 = s
      ∧ ircConnections s !! connectionKey h p = None
      ∧ (path1 = [] ∨ ((path1 ∉ directories s) ∧ path1 ∈ refused s))
  end
  ∧ (is_Some (ircConnections s !! connectionKey h p)
     ∨ (path1 ≠ [] ∧ (path1 ∈ directories s ∨ path1 ∉ refused s)) →
     ∃ xdcc1, (getXdccConnection h p nickname1 path1 s).1 = Returns xdcc1).
Proof.
  intros s1. subst s1.
  pose proof (getXdccConnection_cases h p nickname1 path1 s) as Hcases.
  simpl in Hcases.
  assert (∀ xdcc1 s1,
            getXdccConnection h p nickname1 path1 s = (Returns xdcc1, s1) →
            getXdccConnection h p nickname2 path2 s1 = (Returns xdcc1, s1)) as Hsecond.
  { intros xdcc1 s1 Hpool%getXdccConnection_pooled.
    unfold getXdccConnection. by rewrite Hpool. }
  destruct (ircConnections s !! connectionKey h p) as [pooled_|] eqn:Hpool.
  - rewrite Hcases. simpl. split; [|by eauto].
    rewrite (Hsecond _ _ Hcases). split_and!; done.
  - destruct (decide (path1 ≠ [] ∧ path1 ∈ directories s)) as [[Hne Hdir]|Hnot].
    { rewrite Hcases. simpl. split; [|by eauto].
      rewrite (Hsecond _ _ Hcases). split_and!; try done.
      apply lookup_insert_eq. }
    destruct (decide (path1 = [] ∨ path1 ∈ refused s)) as [Href|Hok].
    + rewrite Hcases. simpl. split.
      * split_and!; try done. destruct Href as [->|Href]; [by left|].
        destruct (decide (path1 = [])) as [->|Hne]; [by left|].
        right. split; [|done]. intros Hdir. by apply Hnot.
      * intros [[? ?]|[Hne [Hdir|Hfree]]]; [done|by destruct Hnot|].
        destruct Href as [->|Href]; done.
    + rewrite Hcases. simpl. split; [|by eauto].
      rewrite (Hsecond _ _ Hcases). split_and!; try done.
      * apply lookup_insert_eq.
      * intros Hdir. destruct (decide (path1 = [])) as [->|Hne]; [|by destruct Hnot].
        destruct Hok. by left.
Qed.

(** The [.catch] callback of a job whose start is pending runs, whatever
    the state of the job, and fails the job. *)
Lemma start_rejected_fails_job r error s job :
  r ∈ starting s →
  objects s !! r = Some job →
  ∃ s', step (Deliver r (StartRejected error)) s = Some s'
        ∧ objects s' !! r = Some (onStartRejected error job)
        ∧ status (onStartRejected error job) = failed
        ∧ errors (onStartRejected error job) = errors job ++ [error].
Proof.
  intros Hstarting Hjob. simpl. rewrite decide_True by done.
  eexists. split; [reflexivity|]. simpl.
  rewrite list_lookup_alter_eq, Hjob. by destruct error.
Qed.

(** C8: a call of [initiateDownload] that returns gives the id of the new
    job, a message and the status [in_progress]; the job is registered
    under the id, in progress and without errors, and its transfer has not
    started: only its timer is pending.  When the timer then fires and the
    start is rejected, both callbacks run to their end, and the registered
    job is failed with the error in its log; more generally a rejected
    start, whenever it is delivered, fails the job and appends the error. *)
Theorem initiate_returns_before_start params randomBytes now s response s1 error :
  reachable s →
  initiateDownload params randomBytes now s = (Returns response, s1) →
  let r := length (objects s) in
  out_job_id response = generateJobId randomBytes
  ∧ out_status response = in_progress
  ∧ (∃ job, lookupJob s1 (out_job_id response) = Some job
            ∧ objects s1 !! r = Some job
            ∧ status job = in_progress ∧ errors job = [])
  ∧ r ∈ timers s1 ∧ (r ∉ starting s1) ∧ (r ∉ wired s1)
  ∧ (∃ s2 s3 job3,
       step (Deliver r TimerFired) s1 = Some s2
       ∧ step (Deliver r (StartRejected error)) s2 = Some s3
       ∧ lookupJob s3 (out_job_id response) = Some job3
       ∧ status job3 = failed
       ∧ errors job3 = [error])
  ∧ (∀ s2 job2,
       r ∈ starting s2 → objects s2 !! r = Some job2 →
       ∃ s3 job3,
         step (Deliver r (StartRejected error)) s2 = Some s3
         ∧ objects s3 !! r = Some job3
         ∧ status job3 = failed
         ∧ errors job3 = errors job2 ++ [error]).
Proof.
  intros Hreach Hcall r. pose proof (reachable_invariant _ Hreach) as Hinv.
  apply initiateDownload_returns in Hcall
    as (job & requested & Hobjects & Hjobs & Htimers & Hstarting & Hwired & -> & _ & _ & Hjob).
  assert (objects s1 !! r = Some job) as Hr
    by (rewrite Hobjects; apply list_lookup_middle; done).
  assert (lookupJob s1 (generateJobId randomBytes) = Some job) as Hlookup.
  { unfold lookupJob. rewrite Hjobs, lookup_insert_eq. exact Hr. }
  simpl. split; [done|]. split; [done|]. split.
  { exists job. rewrite Hjob at 3 4. done. }
  split; [rewrite Htimers; apply elem_of_app; right; left|].
  split.
  { rewrite Hstarting. intros Hin%(inv_starting _ Hinv). unfold r in Hin. lia. }
  split.
  { rewrite Hwired. intros Hin%(inv_wired _ Hinv). unfold r in Hin. lia. }
  split.
  - rewrite decide_True by (rewrite Htimers; apply elem_of_app; right; left).
    eexists _, _, _. split; [reflexivity|]. simpl.
    rewrite decide_True by (apply elem_of_app; right; left).
    split; [reflexivity|]. unfold lookupJob. simpl.
    rewrite Hjobs, lookup_insert_eq. simpl.
    rewrite list_lookup_alter_eq, Hr. simpl.
    split; [reflexivity|]. split; [done|]. rewrite Hjob. by destruct error.
  - intros s2 job2 Hin Hjob2.
    destruct (start_rejected_fails_job r error s2 job2 Hin Hjob2)
      as (s3 & Hstep & Hjob3 & Hstatus & Herrors).
    by exists s3, (onStartRejected error job2).
Qed.

Lemma initiate_returns_before_start_witness :
  ∃ response s1 s3 job3,
    initiateDownload (request "1-2") bytes1 now1 initial = (Returns response, s1)
    ∧ out_status response = in_progress
    ∧ run [Deliver 0 TimerFired;
           Deliver 0 (StartRejected {| message := lit "no such bot"; stack := None |})] s1
      = Some s3
    ∧ lookupJob s3 (out_job_id response) = Some job3
    ∧ status job3 = failed
    ∧ errors job3 = [{| message := lit "no such bot"; stack := None |}].
Proof.
  pose (call := initiateDownload (request "1-2") bytes1 now1 initial).
  pose (response := {| out_job_id := lit "job_00010203040506ff";
                       out_message := lit "Download started for 2 file(s)";
                       out_status := in_progress |}).
  assert (reachable initial) as Hreach by (by exists ∅, []).
  assert (initiateDownload (request "1-2") bytes1 now1 initial
          = (Returns response, call.2)) as Hcall by (vm_compute; reflexivity).
  destruct (initiate_returns_before_start _ _ _ _ _ _
              {| message := lit "no such bot"; stack := None |} Hreach Hcall)
    as (_ & Hstatus & _ & _ & _ & _ & (s2 & s3 & job3 & Hs2 & Hs3 & Hjob3 & Hfailed & Herrors) & _).
  exists response, call.2, s3, job3.
  split; [exact Hcall|]. split; [exact Hstatus|].
  split; [|split_and!; assumption]. cbn [run length objects initial boot] in *.
  rewrite Hs2. cbn [mbind option_bind]. rewrite Hs3. reflexivity.
Defined.

(** * The progress percentage *)

Lemma agrees_upto_500 : agrees_upto 500 = true.
Proof. vm_compute. reflexivity. Qed.

Lemma progressPercent_percentZ (c r : nat) :
  (0 < r)%nat → progressPercent c r = percentZ (Z.of_nat c) (Z.of_nat r).
Proof. intros Hr. unfold progressPercent. by rewrite decide_True. Qed.

Lemma agrees_upto_sound (n c r : Z) :
  agrees_upto n = true → 0 ≤ c ≤ r → 1 ≤ r ≤ n → agrees c r = true.
Proof.
  unfold agrees_upto. intros Hall Hc Hr.
  rewrite forallb_forall in Hall.
  specialize (Hall r). rewrite forallb_forall in Hall.
  apply Hall; apply list_elem_of_In, elem_of_seqZ; lia.
Qed.

Lemma agrees_in_range (c r : nat) :
  (c ≤ r)%nat → (0 < r ≤ 500)%nat → agrees (Z.of_nat c) (Z.of_nat r) = true.
Proof.
  intros Hc Hr. apply (agrees_upto_sound 500); [exact agrees_upto_500|lia|lia].
Qed.

(** C6, as stated, fails: with 23 of 40 packs completed the quotient is
    computed first and falls below 0.575, so 57% is reported where
    [100 * 23 / 40] is 57.5 and rounds to 58. *)
Lemma progress_23_of_40 :
  ∃ s job,
    reachable s
    ∧ lookupJob s (lit "job_00010203040506ff") = Some job
    ∧ Set_size (requestedPacks job) = 40%nat
    ∧ Set_size (completedPacks job) = 23%nat
    ∧ progressPercent 23 40 = Some 57
    ∧ res_progress (getDownloadStatus (lit "job_00010203040506ff") s) = lit "57% (23/40)"
    ∧ spec_progressPercent 23 40 = 58
    ∧ spec_progressPercent_even 23 40 = 58.
Proof.
  exists (after scenario_23_of_40). eexists.
  split; [exists ∅, scenario_23_of_40; vm_compute; reflexivity|].
  split; [vm_compute; reflexivity|].
  split_and!; vm_compute; reflexivity.
Qed.

(** C6, amended: the snapshot of a registered job reports
    [Math.round((completed / requested) * 100)], computed on doubles with
    the division first, and 0 when nothing is requested.  For up to 500
    requested packs, of which no more are completed, this is an integer
    nearest to [100 * completed / requested]; it is the percentage of the
    specification below 40 requested packs, and beyond that a value that
    lies halfway may be reported as the integer below.  With 1 of 4 packs
    completed the report is 25%, and the message of the job in progress
    contains "1/4". *)
Theorem progress_report job_id s job :
  lookupJob s job_id = Some job →
  let c := Set_size (completedPacks job) in
  let r := Set_size (requestedPacks job) in
  res_progress (getDownloadStatus job_id s)
  = showPercent c r ++ lit "% (" ++ showNat c ++ lit "/" ++ showNat r ++ lit ")"
  ∧ (r = 0%nat → progressPercent c r = Some 0)
  ∧ ((0 < r)%nat → progressPercent c r = Math_round (ratio c r))
  ∧ ((c ≤ r ≤ 500)%nat →
     ∃ p, progressPercent c r = Some p
          ∧ showPercent c r = showZ p
          ∧ nearestPercent c r p
          ∧ ((r < 40)%nat → p = spec_progressPercent c r))
  ∧ (c = 1%nat → r = 4%nat →
     progressPercent c r = Some 25
     ∧ res_progress (getDownloadStatus job_id s) = lit "25% (1/4)"
     ∧ (status job = in_progress →
        res_message (getDownloadStatus job_id s)
        = lit "Download in progress: 1/4 packs completed (25%)"
        ∧ contains (lit "1/4") (res_message (getDownloadStatus job_id s)))).
Proof.
  intros Hjob c r.
  assert (res_progress (getDownloadStatus job_id s)
          = showPercent c r ++ lit "% (" ++ showNat c ++ lit "/" ++ showNat r ++ lit ")")
    as Hprogress by (unfold getDownloadStatus; by rewrite Hjob).
  split; [exact Hprogress|]. split; [|split; [|split]].
  - intros Hr. unfold progressPercent. by rewrite decide_False by lia.
  - intros Hr. unfold progressPercent. by rewrite decide_True.
  - intros [Hc Hr]. destruct (decide (r = 0%nat)) as [Hzero|Hpos].
    + exists 0. assert (c = 0%nat) as Hc0 by lia.
      unfold showPercent, progressPercent, nearestPercent, spec_progressPercent.
      rewrite Hzero, Hc0. simpl. done.
    + pose proof (agrees_in_range c r Hc ltac:(lia)) as Hagree.
      unfold agrees in Hagree.
      rewrite <- progressPercent_percentZ in Hagree by lia.
      unfold showPercent.
      destruct (progressPercent c r) as [p|]; [|done].
      apply andb_true_iff in Hagree as [Hnear Hspec].
      exists p. split; [done|]. split; [done|]. split.
      * unfold nearestPercent. by apply Z.leb_le.
      * intros Hsmall. unfold spec_progressPercent.
        rewrite decide_False by done.
        destruct (Z.ltb_spec (Z.of_nat r) 40) as [_|Hge]; [|lia].
        by apply Z.eqb_eq.
  - intros Hc Hr.
    assert (progressPercent c r = Some 25) as Hpercent
      by (rewrite Hc, Hr; vm_compute; reflexivity).
    split; [exact Hpercent|]. split.
    + rewrite Hprogress. unfold showPercent. rewrite Hpercent, Hc, Hr.
      vm_compute. reflexivity.
    + intros Hstatus.
      assert (res_message (getDownloadStatus job_id s)
              = lit "Download in progress: 1/4 packs completed (25%)") as ->.
      { unfold getDownloadStatus. rewrite Hjob. simpl.
        unfold statusMessage. rewrite Hstatus.
        fold c r. unfold showPercent. rewrite Hpercent, Hc, Hr.
        vm_compute. reflexivity. }
      split; [done|].
      by exists (lit "Download in progress: "), (lit " packs completed (25%)").
Qed.

Lemma progress_report_witness :
  ∃ s,
    reachable s
    ∧ lookupJob s (lit "job_00010203040506ff") = Some job_1_of_4
    ∧ res_progress (getDownloadStatus (lit "job_00010203040506ff") s) = lit "25% (1/4)"
    ∧ contains (lit "1/4") (res_message (getDownloadStatus (lit "job_00010203040506ff") s)).
Proof.
  pose (s := after scenario_1_of_4).
  assert (reachable s) as Hreach
    by (exists ∅, scenario_1_of_4; vm_compute; reflexivity).
  assert (lookupJob s (lit "job_00010203040506ff") = Some job_1_of_4) as Hjob
    by (vm_compute; reflexivity).
  destruct (progress_report _ _ _ Hjob) as (_ & _ & _ & _ & Hquarter).
  destruct (Hquarter eq_refl eq_refl) as (_ & Hprogress & Hmessage).
  destruct (Hmessage eq_refl) as [_ Hcontains].
  exists s. split_and!; assumption.
Defined.

(** * Decimal numerals *)

Lemma lit_String c s : lit (String c s) = N_of_ascii c :: lit s.
Proof. reflexivity. Qed.

Lemma lit_inj s1 s2 : lit s1 = lit s2 → s1 = s2.
Proof.
  revert s2. induction s1 as [|c1 s1 IH]; intros [|c2 s2]; try done.
  rewrite !lit_String. intros [= Hc Hs].
  f_equal; [|by apply IH].
  by rewrite <- (ascii_N_embedding c1), <- (ascii_N_embedding c2), Hc.
Qed.

Lemma pretty_N_char_code m : (m < 10)%N → N_of_ascii (pretty_N_char m) = (48 + m)%N.
Proof.
  intros Hm.
  assert (m = 0 ∨ m = 1 ∨ m = 2 ∨ m = 3 ∨ m = 4 ∨ m = 5 ∨ m = 6 ∨ m = 7
          ∨ m = 8 ∨ m = 9)%N as Hcases by lia.
  repeat (destruct Hcases as [->|Hcases]; [reflexivity|]). by subst.
Qed.

Lemma digitsValue_snoc ds d :
  digitsValue (ds ++ [d]) = 10 * digitsValue ds + (Z.of_N d - 48).
Proof. unfold digitsValue. by rewrite foldl_snoc. Qed.

Lemma digitsValue_nonneg ds :
  Forall (λ c, isDigit c = true) ds → 0 ≤ digitsValue ds.
Proof.
  induction ds as [|d ds IH] using rev_ind; [done|].
  intros Hall. apply Forall_app in Hall as [Hds Hd].
  rewrite Forall_singleton in Hd.
  rewrite digitsValue_snoc. apply isDigit_bounds in Hd. specialize (IH Hds). lia.
Qed.

(** The numeral of [x] in front of [s]: digits whose value is [x]. *)
Lemma pretty_N_go_digits x s :
  ∃ ds, lit (pretty_N_go x s) = ds ++ lit s
        ∧ Forall (λ c, isDigit c = true) ds
        ∧ digitsValue ds = Z.of_N x
        ∧ ((0 < x)%N → ds ≠ []).
Proof.
  revert s. induction (N.lt_wf_0 x) as [x _ IH]. intros s.
  destruct (decide (x = 0%N)) as [->|Hpos].
  - exists []. rewrite pretty_N_go_0. split_and!; [done|done|done|lia].
  - rewrite pretty_N_go_step by lia.
    assert (x `div` 10 < x)%N as Hless by (apply N.div_lt; lia).
    destruct (IH (x `div` 10)%N Hless (String (pretty_N_char (x `mod` 10)) s))
      as (ds & Hlit & Hds & Hvalue & _).
    assert (x `mod` 10 < 10)%N as Hmod by (apply N.mod_lt; lia).
    exists (ds ++ [(48 + x `mod` 10)%N]).
    rewrite Hlit, lit_String, pretty_N_char_code by done.
    split_and!.
    + by rewrite <- app_assoc.
    + apply Forall_app. split; [done|]. rewrite Forall_singleton, isDigit_bounds.
      clear -Hmod. revert Hmod. generalize (x `mod` 10)%N. intros m Hm. lia.
    + rewrite digitsValue_snoc, Hvalue.
      pose proof (N.div_mod x 10 ltac:(lia)). lia.
    + intros _. by destruct ds.
Qed.

(** The numeral of a natural number. *)
Lemma showZ_digits z :
  0 ≤ z →
  Forall (λ c, isDigit c = true) (showZ z) ∧ showZ z ≠ [] ∧ digitsValue (showZ z) = z.
Proof.
  intros Hz. destruct z as [|p|p]; [by repeat constructor| |lia].
  unfold showZ, pretty, pretty_Z, pretty, pretty_positive, pretty, pretty_N.
  rewrite decide_False by done.
  destruct (pretty_N_go_digits (N.pos p) "") as (ds & -> & Hds & Hvalue & Hne).
  change (lit "") with (@nil N). rewrite app_nil_r.
  split_and!; [done|by apply Hne|by rewrite Hvalue].
Qed.

Lemma showNat_showZ n : showNat n = showZ (Z.of_nat n).
Proof.
  destruct n as [|n]; reflexivity.
Qed.

Lemma parseInt_digits ds rest :
  ds ≠ [] →
  Forall (λ c, isDigit c = true) ds →
  startsWithDigit rest = false →
  parseInt (ds ++ rest) = roundToDouble (digitsValue ds).
Proof.
  intros Hne Hds Hrest. unfold parseInt.
  destruct ds as [|d ds]; [done|].
  pose proof (Forall_inv Hds) as Hd. simpl in Hd.
  simpl. rewrite (digit_not_whiteSpace d Hd).
  apply isDigit_bounds in Hd as Hbounds.
  destruct (N.eqb_spec d dash) as [->|_]; [unfold dash in Hbounds; lia|].
  destruct (N.eqb_spec d plus) as [->|_]; [unfold plus in Hbounds; lia|].
  rewrite app_comm_cons, takeWhile_app_stop; [|by destruct rest|done].
  f_equal. lia.
Qed.

(** Reading the decimal numeral of an integer gives the double nearest to
    the integer: the integer itself, when it is a safe one. *)
Lemma parseInt_showZ z : parseInt (showZ z) = roundToDouble z.
Proof.
  destruct (decide (0 ≤ z)) as [Hz|Hz].
  - destruct (showZ_digits z Hz) as (Hds & Hne & Hvalue).
    rewrite <- (app_nil_r (showZ z)), parseInt_digits by done. by rewrite Hvalue.
  - destruct z as [|p|p]; [lia|lia|].
    destruct (showZ_digits (Z.pos p) ltac:(lia)) as (Hds & Hne & Hvalue).
    change (showZ (Z.neg p)) with (dash :: showZ (Z.pos p)).
    unfold parseInt. simpl dropWhile.
    change (isWhiteSpace dash) with false. cbv iota. rewrite N.eqb_refl.
    rewrite <- (app_nil_r (showZ (Z.pos p))), takeWhile_app_stop by done.
    destruct (showZ (Z.pos p)) eqn:Hshow; [done|]. f_equal. lia.
Qed.

(** * The pack range expander: further properties *)

Lemma takeWhile_Forall {A} (p : A → bool) (l : list A) :
  Forall (λ x, p x = true) (takeWhile p l).
Proof.
  induction l as [|x l IH]; simpl; [done|].
  destruct (p x) eqn:Hx; [by constructor|done].
Qed.

Lemma dropWhile_app_all {A} (p : A → bool) (k l : list A) :
  Forall (λ x, p x = true) k → dropWhile p (k ++ l) = dropWhile p l.
Proof. induction 1 as [|x k Hx _ IH]; simpl; [done|]. by rewrite Hx. Qed.

Lemma dropWhile_app_tail {A} (p : A → bool) (l w : list A) :
  Forall (λ x, p x = true) w →
  ∃ w', dropWhile p (l ++ w) = dropWhile p l ++ w' ∧ Forall (λ x, p x = true) w'.
Proof.
  intros Hw. induction l as [|x l IH]; simpl.
  - exists []. split; [|done].
    rewrite <- (app_nil_r w) at 1. by rewrite dropWhile_app_all.
  - destruct (p x); [done|]. by exists w.
Qed.

Lemma split_nonempty sep (s : jsstring) : split sep s ≠ [].
Proof.
  destruct s as [|c s]; simpl; [done|].
  destruct (c =? sep)%N; [done|]. by destruct (split sep s).
Qed.

Lemma split_app_sep sep (s1 s2 : jsstring) :
  split sep (s1 ++ sep :: s2) = split sep s1 ++ split sep s2.
Proof.
  induction s1 as [|c s1 IH]; simpl.
  - by rewrite N.eqb_refl.
  - rewrite IH. destruct (c =? sep)%N; [done|].
    pose proof (split_nonempty sep s1). by destruct (split sep s1).
Qed.

Lemma split_pieces sep (s piece : jsstring) : piece ∈ split sep s → sep ∉ piece.
Proof.
  revert piece. induction s as [|c s IH]; simpl; intros piece.
  - intros ->%list_elem_of_singleton. apply not_elem_of_nil.
  - destruct (N.eqb_spec c sep) as [->|Hne].
    + intros [->|Hin]%elem_of_cons; [apply not_elem_of_nil|by apply IH].
    + pose proof (split_nonempty sep s).
      destruct (split sep s) as [|p ps]; [done|].
      intros [->|Hin]%elem_of_cons.
      * apply not_elem_of_cons. split; [done|]. apply IH. left.
      * apply IH. by right.
Qed.

Lemma split_prefix sep (k s : jsstring) :
  sep ∉ k →
  ∃ p ps, split sep s = p :: ps ∧ split sep (k ++ s) = (k ++ p) :: ps.
Proof.
  intros Hk. induction k as [|c k IH]; simpl.
  - pose proof (split_nonempty sep s). destruct (split sep s) as [|p ps]; [done|].
    by exists p, ps.
  - apply not_elem_of_cons in Hk as [Hc Hk].
    destruct (IH Hk) as (p & ps & Hs & ->).
    destruct (N.eqb_spec c sep) as [->|_]; [done|]. by exists p, ps.
Qed.

Lemma split_suffix sep (s w : jsstring) :
  sep ∉ w →
  ∃ front p, split sep s = front ++ [p] ∧ split sep (s ++ w) = front ++ [p ++ w].
Proof.
  intros Hw. induction s as [|c s (front & p & Hs & Hsw)]; simpl.
  - exists [], []. by rewrite split_without.
  - rewrite Hs, Hsw. destruct (c =? sep)%N.
    + by exists ([] :: front), p.
    + destruct front as [|q front]; simpl.
      * by exists [], (c :: p).
      * by exists ((c :: q) :: front), p.
Qed.

Lemma whiteSpace_not_comma c : isWhiteSpace c = true → c ≠ comma.
Proof. intros Hws ->. vm_compute in Hws. discriminate. Qed.

Lemma whiteSpace_without_comma (w : jsstring) :
  Forall (λ c, isWhiteSpace c = true) w → comma ∉ w.
Proof.
  intros Hw Hin. rewrite Forall_forall in Hw.
  by apply (whiteSpace_not_comma comma (Hw _ Hin)).
Qed.

(** White space around a string does not show in its trimmed form. *)
Lemma trim_pad (k t w : jsstring) :
  Forall (λ c, isWhiteSpace c = true) k →
  Forall (λ c, isWhiteSpace c = true) w →
  trim (k ++ t ++ w) = trim t.
Proof.
  intros Hk Hw. unfold trim. rewrite dropWhile_app_all by done.
  destruct (dropWhile_app_tail isWhiteSpace t w Hw) as (w' & -> & Hw').
  rewrite reverse_app. rewrite dropWhile_app_all; [done|].
  by apply Forall_reverse.
Qed.

Lemma expandPart_pad (k t w : jsstring) :
  Forall (λ c, isWhiteSpace c = true) k →
  Forall (λ c, isWhiteSpace c = true) w →
  expandPart (k ++ t ++ w) = expandPart t.
Proof. intros Hk Hw. unfold expandPart. by rewrite trim_pad. Qed.

Lemma expandPacks_pad_left (k s : jsstring) :
  Forall (λ c, isWhiteSpace c = true) k → expandPacks (k ++ s) = expandPacks s.
Proof.
  intros Hk. unfold expandPacks.
  destruct (split_prefix comma k s (whiteSpace_without_comma k Hk)) as (p & ps & -> & ->).
  assert (expandPart (k ++ p) = expandPart p) as Hpad
    by (rewrite <- (app_nil_r p) at 1; by apply expandPart_pad).
  simpl. by rewrite Hpad.
Qed.

Lemma expandPacks_pad_right (s w : jsstring) :
  Forall (λ c, isWhiteSpace c = true) w → expandPacks (s ++ w) = expandPacks s.
Proof.
  intros Hw. unfold expandPacks.
  destruct (split_suffix comma s w (whiteSpace_without_comma w Hw)) as (front & p & -> & ->).
  assert (expandPart (p ++ w) = expandPart p) as Hpad by (by apply (expandPart_pad [])).
  rewrite !flatMap_app. simpl. by rewrite Hpad.
Qed.

Lemma trim_between (t : jsstring) :
  ∃ k w, t = k ++ trim t ++ w
         ∧ Forall (λ c, isWhiteSpace c = true) k
         ∧ Forall (λ c, isWhiteSpace c = true) w.
Proof.
  destruct (dropWhile_suffix isWhiteSpace t) as (k & Hk & Hall).
  destruct (trim_decompose t) as (w & Hdrop & Hw & _).
  exists k, w. split; [|done]. by rewrite <- Hdrop.
Qed.

Lemma Set_new_elem (l : list number) x : x ∈ Set_new l ↔ x ∈ l.
Proof. unfold Set_new. rewrite Set_addAll_elem, elem_of_nil. tauto. Qed.

Lemma Set_addAll_app_NoDup (l acc : list number) :
  NoDup (acc ++ l) → Set_addAll l acc = acc ++ l.
Proof.
  unfold Set_addAll. revert acc. induction l as [|x l IH]; intros acc Hnd; simpl.
  - by rewrite app_nil_r.
  - assert (Set_add x acc = acc ++ [x]) as ->.
    { unfold Set_add. rewrite decide_False; [done|].
      apply NoDup_app in Hnd as (_ & Hdisj & _). intros Hin.
      apply (Hdisj x Hin). left. }
    rewrite IH; rewrite <- app_assoc; done.
Qed.

Lemma Set_new_NoDup_id (l : list number) : NoDup l → Set_new l = l.
Proof. intros Hnd. unfold Set_new. by rewrite Set_addAll_app_NoDup. Qed.

Lemma trim_no_whiteSpace (t : jsstring) :
  Forall (λ c, isWhiteSpace c = false) t → trim t = t.
Proof.
  intros Ht. unfold trim.
  rewrite (dropWhile_none isWhiteSpace t) by (by destruct Ht).
  rewrite dropWhile_none, reverse_involutive; [done|].
  apply Forall_reverse in Ht. by destruct Ht.
Qed.

Lemma digits_no_whiteSpace (ds : jsstring) :
  Forall (λ c, isDigit c = true) ds → Forall (λ c, isWhiteSpace c = false) ds.
Proof.
  intros Hds. eapply Forall_impl; [exact Hds|]. intros c. apply digit_not_whiteSpace.
Qed.

Lemma includes_spec c (t : jsstring) : includes c t = true ↔ c ∈ t.
Proof.
  unfold includes. rewrite existsb_exists. split.
  - intros (d & Hin%list_elem_of_In & ->%N.eqb_eq). done.
  - intros Hin. exists c. split; [by apply list_elem_of_In|apply N.eqb_refl].
Qed.

Lemma digits_without (ds : jsstring) c :
  isDigit c = false → Forall (λ c, isDigit c = true) ds → c ∉ ds.
Proof.
  intros Hc Hds Hin. rewrite Forall_forall in Hds.
  specialize (Hds c Hin). congruence.
Qed.

(** On a part without a dash [parseInt] gives [NaN], a natural number or
    [Infinity]. *)
Lemma parseInt_nonneg (t : jsstring) :
  dash ∉ t →
  parseInt t = notANumber
  ∨ (∃ z, parseInt t = integer z ∧ 0 ≤ z)
  ∨ parseInt t = infinite false.
Proof.
  intros Hdash. rewrite parseInt_dash_free by done. unfold numericPrefix.
  pose proof (takeWhile_Forall isDigit (unsigned t)) as Hds.
  destruct (takeWhile isDigit (unsigned t)) as [|d ds]; [by left|].
  right. by apply roundToDouble_nonneg, digitsValue_nonneg.
Qed.

Lemma expandPart_nonneg (part : jsstring) xs x :
  expandPart part = Returns xs →
  x ∈ xs →
  (∃ z, x = Int z ∧ 0 ≤ z) ∨ x = Infinity false.
Proof.
  unfold expandPart. destruct (includes dash (trim part)) eqn:Hdash.
  - pose proof (split_pieces dash (trim part)) as Hpieces.
    destruct (split dash (trim part)) as [|p1 [|p2 ps]]; simpl;
      try (by intros [= <-] ?%elem_of_nil).
    assert (dash ∉ trim p1) as Hp1
      by (intros Hin%trim_subseteq; by apply (Hpieces p1); [left|]).
    destruct (isNaN (parseInt (trim p1)) || isNaN (parseInt (trim p2))
              || gt (parseInt (trim p1)) (parseInt (trim p2))) eqn:Hguard;
      [by intros [= <-] ?%elem_of_nil|].
    apply orb_false_iff in Hguard as [[Hstart _]%orb_false_iff _].
    unfold Array_from. case_match; [done|]. intros [= <-].
    intros (i & -> & [Hi _]%elem_of_seqZ)%list_elem_of_fmap.
    destruct (parseInt_nonneg (trim p1) Hp1) as [Hnan|[(a & Ha & Hpos)|Hinf]].
    + by rewrite Hnan in Hstart.
    + rewrite Ha. simpl.
      destruct (roundToDouble_nonneg (a + i)) as [(m & -> & Hm)| ->]; [lia| |by right].
      left. by exists m.
    + rewrite Hinf. by right.
  - assert (dash ∉ trim part) as Hfree by (intros Hin%includes_spec; congruence).
    destruct (parseInt_nonneg (trim part) Hfree) as [Hnan|[(a & Ha & Hpos)|Hinf]].
    + rewrite Hnan. by intros [= <-] ?%elem_of_nil.
    + rewrite Ha. intros [= <-] ->%list_elem_of_singleton. left. by exists a.
    + rewrite Hinf. intros [= <-] ->%list_elem_of_singleton. by right.
Qed.

(** The one exception of the expander is the [RangeError] of a range that
    is too long. *)
Lemma expandPart_outcome (part : jsstring) :
  (∃ xs, expandPart part = Returns xs) ∨ expandPart part = Raises RangeError.
Proof.
  unfold expandPart, Array_from.
  repeat case_match; eauto.
Qed.

Lemma expandPacks_outcome (s : jsstring) :
  (∃ l, expandPacks s = Returns l) ∨ expandPacks s = Raises RangeError.
Proof.
  unfold expandPacks.
  assert ((∃ ys, flatMap expandPart (split comma s) = Returns ys)
          ∨ flatMap expandPart (split comma s) = Raises RangeError) as [[ys ->]| ->];
    [|simpl; eauto|by right].
  induction (split comma s) as [|part parts IH]; simpl; [by eauto|].
  destruct (expandPart_outcome part) as [[xs ->]| ->]; simpl; [|by right].
  destruct IH as [[ys ->]| ->]; simpl; eauto.
Qed.

Lemma expandPacks_Returns (s : jsstring) l :
  expandPacks s = Returns l →
  ∃ numbers, flatMap expandPart (split comma s) = Returns numbers ∧ l = Set_new numbers.
Proof.
  unfold expandPacks.
  destruct (flatMap expandPart (split comma s)) as [numbers| |]; simpl; [|done..].
  intros [= <-]. by exists numbers.
Qed.

Lemma expandPacks_NoDup (s : jsstring) l : expandPacks s = Returns l → NoDup l.
Proof.
  intros (numbers & _ & ->)%expandPacks_Returns.
  apply Set_addAll_NoDup, NoDup_nil_2.
Qed.

Lemma expandPacks_nonneg (s : jsstring) l x :
  expandPacks s = Returns l →
  x ∈ l →
  (∃ z, x = Int z ∧ 0 ≤ z) ∨ x = Infinity false.
Proof.
  intros (numbers & Hflat & ->)%expandPacks_Returns. rewrite Set_new_elem. intros Hx.
  destruct (flatMap_Returns _ _ _ Hflat) as [_ Helems].
  destruct (Helems x Hx) as (part & xs & _ & Hpart & Hin).
  by eapply expandPart_nonneg.
Qed.

(** X1: the expander returns a set or a range of it is too long, and then
    a [RangeError] propagates; it throws nothing else.  A set it returns
    has no element twice, and every element is an integer that is not
    negative or is [Infinity], which a numeral beyond the doubles is read
    as: never [NaN], never a fraction, never a negative number. *)
Theorem expandPacks_wellformed (s : jsstring) :
  ((∃ l, expandPacks s = Returns l) ∨ expandPacks s = Raises RangeError)
  ∧ ∀ l, expandPacks s = Returns l →
         NoDup l
         ∧ ∀ x, x ∈ l → (∃ z, x = Int z ∧ 0 ≤ z) ∨ x = Infinity false.
Proof.
  split; [apply expandPacks_outcome|].
  intros l Hl. split; [by eapply expandPacks_NoDup|].
  intros x. by eapply expandPacks_nonneg.
Qed.

Lemma expandPacks_wellformed_witness :
  NoDup [Int 3; Int 1; Int 2]
  ∧ ∀ x, x ∈ [Int 3; Int 1; Int 2] → (∃ z, x = Int z ∧ 0 ≤ z) ∨ x = Infinity false.
Proof.
  destruct (expandPacks_wellformed (lit "3,1-3,3")) as [_ Hwell].
  apply Hwell. vm_compute. reflexivity.
Defined.

Lemma expandPacks_trim (s : jsstring) : expandPacks (trim s) = expandPacks s.
Proof.
  destruct (trim_between s) as (k & w & Hs & Hk & Hw).
  rewrite Hs at 2. by rewrite expandPacks_pad_left, expandPacks_pad_right.
Qed.

(** A range between two safe integers: nothing when the first is the
    larger, a [RangeError] when it has more than [2 ^ 32 - 1] elements,
    and the integers from the first to the second otherwise. *)
Lemma expandPart_range (a b : Z) :
  0 ≤ a ≤ MAX_SAFE_INTEGER → 0 ≤ b ≤ MAX_SAFE_INTEGER →
  expandPart (showZ a ++ dash :: showZ b)
  = if decide (b < a) then Returns []
    else if decide (2 ^ 32 - 1 < b - a + 1) then Raises RangeError
    else Returns (Int <$> seqZ a (b - a + 1)).
Proof.
  intros Ha Hb. unfold MAX_SAFE_INTEGER in *.
  destruct (showZ_digits a ltac:(lia)) as (Hda & _ & _).
  destruct (showZ_digits b ltac:(lia)) as (Hdb & _ & _).
  unfold expandPart.
  assert (trim (showZ a ++ dash :: showZ b) = showZ a ++ dash :: showZ b) as ->.
  { apply trim_no_whiteSpace, Forall_app. split; [by apply digits_no_whiteSpace|].
    constructor; [done|by apply digits_no_whiteSpace]. }
  assert (includes dash (showZ a ++ dash :: showZ b) = true) as ->.
  { apply includes_spec, elem_of_app. right. left. }
  rewrite split_app_sep, !split_without by (by apply digits_without).
  simpl. rewrite !trim_no_whiteSpace by (by apply digits_no_whiteSpace).
  rewrite !parseInt_showZ, !roundToDouble_exact by lia. simpl.
  destruct (Z.ltb_spec b a) as [Hlt|Hle]; [by rewrite decide_True|].
  rewrite decide_False by lia.
  unfold sub, add, negate. rewrite (roundToDouble_exact (b + - a)) by lia.
  rewrite (roundToDouble_exact (b + - a + 1)) by lia.
  unfold Array_from, ToLength.
  destruct (decide (2 ^ 32 - 1 < b - a + 1)) as [Hlong|Hshort].
  { destruct (Z.ltb_spec (2 ^ 32 - 1) (Z.min (Z.max (b + - a + 1) 0) (2 ^ 53 - 1)));
      [done|lia]. }
  replace (Z.min (Z.max (b + - a + 1) 0) (2 ^ 53 - 1)) with (b - a + 1) by lia.
  destruct (Z.ltb_spec (2 ^ 32 - 1) (b - a + 1)) as [Hlong|_]; [lia|]. f_equal.
  rewrite <- (Z.add_0_r a) at 2. rewrite <- (fmap_add_seqZ a 0), <- list_fmap_compose.
  apply list_fmap_ext. intros k i [-> Hk]%lookup_seqZ. simpl.
  rewrite roundToDouble_exact; [done|]. lia.
Qed.

(** X2: a range written with the decimal numerals of two safe integers
    expands to nothing when the first is the larger, and to the integers
    from the first to the second, in ascending order, when it has at most
    [2 ^ 24] of them, which is what a [Set] of V8 holds; a range of more
    than [2 ^ 32 - 1] elements makes the expander throw a [RangeError].  A
    single numeral of a safe integer expands to the integer. *)
Theorem expandPacks_range (a b : Z) :
  0 ≤ a ≤ MAX_SAFE_INTEGER → 0 ≤ b ≤ MAX_SAFE_INTEGER →
  (b < a → expandPacks (showZ a ++ lit "-" ++ showZ b) = Returns [])
  ∧ (a ≤ b → b - a + 1 ≤ 2 ^ 24 →
     expandPacks (showZ a ++ lit "-" ++ showZ b) = Returns (Int <$> seqZ a (b - a + 1))
     ∧ length (seqZ a (b - a + 1)) = Z.to_nat (b - a + 1)
     ∧ ∀ x, Int x ∈ Int <$> seqZ a (b - a + 1) ↔ a ≤ x ≤ b)
  ∧ (2 ^ 32 - 1 < b - a + 1 →
     expandPacks (showZ a ++ lit "-" ++ showZ b) = Raises RangeError)
  ∧ expandPacks (showZ a) = Returns [Int a].
Proof.
  intros Ha Hb.
  destruct (showZ_digits a ltac:(lia)) as (Hda & Hna & Hva).
  destruct (showZ_digits b ltac:(lia)) as (Hdb & _ & _).
  assert (expandPacks (showZ a ++ lit "-" ++ showZ b)
          = if decide (b < a) then Returns []
            else if decide (2 ^ 32 - 1 < b - a + 1) then Raises RangeError
            else Returns (Int <$> seqZ a (b - a + 1))) as Hrange.
  { rewrite expandPacks_single.
    - change (lit "-" ++ showZ b) with (dash :: showZ b).
      rewrite expandPart_range by done.
      repeat case_decide; try done. simpl. f_equal. apply Set_new_NoDup_id.
      assert (Inj (=) (=) Int) by (by intros x y [= ->]).
      apply (NoDup_fmap_2 _), NoDup_seqZ.
    - intros [Hin|Hin]%elem_of_app.
      + by apply (digits_without (showZ a) comma).
      + apply elem_of_cons in Hin as [Hin|Hin]; [done|].
        by apply (digits_without (showZ b) comma). }
  split_and!.
  - intros Hlt. rewrite Hrange. by rewrite decide_True.
  - intros Hle Hshort. rewrite Hrange.
    rewrite decide_False by lia. rewrite decide_False by lia.
    split; [done|]. split; [apply length_seqZ|]. intros x.
    rewrite list_elem_of_fmap. split.
    + intros (y & [= ->] & Hy%elem_of_seqZ). lia.
    + intros Hx. exists x. split; [done|]. apply elem_of_seqZ. lia.
  - intros Hlong. rewrite Hrange.
    rewrite decide_False by lia. by rewrite decide_True.
  - rewrite expandPacks_single by (by apply (digits_without (showZ a) comma)).
    unfold expandPart.
    rewrite trim_no_whiteSpace by (by apply digits_no_whiteSpace).
    assert (includes dash (showZ a) = false) as ->.
    { apply includes_false. by apply digits_without. }
    rewrite parseInt_showZ, roundToDouble_safe by lia. done.
Qed.

Lemma expandPacks_range_witness :
  expandPacks (lit "8-11") = Returns [Int 8; Int 9; Int 10; Int 11]
  ∧ expandPacks (lit "11-8") = Returns []
  ∧ expandPacks (lit "0-4294967295") = Raises RangeError.
Proof.
  assert (0 ≤ 8 ≤ MAX_SAFE_INTEGER ∧ 0 ≤ 11 ≤ MAX_SAFE_INTEGER
          ∧ 0 ≤ 0 ≤ MAX_SAFE_INTEGER ∧ 0 ≤ 4294967295 ≤ MAX_SAFE_INTEGER)
    as (H8 & H11 & H0 & Hmax) by (unfold MAX_SAFE_INTEGER; lia).
  destruct (expandPacks_range 8 11 H8 H11) as (_ & Hup & _).
  destruct (expandPacks_range 11 8 H11 H8) as (Hdown & _).
  destruct (expandPacks_range 0 4294967295 H0 Hmax) as (_ & _ & Hlong & _).
  split; [|split].
  - apply Hup; lia.
  - apply Hdown. lia.
  - apply Hlong. lia.
Defined.


(** X4: white space before and after a pack string, or before and after
    one of its parts, does not change the expansion; so the expansion of
    the trimmed string is that of the string. *)
Theorem expandPacks_whiteSpace (k s w : jsstring) :
  Forall (λ c, isWhiteSpace c = true) k →
  Forall (λ c, isWhiteSpace c = true) w →
  expandPacks (k ++ s ++ w) = expandPacks s
  ∧ expandPart (k ++ s ++ w) = expandPart s
  ∧ expandPacks (trim s) = expandPacks s.
Proof.
  intros Hk Hw. split; [|split].
  - by rewrite expandPacks_pad_left, expandPacks_pad_right.
  - by apply expandPart_pad.
  - apply expandPacks_trim.
Qed.

Lemma expandPacks_whiteSpace_witness :
  expandPacks ([32; 9] ++ lit "1-3,5" ++ [10])%N = expandPacks (lit "1-3,5").
Proof.
  apply (expandPacks_whiteSpace [32; 9]%N (lit "1-3,5") [10]%N).
  - repeat constructor.
  - repeat constructor.
Defined.

(** * Parts with a numeric prefix *)

(** C10, as stated, fails: the integer that the leading digits of a token
    form is included as a double.  The digits of "9007199254740993abc" form
    the integer 9007199254740993, which is no double; the expander
    includes 9007199254740992 and not the integer. *)
Lemma numeric_prefix_rounded :
  let ds := lit "9007199254740993" in
  let t := ds ++ lit "abc" in
  (dash ∉ t) ∧ (comma ∉ t)
  ∧ ds ≠ [] ∧ Forall (λ c, isDigit c = true) ds
  ∧ startsWithDigit (lit "abc") = false
  ∧ digitsValue ds = 9007199254740993
  ∧ expandPart t = Returns [Int 9007199254740992]
  ∧ expandPacks t = Returns [Int 9007199254740992]
  ∧ ∀ l, expandPacks t = Returns l → Int (digitsValue ds) ∉ l.
Proof.
  split_and!; try (vm_compute; done).
  - apply (bool_decide_unpack _). vm_compute. reflexivity.
  - apply (bool_decide_unpack _). vm_compute. reflexivity.
  - apply (bool_decide_unpack _). vm_compute. reflexivity.
  - intros l. vm_compute. intros [= <-] [=]%list_elem_of_singleton.
Qed.

(** C10, amended: a dash-free part of the pack string is dropped exactly
    when it has no numeric prefix.  When it starts with decimal digits
    followed by something that is not a digit, the expander includes the
    double nearest to the integer the digits form; this is the integer
    itself when it is at most [MAX_SAFE_INTEGER], as in "4abc".  The part
    contributes in this way to the expansion of every pack string it is a
    part of. *)
Theorem expandPacks_numeric_prefix (t : jsstring) :
  dash ∉ t →
  (expandPart t = Returns [] ↔ numericPrefix t = [])
  ∧ (∀ ds rest,
       t = ds ++ rest →
       ds ≠ [] →
       Forall (λ c, isDigit c = true) ds →
       startsWithDigit rest = false →
       numericPrefix t = ds
       ∧ expandPart t = Returns [number_of (roundToDouble (digitsValue ds))]
       ∧ (comma ∉ t →
          expandPacks t = Returns [number_of (roundToDouble (digitsValue ds))])
       ∧ (digitsValue ds ≤ MAX_SAFE_INTEGER →
          expandPart t = Returns [Int (digitsValue ds)]
          ∧ (comma ∉ t → expandPacks t = Returns [Int (digitsValue ds)])))
  ∧ (∀ s l,
       t ∈ split comma s →
       expandPacks s = Returns l →
       numericPrefix t ≠ [] →
       number_of (roundToDouble (digitsValue (numericPrefix t))) ∈ l
       ∧ (digitsValue (numericPrefix t) ≤ MAX_SAFE_INTEGER →
          Int (digitsValue (numericPrefix t)) ∈ l)).
Proof.
  intros Hdash.
  assert (∀ ds, Forall (λ c, isDigit c = true) ds →
                digitsValue ds ≤ MAX_SAFE_INTEGER →
                roundToDouble (digitsValue ds) = integer (digitsValue ds)) as Hsafe.
  { intros ds Hds Hbound. apply roundToDouble_safe.
    pose proof (digitsValue_nonneg ds Hds). lia. }
  split; [|split].
  - rewrite expandPart_dash_free by done. by destruct (numericPrefix t).
  - intros ds rest -> Hne Hds Hrest.
    assert (numericPrefix (ds ++ rest) = ds) as Hprefix by (by apply numericPrefix_digits).
    assert (expandPart (ds ++ rest)
            = Returns [number_of (roundToDouble (digitsValue ds))]) as Hpart.
    { rewrite expandPart_dash_free, Hprefix by done. by destruct ds. }
    assert (comma ∉ ds ++ rest →
            expandPacks (ds ++ rest)
            = Returns [number_of (roundToDouble (digitsValue ds))]) as Hpacks.
    { intros Hcomma. by rewrite expandPacks_single, Hpart. }
    split; [done|]. split; [done|]. split; [done|].
    intros Hbound. rewrite Hpart. rewrite Hsafe by done.
    split; [done|]. intros Hcomma. by rewrite Hpacks, Hsafe.
  - intros s l Hin (numbers & Hflat & ->)%expandPacks_Returns Hne.
    destruct (flatMap_Returns _ _ _ Hflat) as [Hparts _].
    destruct (Hparts t Hin) as (xs & Hxs & Hsub).
    rewrite expandPart_dash_free in Hxs by done.
    pose proof (takeWhile_Forall isDigit (unsigned t)) as Hds.
    fold (numericPrefix t) in Hds.
    destruct (numericPrefix t) as [|d ds] eqn:Hprefix; [done|].
    injection Hxs as <-.
    assert (number_of (roundToDouble (digitsValue (d :: ds))) ∈ Set_new numbers) as Hmem.
    { apply Set_new_elem, Hsub. left. }
    split; [exact Hmem|]. intros Hbound. by rewrite Hsafe in Hmem.
Qed.

Lemma expandPacks_numeric_prefix_witness :
  expandPart (lit "4abc") = Returns [Int 4]
  ∧ expandPacks (lit "4abc") = Returns [Int 4]
  ∧ ∃ l, expandPacks (lit "1-3, 4abc ,x") = Returns l ∧ Int 4 ∈ l.
Proof.
  assert (dash ∉ lit "4abc") as Hdash
    by (apply (bool_decide_unpack _); vm_compute; reflexivity).
  assert (dash ∉ lit " 4abc ") as Hdash'
    by (apply (bool_decide_unpack _); vm_compute; reflexivity).
  destruct (expandPacks_numeric_prefix (lit "4abc") Hdash) as (_ & Hprefix & _).
  destruct (expandPacks_numeric_prefix (lit " 4abc ") Hdash') as (_ & _ & Hpart).
  destruct (Hprefix (lit "4") (lit "abc")) as (_ & _ & _ & Hsafe).
  - reflexivity.
  - discriminate.
  - repeat constructor.
  - reflexivity.
  - destruct Hsafe as [Hfour Hpacks]; [vm_compute; discriminate|].
    split; [exact Hfour|]. split.
    + apply Hpacks. apply (bool_decide_unpack _). vm_compute. reflexivity.
    + exists [Int 1; Int 2; Int 3; Int 4].
      destruct (Hpart (lit "1-3, 4abc ,x") [Int 1; Int 2; Int 3; Int 4]) as [_ Hin].
      * apply (bool_decide_unpack _). vm_compute. reflexivity.
      * vm_compute. reflexivity.
      * vm_compute. discriminate.
      * split; [vm_compute; reflexivity|]. apply Hin. vm_compute. discriminate.
Defined.

(** * Job ids and connection keys *)

Lemma hexDigit_inj m n : (m < 16)%N → (n < 16)%N → hexDigit m = hexDigit n → m = n.
Proof. unfold hexDigit. intros Hm Hn. repeat case_match; lia. Qed.

Lemma hexByte_inj a b : (a < 256)%N → (b < 256)%N → hexByte a = hexByte b → a = b.
Proof.
  intros Ha Hb [= Hhigh Hlow].
  apply hexDigit_inj in Hhigh; [|apply N.mod_lt; lia..].
  apply hexDigit_inj in Hlow; [|apply N.mod_lt; lia..].
  assert (a `div` 16 < 16)%N by (apply N.Div0.div_lt_upper_bound; lia).
  assert (b `div` 16 < 16)%N by (apply N.Div0.div_lt_upper_bound; lia).
  rewrite !N.mod_small in Hhigh by done.
  rewrite (N.div_mod a 16), (N.div_mod b 16) by done. congruence.
Qed.

(** X5: a job id is "job_" followed by two characters for each random
    byte, and different random bytes give different ids. *)
Theorem generateJobId_injective (bytes bytes' : list N) :
  Forall (λ b, b < 256)%N bytes →
  Forall (λ b, b < 256)%N bytes' →
  length (generateJobId bytes) = (4 + 2 * length bytes)%nat
  ∧ (generateJobId bytes = generateJobId bytes' → bytes = bytes').
Proof.
  intros Hbytes Hbytes'. split.
  - unfold generateJobId. rewrite length_app.
    assert (length (bytes ≫= hexByte) = (2 * length bytes)%nat) as ->; [|done].
    clear. induction bytes as [|b bytes IH]; [done|].
    rewrite bind_cons, length_app, IH. simpl. lia.
  - unfold generateJobId. intros Heq%app_inv_head.
    revert bytes' Hbytes' Heq.
    induction Hbytes as [|b bytes Hb _ IH]; intros bytes' Hbytes' Heq.
    + by destruct bytes'.
    + destruct Hbytes' as [|b' bytes' Hb' Hbytes']; [done|].
      injection Heq as Hhigh Hlow Hrest.
      f_equal; [|by apply IH].
      apply hexByte_inj; [done|done|]. unfold hexByte. congruence.
Qed.

Lemma generateJobId_injective_witness :
  length (generateJobId bytes1) = 20%nat
  ∧ (generateJobId bytes1 = generateJobId bytes2 → bytes1 = bytes2).
Proof.
  apply (generateJobId_injective bytes1 bytes2);
    repeat (constructor; [reflexivity|]); constructor.
Defined.

Lemma app_sep_inj {A} (c : A) (h1 h2 d1 d2 : list A) :
  c ∉ d1 → c ∉ d2 → h1 ++ c :: d1 = h2 ++ c :: d2 → h1 = h2 ∧ d1 = d2.
Proof.
  intros Hd1 Hd2. revert h2. induction h1 as [|x h1 IH]; intros [|y h2]; simpl.
  - by intros [= ->].
  - intros [= <- ->]. exfalso. apply Hd1, elem_of_app. right. left.
  - intros [= -> <-]. exfalso. apply Hd2, elem_of_app. right. left.
  - intros [= -> Heq]. destruct (IH _ Heq) as [-> ->]. done.
Qed.

Lemma showZ_without_colon z : (58 ∉ showZ z)%N.
Proof.
  destruct (decide (0 ≤ z)) as [Hz|Hz].
  - destruct (showZ_digits z Hz) as (Hds & _). by apply digits_without.
  - destruct z as [|p|p]; [lia|lia|].
    change (showZ (Z.neg p)) with (dash :: showZ (Z.pos p)).
    apply not_elem_of_cons. split; [done|].
    destruct (showZ_digits (Z.pos p) ltac:(lia)) as (Hds & _).
    by apply digits_without.
Qed.

Lemma showZ_inj z1 z2 : showZ z1 = showZ z2 → z1 = z2.
Proof. intros Heq%lit_inj. by apply (inj pretty). Qed.

Lemma connectionKey_inj h1 p1 h2 p2 :
  connectionKey h1 p1 = connectionKey h2 p2 → h1 = h2 ∧ p1 = p2.
Proof.
  unfold connectionKey. change (lit ":") with [58%N]. simpl.
  intros Heq. apply app_sep_inj in Heq as [-> Heq]; try apply showZ_without_colon.
  split; [done|]. by apply showZ_inj.
Qed.

(** X6: two endpoints have the same pool key only when they have the same
    host and the same port, also when a host holds a colon. *)
Theorem connectionKey_injective h1 p1 h2 p2 :
  connectionKey h1 p1 = connectionKey h2 p2 → h1 = h2 ∧ p1 = p2.
Proof. apply connectionKey_inj. Qed.

Lemma connectionKey_injective_witness :
  connectionKey (lit "a:1") 2 = lit "a:1:2" ∧ lit "a:1" = lit "a:1" ∧ 2 = 2.
Proof.
  split; [reflexivity|].
  apply (connectionKey_injective (lit "a:1") 2 (lit "a:1") 2). reflexivity.
Defined.

(** * The connection pool along the process *)

Lemma alter_lookup_insert (f : XDCC → XDCC) (key : jsstring) (xdcc : XDCC)
    (m : gmap jsstring XDCC) :
  m !! key = Some xdcc → alter f key m = <[key := f xdcc]> m.
Proof.
  intros Hkey. apply map_eq. intros k.
  destruct (decide (key = k)) as [->|Hne].
  - by rewrite lookup_alter_eq, lookup_insert_eq, Hkey.
  - by rewrite lookup_alter_ne, lookup_insert_ne.
Qed.

(** What a returning call of [initiateDownload] does to the pool and to
    the directories. *)
Lemma initiateDownload_pool params randomBytes now s response s' :
  initiateDownload params randomBytes now s = (Returns response, s') →
  let key := connectionKey (trim (in_host params)) (in_port params) in
  match ircConnections s !! key with
  | Some xdcc =>
      ircConnections s' = <[key := join (trim (in_channel params)) xdcc]> (ircConnections s)
      ∧ directories s' = directories s
  | None =>
      ircConnections s'
      = <[key := {| xdcc_host := trim (in_host params); xdcc_port := in_port params;
                    xdcc_nickname := trim (in_nickname params);
                    xdcc_path := trim (in_download_path params);
                    xdcc_joined := [trim (in_channel params)] |}]> (ircConnections s)
      ∧ directories s' = {[trim (in_download_path params)]} ∪ directories s
  end.
Proof.
  unfold initiateDownload.
  destruct (expandPacks (trim (in_packs params))) as [requested| |]; [|done..].
  case_decide as Hempty; [done|].
  match goal with
  | |- context [getXdccConnection ?h ?p ?n ?d ?s1] =>
      pose proof (getXdccConnection_cases h p n d s1) as Hcases;
      destruct (getXdccConnection h p n d s1) as [[xdcc0| |] s2]; [|done..]
  end.
  intros [= _ <-]. simpl in *.
  destruct (ircConnections s !! connectionKey (trim (in_host params)) (in_port params))
    as [xdcc|] eqn:Hpool.
  - injection Hcases as -> ->. simpl. split; [|done]. by apply alter_lookup_insert.
  - repeat case_decide; try done; injection Hcases as -> ->; simpl.
    + split; [|symmetry; apply subseteq_union_1_L, singleton_subseteq_l; tauto].
      rewrite (alter_lookup_insert _ _ _ _ (lookup_insert_eq _ _ _)).
      by rewrite insert_insert_eq.
    + split; [|done].
      rewrite (alter_lookup_insert _ _ _ _ (lookup_insert_eq _ _ _)).
      by rewrite insert_insert_eq.
Qed.

(** A call that does not return leaves the pool and the directories as
    they are. *)
Lemma initiateDownload_keeps_pool params randomBytes now s o s' :
  initiateDownload params randomBytes now s = (o, s') →
  (∀ response, o ≠ Returns response) →
  ircConnections s' = ircConnections s ∧ directories s' = directories s.
Proof.
  intros Hcall Hfails.
  apply initiateDownload_fails in Hcall
    as [[-> _]|(job & requested & _ & _ & _ & _ & _ & Hpool & Hdirs & _)]; done.
Qed.


Lemma step_pool a s s' key xdcc :
  step a s = Some s' →
  ircConnections s !! key = Some xdcc →
  directories s ⊆ directories s'
  ∧ ∃ xdcc',
      ircConnections s' !! key = Some xdcc'
      ∧ xdcc_host xdcc' = xdcc_host xdcc ∧ xdcc_port xdcc' = xdcc_port xdcc
      ∧ xdcc_nickname xdcc' = xdcc_nickname xdcc ∧ xdcc_path xdcc' = xdcc_path xdcc
      ∧ xdcc_joined xdcc `prefix_of` xdcc_joined xdcc'.
Proof.
  intros Hstep Hkey. destruct a as [params randomBytes now|r ev|paths]; simpl in Hstep.
  - injection Hstep as <-.
    destruct (initiateDownload params randomBytes now s) as [o s1] eqn:Hcall.
    destruct o as [response|e|x]; simpl.
    + apply initiateDownload_pool in Hcall. simpl in Hcall.
      destruct (decide (connectionKey (trim (in_host params)) (in_port params) = key))
        as [Heq|Hne].
      * rewrite Heq, Hkey in Hcall. destruct Hcall as [-> ->].
        split; [done|]. rewrite lookup_insert_eq. eexists. split; [done|].
        simpl. split_and!; try done. by apply prefix_app_r.
      * destruct (ircConnections s !! connectionKey (trim (in_host params)) (in_port params));
          destruct Hcall as [-> ->]; (split; [set_solver|]);
          rewrite lookup_insert_ne by done; by exists xdcc.
    + apply initiateDownload_keeps_pool in Hcall as [-> ->]; [|done].
      split; [done|]. by exists xdcc.
    + apply initiateDownload_keeps_pool in Hcall as [-> ->]; [|done].
      split; [done|]. by exists xdcc.
  - apply deliver_state in Hstep as (_ & _ & -> & -> & _). split; [done|]. by exists xdcc.
  - injection Hstep as <-. split; [done|]. by exists xdcc.
Qed.

Lemma pooled_step a s s' : pooled s → step a s = Some s' → pooled s'.
Proof.
  intros Hpooled Hstep. destruct a as [params randomBytes now|r ev|paths]; simpl in Hstep;
    [| |by injection Hstep as <-].
  - injection Hstep as <-.
    destruct (initiateDownload params randomBytes now s) as [o s1] eqn:Hcall.
    destruct o as [response|e|x]; simpl;
      [|apply initiateDownload_keeps_pool in Hcall as [Hpool Hdirs]; [|done];
        intros key xdcc; rewrite Hpool, Hdirs; apply Hpooled..].
    + apply initiateDownload_pool in Hcall. simpl in Hcall.
      intros key xdcc.
      destruct (ircConnections s !! connectionKey (trim (in_host params)) (in_port params))
        as [xdcc0|] eqn:Hpool; destruct Hcall as [-> ->];
        rewrite lookup_insert; case_decide as Hkey.
      * intros [= <-]. subst key. destruct (Hpooled _ _ Hpool). done.
      * apply Hpooled.
      * intros [= <-]. simpl. split; [done|set_solver].
      * intros Hin. destruct (Hpooled _ _ Hin). split; [done|set_solver].
  - apply deliver_state in Hstep as (_ & _ & Hpool & Hdirs & _).
    intros key xdcc. rewrite Hpool, Hdirs. apply Hpooled.
Qed.

Lemma pooled_run actions s s' : pooled s → run actions s = Some s' → pooled s'.
Proof.
  revert s. induction actions as [|a actions IH]; intros s Hpooled; simpl.
  - by intros [= <-].
  - destruct (step a s) as [s1|] eqn:Hstep; [|done]. simpl.
    apply IH. by eapply pooled_step.
Qed.

(** X7: in every state of the process, a pooled connection is stored under
    the key of its own host and port, so the connection found for an
    endpoint is a connection to that endpoint, and its download directory
    is among the directories. *)
Theorem pool_sound s key xdcc :
  reachable s →
  ircConnections s !! key = Some xdcc →
  key = connectionKey (xdcc_host xdcc) (xdcc_port xdcc)
  ∧ xdcc_path xdcc ∈ directories s
  ∧ ∀ h p, key = connectionKey h p → xdcc_host xdcc = h ∧ xdcc_port xdcc = p.
Proof.
  intros (dirs & actions & Hrun) Hkey.
  assert (pooled s) as Hpooled.
  { eapply pooled_run; [|done]. intros k x. simpl. by rewrite lookup_empty. }
  destruct (Hpooled _ _ Hkey) as [Hown Hdir].
  split; [done|]. split; [done|].
  intros h p ->. by apply connectionKey_inj in Hown as [-> ->].
Qed.

Lemma pool_sound_witness :
  ∃ xdcc,
    ircConnections (after scenario_wired) !! lit "irc.example.com:6667" = Some xdcc
    ∧ xdcc_host xdcc = lit "irc.example.com" ∧ xdcc_port xdcc = 6667
    ∧ xdcc_path xdcc ∈ directories (after scenario_wired).
Proof.
  pose (xdcc := {| xdcc_host := lit "irc.example.com"; xdcc_port := 6667;
                   xdcc_nickname := lit "MCPUser"; xdcc_path := lit "./downloads/";
                   xdcc_joined := [lit "#test"] |}).
  assert (reachable (after scenario_wired)) as Hreach
    by (exists ∅, scenario_wired; vm_compute; reflexivity).
  assert (ircConnections (after scenario_wired) !! lit "irc.example.com:6667"
          = Some xdcc) as Hkey by (vm_compute; reflexivity).
  destruct (pool_sound _ _ _ Hreach Hkey) as (_ & Hdir & Hown).
  destruct (Hown (lit "irc.example.com") 6667 eq_refl) as [Hhost Hport].
  exists xdcc. split_and!; assumption.
Defined.

(** X8: a pooled connection is never evicted and never reconfigured: along
    every run it stays under its key with its host, port, nickname and
    path, its list of joined channels only extended; and no directory
    disappears. *)
Theorem pool_stable actions s s' key xdcc :
  run actions s = Some s' →
  ircConnections s !! key = Some xdcc →
  directories s ⊆ directories s'
  ∧ ∃ xdcc',
      ircConnections s' !! key = Some xdcc'
      ∧ xdcc_host xdcc' = xdcc_host xdcc ∧ xdcc_port xdcc' = xdcc_port xdcc
      ∧ xdcc_nickname xdcc' = xdcc_nickname xdcc ∧ xdcc_path xdcc' = xdcc_path xdcc
      ∧ xdcc_joined xdcc `prefix_of` xdcc_joined xdcc'.
Proof.
  revert s xdcc. induction actions as [|a actions IH]; intros s xdcc; simpl.
  - intros [= <-] Hkey. split; [done|]. by exists xdcc.
  - destruct (step a s) as [s1|] eqn:Hstep; [|done]. simpl. intros Hrun Hkey.
    destruct (step_pool _ _ _ _ _ Hstep Hkey)
      as (Hdirs1 & xdcc1 & Hkey1 & Hh1 & Hp1 & Hn1 & Hd1 & Hj1).
    destruct (IH _ _ Hrun Hkey1) as (Hdirs & xdcc' & Hkey' & Hh & Hp & Hn & Hd & Hj).
    split; [by etrans|]. exists xdcc'.
    split_and!; try congruence. by etrans.
Qed.

Lemma pool_stable_witness :
  ∃ xdcc xdcc',
    ircConnections (after scenario_wired) !! lit "irc.example.com:6667" = Some xdcc
    ∧ ircConnections (after scenario_completed) !! lit "irc.example.com:6667" = Some xdcc'
    ∧ xdcc_nickname xdcc' = xdcc_nickname xdcc
    ∧ xdcc_path xdcc' = xdcc_path xdcc.
Proof.
  pose (xdcc := {| xdcc_host := lit "irc.example.com"; xdcc_port := 6667;
                   xdcc_nickname := lit "MCPUser"; xdcc_path := lit "./downloads/";
                   xdcc_joined := [lit "#test"] |}).
  assert (run [Deliver 0 (Downloaded [Int 1])] (after scenario_wired)
          = Some (after scenario_completed)) as Hrun by (vm_compute; reflexivity).
  assert (ircConnections (after scenario_wired) !! lit "irc.example.com:6667"
          = Some xdcc) as Hkey by (vm_compute; reflexivity).
  destruct (pool_stable _ _ _ _ _ Hrun Hkey) as (_ & xdcc' & Hkey' & _ & _ & Hn & Hd & _).
  exists xdcc, xdcc'. split_and!; assumption.
Defined.

(** * Jobs along the process *)

Lemma handle_identity ev job :
  host (handle ev job) = host job ∧ port (handle ev job) = port job
  ∧ channel (handle ev job) = channel job ∧ bot (handle ev job) = bot job.
Proof.
  destruct ev; simpl; try done.
  unfold onDownloaded. case_decide; done.
Qed.

Lemma handle_errors r ev job :
  errors (handle ev job) = errors job ++ reported r (Deliver r ev).
Proof.
  destruct ev; simpl; rewrite ?decide_True, ?app_nil_r by done; try done.
  unfold onDownloaded. case_decide; done.
Qed.

Lemma evolve_errors r a job :
  errors (evolve r a job) = errors job ++ reported r a.
Proof.
  destruct a as [|r' ev|]; [simpl; by rewrite app_nil_r| |simpl; by rewrite app_nil_r].
  unfold evolve. destruct (decide (r' = r)) as [->|Hne]; [apply handle_errors|].
  unfold reported. destruct ev; rewrite ?decide_False by done; by rewrite app_nil_r.
Qed.

Lemma evolve_identity r a job :
  id (evolve r a job) = id job ∧ host (evolve r a job) = host job
  ∧ port (evolve r a job) = port job ∧ channel (evolve r a job) = channel job
  ∧ bot (evolve r a job) = bot job
  ∧ requestedPacks (evolve r a job) = requestedPacks job
  ∧ startTime (evolve r a job) = startTime job.
Proof.
  destruct a as [|r' ev|]; simpl; [done| |done]. case_decide; [|done].
  destruct (handle_frame ev job) as (_ & _ & ? & ? & ?).
  destruct (handle_identity ev job) as (? & ? & ? & ?). done.
Qed.

Lemma step_registry a s s' job_id :
  step a s = Some s' →
  (length (objects s) ≤ length (objects s'))%nat
  ∧ (is_Some (downloadJobs s !! job_id) → is_Some (downloadJobs s' !! job_id)).
Proof.
  intros Hstep. destruct a as [params randomBytes now|r ev|paths]; simpl in Hstep.
  - injection Hstep as <-.
    destruct (initiateDownload_state params randomBytes now s)
      as [->|(job & requested & -> & -> & _)]; [done|].
    rewrite length_app. split; [lia|].
    rewrite lookup_insert. case_decide; [by eauto|done].
  - apply deliver_state in Hstep as (-> & -> & _). by rewrite length_alter.
  - by injection Hstep as <-.
Qed.

Lemma run_job actions s s' r job :
  run actions s = Some s' →
  objects s !! r = Some job →
  ∃ job',
    objects s' !! r = Some job'
    ∧ (id job' = id job ∧ host job' = host job ∧ port job' = port job
       ∧ channel job' = channel job ∧ bot job' = bot job
       ∧ requestedPacks job' = requestedPacks job
       ∧ startTime job' = startTime job)
    ∧ errors job' = errors job ++ deliveredErrors r actions.
Proof.
  revert s job. induction actions as [|a actions IH]; intros s job; simpl.
  - intros [= <-] Hjob. exists job. unfold deliveredErrors. simpl.
    by rewrite app_nil_r.
  - destruct (step a s) as [s1|] eqn:Hstep; [|done]. simpl. intros Hrun Hjob.
    destruct (IH _ _ Hrun (step_objects _ _ _ _ _ Hstep Hjob))
      as (job' & Hjob' & Hid & Herrors).
    exists job'. split; [done|].
    destruct (evolve_identity r a job) as (? & ? & ? & ? & ? & ? & ?).
    split; [intuition congruence|].
    rewrite Herrors, evolve_errors. unfold deliveredErrors. simpl.
    by rewrite <- app_assoc.
Qed.

(** X12: jobs are never removed or relabelled.  Along every run the job
    objects only become more, an id that is registered stays registered,
    and a job keeps its id, host, port, channel, bot, requested packs and
    start time. *)
Theorem jobs_persist actions s s' :
  run actions s = Some s' →
  (length (objects s) ≤ length (objects s'))%nat
  ∧ (∀ job_id, is_Some (downloadJobs s !! job_id) → is_Some (downloadJobs s' !! job_id))
  ∧ (∀ r job,
       objects s !! r = Some job →
       ∃ job',
         objects s' !! r = Some job'
         ∧ id job' = id job ∧ host job' = host job ∧ port job' = port job
         ∧ channel job' = channel job ∧ bot job' = bot job
         ∧ requestedPacks job' = requestedPacks job
         ∧ startTime job' = startTime job).
Proof.
  intros Hrun. split; [|split].
  - revert s Hrun. induction actions as [|a actions IH]; intros s; simpl.
    + by intros [= <-].
    + destruct (step a s) as [s1|] eqn:Hstep; [|done]. simpl. intros Hrun.
      destruct (step_registry _ _ _ [] Hstep) as [Hlen _].
      specialize (IH _ Hrun). lia.
  - intros job_id. revert s Hrun.
    induction actions as [|a actions IH]; intros s; simpl.
    + by intros [= <-].
    + destruct (step a s) as [s1|] eqn:Hstep; [|done]. simpl. intros Hrun Hsome.
      apply (IH _ Hrun). by apply (step_registry _ _ _ job_id Hstep).
  - intros r job Hjob.
    destruct (run_job _ _ _ _ _ Hrun Hjob) as (job' & Hjob' & Hid & _).
    exists job'. split; [done|]. exact Hid.
Qed.

Lemma jobs_persist_witness :
  ∃ job',
    objects (after scenario_completed) !! 0%nat = Some job'
    ∧ id job' = id job_1_in_progress
    ∧ requestedPacks job' = requestedPacks job_1_in_progress
    ∧ is_Some (downloadJobs (after scenario_completed) !! lit "job_00010203040506ff").
Proof.
  assert (run [Deliver 0 (Downloaded [Int 1])] (after scenario_wired)
          = Some (after scenario_completed)) as Hrun by (vm_compute; reflexivity).
  destruct (jobs_persist _ _ _ Hrun) as (_ & Hregistry & Hjobs).
  destruct (Hjobs 0%nat job_1_in_progress) as (job' & Hjob' & Hid & _ & _ & _ & _ & Hreq & _).
  { vm_compute. reflexivity. }
  exists job'. split_and!; try assumption.
  apply Hregistry. exists 0%nat. vm_compute. reflexivity.
Defined.

(** X14: the error log of a job is append-only and complete: after a run
    it is the earlier log followed by the errors delivered to the job in
    between, pack errors and a rejected start alike, in the order of
    delivery. *)
Theorem errors_log actions s s' r job :
  run actions s = Some s' →
  objects s !! r = Some job →
  ∃ job',
    objects s' !! r = Some job'
    ∧ errors job' = errors job ++ deliveredErrors r actions
    ∧ errors job `prefix_of` errors job'.
Proof.
  intros Hrun Hjob.
  destruct (run_job _ _ _ _ _ Hrun Hjob) as (job' & Hjob' & _ & Herrors).
  exists job'. split; [done|]. split; [done|].
  rewrite Herrors. by apply prefix_app_r.
Qed.

Lemma errors_log_witness :
  ∃ s' job',
    run [Deliver 0 (PackError (lit "timeout") None);
         Deliver 0 (Downloaded [Int 1]);
         Deliver 0 (PackError (lit "closed") None)] (after scenario_wired) = Some s'
    ∧ objects s' !! 0%nat = Some job'
    ∧ errors job' = [{| message := lit "timeout"; stack := None |};
                     {| message := lit "closed"; stack := None |}].
Proof.
  pose (later := [Deliver 0 (PackError (lit "timeout") None);
                  Deliver 0 (Downloaded [Int 1]);
                  Deliver 0 (PackError (lit "closed") None)]).
  assert (run later (after scenario_wired) = Some (after (scenario_wired ++ later)))
    as Hrun by (vm_compute; reflexivity).
  assert (objects (after scenario_wired) !! 0%nat = Some job_1_in_progress) as Hjob
    by (vm_compute; reflexivity).
  destruct (errors_log _ _ _ _ _ Hrun Hjob) as (job' & Hjob' & Herrors & _).
  exists (after (scenario_wired ++ later)), job'. split_and!; assumption.
Defined.

(** * What the fields of a job tell *)

Lemma Set_add_length (x : number) (s : JSSet) :
  (length s ≤ length (Set_add x s))%nat.
Proof. unfold Set_add. case_decide; [done|]. rewrite length_app. lia. Qed.

Lemma Set_addAll_length (xs : list number) (s : JSSet) :
  (length s ≤ length (Set_addAll xs s))%nat.
Proof.
  unfold Set_addAll. revert s. induction xs as [|x xs IH]; intros s; simpl; [done|].
  etrans; [apply (Set_add_length x)|apply IH].
Qed.

Lemma Set_addAll_present (xs : list number) (s : JSSet) :
  (∀ x, x ∈ xs → x ∈ s) → Set_addAll xs s = s.
Proof.
  unfold Set_addAll. induction xs as [|x xs IH]; intros Hxs; simpl; [done|].
  unfold Set_add at 2. rewrite decide_True by (apply Hxs; left).
  apply IH. intros y Hy. apply Hxs. by right.
Qed.

Lemma evident_handle ev job : evident job → evident (handle ev job).
Proof.
  intros [Hreq Hnd Hpacks Hcnd Hst Hin Hfail Hcomp].
  destruct ev; simpl; try (by split).
  - split; simpl; try done. intros _. by destruct (errors job).
  - unfold onDownloaded. simpl. case_decide as Hsize; split; simpl; try done.
    + by apply Set_addAll_NoDup.
    + intros _. unfold Set_size in *. lia.
    + by apply Set_addAll_NoDup.
    + intros Hs. split; [by apply Hin|done].
    + intros Hs. specialize (Hcomp Hs). unfold Set_size in *.
      pose proof (Set_addAll_length success (completedPacks job)). lia.
  - split; simpl; try done. intros _. by destruct (errors job).
Qed.

Lemma evident_step a s s' :
  (∀ r job, objects s !! r = Some job → evident job) →
  step a s = Some s' →
  ∀ r job, objects s' !! r = Some job → evident job.
Proof.
  intros Hall Hstep r job' Hjob'.
  destruct a as [params randomBytes now|r0 ev|paths]; simpl in Hstep.
  - injection Hstep as <-.
    destruct (initiateDownload_state params randomBytes now s)
      as [Hsame|(job & requested & Hobjects & _ & _ & _ & _ & Hexp & Hne & Hjob)].
    { rewrite Hsame in Hjob'. by eapply Hall. }
    rewrite Hobjects in Hjob'.
    apply lookup_app_Some in Hjob' as [Hold|[_ Hnew]]; [by eapply Hall|].
    apply list_lookup_singleton_Some in Hnew as [_ <-]. rewrite Hjob.
    split; simpl; try done.
    + by eapply expandPacks_NoDup.
    + intros x. by eapply expandPacks_nonneg.
    + apply NoDup_nil_2.
    + intros _. split; [done|]. unfold Set_size. simpl. by destruct requested.
  - apply deliver_state in Hstep as (Hobjects & _).
    rewrite Hobjects in Hjob'.
    destruct (decide (r0 = r)) as [->|Hne].
    + rewrite list_lookup_alter_eq in Hjob'.
      destruct (objects s !! r) as [job|] eqn:Hjob; [|done].
      injection Hjob' as <-. apply evident_handle. by eapply Hall.
    + rewrite list_lookup_alter_ne in Hjob' by done. by eapply Hall.
  - injection Hstep as <-. by eapply Hall.
Qed.

Lemma evident_reachable s r job :
  reachable s → objects s !! r = Some job → evident job.
Proof.
  intros (dirs & actions & Hrun). revert r job.
  assert (∀ r job, objects (boot dirs) !! r = Some job → evident job) as Hboot
    by (intros r job; simpl; by rewrite lookup_nil).
  revert Hboot Hrun. generalize (boot dirs).
  induction actions as [|a actions IH]; intros s0 Hall; simpl.
  - by intros [= <-].
  - destruct (step a s0) as [s1|] eqn:Hstep; [|done]. simpl.
    apply IH. by eapply evident_step.
Qed.

(** X13: what the status of a job implies, in every state of the process.
    The status is never [partially_completed]; a job in progress has no
    error and not as many completed packs as requested packs; a failed job
    has at least one error; a completed job has at least one completed
    pack, and at least as many as were requested.  The requested packs are
    never empty and, like the completed packs, hold no element twice. *)
Theorem status_evidence s r job :
  reachable s →
  objects s !! r = Some job →
  status job ≠ partially_completed
  ∧ (status job = in_progress →
     errors job = [] ∧ Set_size (completedPacks job) ≠ Set_size (requestedPacks job))
  ∧ (status job = failed → errors job ≠ [])
  ∧ (status job = completed →
     completedPacks job ≠ []
     ∧ (Set_size (requestedPacks job) ≤ Set_size (completedPacks job))%nat)
  ∧ requestedPacks job ≠ []
  ∧ NoDup (requestedPacks job) ∧ NoDup (completedPacks job).
Proof.
  intros Hreach Hjob.
  destruct (evident_reachable _ _ _ Hreach Hjob)
    as [Hreq Hnd _ Hcnd Hst Hin Hfail Hcomp].
  split_and!; try done.
  intros Hs. specialize (Hcomp Hs). split; [|done].
  intros Hnil. rewrite Hnil in Hcomp. unfold Set_size in Hcomp. simpl in Hcomp.
  destruct (requestedPacks job); [done|simpl in Hcomp; lia].
Qed.

Lemma status_evidence_witness :
  status job_1_completed ≠ partially_completed
  ∧ completedPacks job_1_completed ≠ []
  ∧ requestedPacks job_1_completed ≠ [].
Proof.
  assert (reachable (after scenario_completed)) as Hreach
    by (exists ∅, scenario_completed; vm_compute; reflexivity).
  assert (objects (after scenario_completed) !! 0%nat = Some job_1_completed) as Hjob
    by (vm_compute; reflexivity).
  destruct (status_evidence _ _ _ Hreach Hjob) as (Hst & _ & _ & Hcomp & Hreq & _).
  destruct (Hcomp eq_refl) as [Hne _].
  split_and!; assumption.
Defined.

(** A snapshot never carries the status [partially_completed]. *)
Lemma snapshot_status s job_id :
  reachable s → res_status (getDownloadStatus job_id s) ≠ partially_completed.
Proof.
  intros Hreach. unfold getDownloadStatus, lookupJob.
  destruct (downloadJobs s !! job_id) as [r|]; simpl; [|done].
  destruct (objects s !! r) as [job|] eqn:Hjob; simpl; [|done].
  by apply (ev_status _ (evident_reachable _ _ _ Hreach Hjob)).
Qed.

(** * When completed means completed *)

Lemma run_completedPacks_fresh actions s0 s r job :
  invariant s0 →
  objects s0 !! r = None →
  run actions s0 = Some s →
  objects s !! r = Some job →
  ∀ x, x ∈ completedPacks job ↔ x ∈ deliveredSuccess r actions.
Proof.
  revert s0. induction actions as [|a actions IH]; intros s0 Hinv Hnone; simpl.
  - intros [= <-] Hjob. congruence.
  - destruct (step a s0) as [s1|] eqn:Hstep; [|done]. simpl. intros Hrun Hjob.
    pose proof (invariant_step _ _ _ Hinv Hstep) as Hinv1.
    unfold deliveredSuccess. simpl. intros x. rewrite elem_of_app.
    destruct (objects s1 !! r) as [job1|] eqn:Hjob1.
    + destruct (run_completedPacks _ _ _ _ _ Hrun Hjob1) as (job' & Hjob' & _ & Hiff).
      assert (job' = job) as -> by congruence.
      destruct a as [params randomBytes now|r0 ev|paths]; simpl in Hstep.
      * injection Hstep as <-.
        destruct (initiateDownload_state params randomBytes now s0)
          as [Hsame|(job0 & requested & Hobjects & _ & _ & _ & _ & _ & _ & Hjob0)].
        { rewrite Hsame in Hjob1. congruence. }
        rewrite Hobjects in Hjob1.
        apply lookup_app_Some in Hjob1 as [Hold|[_ Hnew]]; [congruence|].
        apply list_lookup_singleton_Some in Hnew as [_ <-].
        rewrite Hiff, Hjob0. simpl. rewrite !elem_of_nil. tauto.
      * apply deliver_state in Hstep as (Hobjects & _).
        rewrite Hobjects in Hjob1.
        apply lookup_lt_Some in Hjob1. rewrite length_alter in Hjob1.
        apply lookup_ge_None in Hnone. lia.
      * injection Hstep as <-. simpl in Hjob1. congruence.
    + rewrite (IH s1 Hinv1 Hjob1 Hrun Hjob x).
      assert (carried r a = []) as ->; [|rewrite elem_of_nil; tauto].
      destruct a as [|r0 ev|]; [done| |done]. destruct ev; try done. simpl.
      case_decide as Hr; [|done]. subst r0. simpl in Hstep.
      case_decide as Hwired; [|done].
      apply (inv_wired _ Hinv) in Hwired. apply lookup_ge_None in Hnone. lia.
Qed.

(** X19: the completed packs of a job are the numbers of the success lists
    delivered to it since the process started.  When these lists hold
    requested packs only, the completed packs lie within the requested
    packs, and a completed job has completed exactly the packs it
    requested. *)
Theorem completed_means_all dirs actions s r job :
  run actions (boot dirs) = Some s →
  objects s !! r = Some job →
  (∀ x, x ∈ completedPacks job ↔ x ∈ deliveredSuccess r actions)
  ∧ (deliveredSuccess r actions ⊆ requestedPacks job →
     completedPacks job ⊆ requestedPacks job
     ∧ (status job = completed →
        completedPacks job ≡ₚ requestedPacks job
        ∧ ∀ x, x ∈ requestedPacks job ↔ x ∈ completedPacks job)).
Proof.
  intros Hrun Hjob.
  assert (∀ x, x ∈ completedPacks job ↔ x ∈ deliveredSuccess r actions) as Hiff.
  { eapply run_completedPacks_fresh; [apply invariant_boot|..|done|done].
    simpl. apply lookup_nil. }
  split; [exact Hiff|]. intros Hgood.
  assert (completedPacks job ⊆ requestedPacks job) as Hsub.
  { intros x Hx. by apply Hgood, Hiff. }
  split; [exact Hsub|]. intros Hstatus.
  assert (reachable s) as Hreach by (by exists dirs, actions).
  destruct (evident_reachable _ _ _ Hreach Hjob) as [_ _ _ Hcnd _ _ _ Hcomp].
  assert (completedPacks job ≡ₚ requestedPacks job) as Hperm.
  { apply submseteq_length_Permutation; [by apply NoDup_submseteq|by apply Hcomp]. }
  split; [exact Hperm|]. intros x. by rewrite Hperm.
Qed.

Lemma completed_means_all_witness :
  ∃ s job,
    run scenario_completed (boot ∅) = Some s
    ∧ objects s !! 0%nat = Some job
    ∧ completedPacks job ≡ₚ requestedPacks job.
Proof.
  assert (run scenario_completed (boot ∅) = Some (after scenario_completed)) as Hrun
    by (vm_compute; reflexivity).
  assert (objects (after scenario_completed) !! 0%nat = Some job_1_completed) as Hjob
    by (vm_compute; reflexivity).
  destruct (completed_means_all _ _ _ _ _ Hrun Hjob) as [_ Hgood].
  destruct Hgood as [_ Hcompleted].
  { intros x Hx. vm_compute in Hx. exact Hx. }
  destruct (Hcompleted eq_refl) as [Hperm _].
  exists (after scenario_completed), job_1_completed. split_and!; assumption.
Defined.

(** * The phases of a job *)

Lemma settle_spec r x (l : list ref) : x ∈ settle r l ↔ x ∈ l ∧ x ≠ r.
Proof. unfold settle. rewrite list_elem_of_filter. tauto. Qed.

Lemma phased_step a s s' : invariant s → phased s → step a s = Some s' → phased s'.
Proof.
  intros Hinv Hph Hstep x. destruct (Hph x) as [Ht Hs].
  destruct a as [params randomBytes now|r ev|paths]; simpl in Hstep;
    [| |by injection Hstep as <-].
  - injection Hstep as <-.
    destruct (initiateDownload_state params randomBytes now s)
      as [->|(job & requested & _ & _ & Ht1 & Hs1 & Hw1 & _)]; [done|].
    rewrite Hs1, Hw1. destruct Ht1 as [-> | ->]; [done|].
    split; [|done]. intros [Hx| ->%list_elem_of_singleton]%elem_of_app; [by apply Ht|].
    split.
    + intros Hin%(inv_starting _ Hinv). lia.
    + intros Hin%(inv_wired _ Hinv). lia.
  - destruct (Hph r) as [Htr Hsr].
    destruct ev; simpl in Hstep; case_decide as Hin; try done;
      injection Hstep as <-; simpl; try done.
    + split.
      * intros [Hx Hne]%settle_spec. destruct (Ht Hx) as [Hns Hnw].
        split; [|done]. rewrite elem_of_app, list_elem_of_singleton. tauto.
      * intros [Hx| ->%list_elem_of_singleton]%elem_of_app; [by apply Hs|].
        by apply Htr.
    + split.
      * intros Hx. destruct (Ht Hx) as [Hns Hnw]. split.
        -- rewrite settle_spec. tauto.
        -- rewrite elem_of_app, list_elem_of_singleton.
           intros [Hw| ->]; [done|]. by apply Hns.
      * intros [Hx Hne]%settle_spec.
        rewrite elem_of_app, list_elem_of_singleton. intros [Hw|Heq]; [|done].
        by apply Hs.
    + split.
      * intros Hx. destruct (Ht Hx) as [Hns Hnw]. split; [|done].
        rewrite settle_spec. tauto.
      * intros [Hx Hne]%settle_spec. by apply Hs.
Qed.

Lemma phased_reachable s : reachable s → phased s.
Proof.
  intros (dirs & actions & Hrun).
  assert (phased (boot dirs)) as Hph
    by (intros r; split; simpl; by intros ?%elem_of_nil).
  pose proof (invariant_boot dirs) as Hinv.
  revert Hph Hinv Hrun. generalize (boot dirs).
  induction actions as [|a actions IH]; intros s0 Hph Hinv; simpl.
  - by intros [= <-].
  - destruct (step a s0) as [s1|] eqn:Hstep; [|done]. simpl.
    apply IH; [by eapply phased_step|by eapply invariant_step].
Qed.

(** A job without a callback is not touched again. *)
Lemma dormant_step a s s' r job :
  invariant s →
  objects s !! r = Some job →
  dormant r s →
  step a s = Some s' →
  objects s' !! r = Some job ∧ dormant r s'.
Proof.
  intros Hinv Hjob (Ht & Hs & Hw) Hstep.
  pose proof (step_objects _ _ _ _ _ Hstep Hjob) as Hjob'.
  apply lookup_lt_Some in Hjob as Hlt.
  destruct a as [params randomBytes now|r0 ev|paths]; simpl in Hstep;
    [| |injection Hstep as <-; by split].
  - split; [done|]. injection Hstep as <-.
    destruct (initiateDownload_state params randomBytes now s)
      as [->|(job0 & requested & _ & _ & Ht1 & Hs1 & Hw1 & _)]; [done|].
    unfold dormant. rewrite Hs1, Hw1.
    destruct Ht1 as [-> | ->]; split_and!; try done.
    rewrite elem_of_app, list_elem_of_singleton. intros [Hin| ->]; [done|lia].
  - destruct (decide (r0 = r)) as [->|Hne].
    + destruct ev; simpl in Hstep; case_decide; done.
    + simpl in Hjob'. rewrite decide_False in Hjob' by done. split; [done|].
      destruct ev; simpl in Hstep; case_decide; try done;
        injection Hstep as <-; unfold dormant; simpl;
        rewrite ?settle_spec, ?elem_of_app, ?list_elem_of_singleton;
        intuition congruence.
Qed.

Lemma dormant_run actions s s' r job :
  invariant s →
  objects s !! r = Some job →
  dormant r s →
  run actions s = Some s' →
  objects s' !! r = Some job ∧ dormant r s'.
Proof.
  revert s. induction actions as [|a actions IH]; intros s Hinv Hjob Hd; simpl.
  - by intros [= <-].
  - destruct (step a s) as [s1|] eqn:Hstep; [|done]. simpl.
    destruct (dormant_step _ _ _ _ _ Hinv Hjob Hd Hstep) as [Hjob1 Hd1].
    apply IH; [by eapply invariant_step|done|done].
Qed.

(** X15: a rejected start is final.  Once the [.catch] callback of a job
    has run, the job has no callback left, and whatever the process does
    afterwards the job stays as the callback left it: failed, with the
    error of the rejection as the last of its log. *)
Theorem rejected_start_final r error actions s s1 s2 :
  reachable s →
  step (Deliver r (StartRejected error)) s = Some s1 →
  run actions s1 = Some s2 →
  ∃ job,
    objects s1 !! r = Some job
    ∧ objects s2 !! r = Some job
    ∧ status job = failed
    ∧ last (errors job) = Some error
    ∧ dormant r s2
    ∧ ∀ ev, step (Deliver r ev) s2 = None.
Proof.
  intros Hreach Hstep Hrun.
  pose proof (reachable_invariant _ Hreach) as Hinv.
  pose proof (phased_reachable _ Hreach r) as [_ Hs].
  assert (r ∈ starting s) as Hin by (simpl in Hstep; by case_decide).
  destruct (lookup_lt_is_Some_2 (objects s) r (inv_starting _ Hinv _ Hin)) as [job Hjob].
  destruct (phased_reachable _ Hreach r) as [Ht _].
  assert (dormant r s1) as Hd1.
  { simpl in Hstep. rewrite decide_True in Hstep by done. injection Hstep as <-.
    unfold dormant. simpl. split_and!.
    - intros Hr. by destruct (Ht Hr).
    - intros [_ Hne]%settle_spec. done.
    - by apply Hs. }
  pose proof (step_objects _ _ _ _ _ Hstep Hjob) as Hjob1. simpl in Hjob1.
  rewrite decide_True in Hjob1 by done.
  destruct (dormant_run _ _ _ _ _ (invariant_step _ _ _ Hinv Hstep) Hjob1 Hd1 Hrun)
    as [Hjob2 Hd2].
  exists (onStartRejected error job). split_and!; try done.
  - simpl. rewrite last_snoc. by destruct error.
  - destruct Hd2 as (Ht2 & Hs2 & Hw2).
    intros ev. destruct ev; simpl; by rewrite decide_False.
Qed.

Lemma rejected_start_final_witness :
  ∃ s2 job,
    run [Initiate (request "1") bytes1 now1; Deliver 0 TimerFired;
         Deliver 0 (StartRejected {| message := lit "no such bot"; stack := None |});
         Initiate (request "2") bytes2 now1] initial = Some s2
    ∧ objects s2 !! 0%nat = Some job
    ∧ status job = failed
    ∧ step (Deliver 0 (Downloaded [Int 1])) s2 = None.
Proof.
  pose (rejection := {| message := lit "no such bot"; stack := None |}).
  pose (s := after [Initiate (request "1") bytes1 now1; Deliver 0 TimerFired]).
  pose (s1 := after [Initiate (request "1") bytes1 now1; Deliver 0 TimerFired;
                     Deliver 0 (StartRejected rejection)]).
  pose (s2 := after [Initiate (request "1") bytes1 now1; Deliver 0 TimerFired;
                     Deliver 0 (StartRejected rejection);
                     Initiate (request "2") bytes2 now1]).
  assert (reachable s) as Hreach.
  { exists ∅, [Initiate (request "1") bytes1 now1; Deliver 0 TimerFired].
    vm_compute. reflexivity. }
  assert (step (Deliver 0 (StartRejected rejection)) s = Some s1) as Hstep
    by (vm_compute; reflexivity).
  assert (run [Initiate (request "2") bytes2 now1] s1 = Some s2) as Hrun
    by (vm_compute; reflexivity).
  destruct (rejected_start_final _ _ _ _ _ _ Hreach Hstep Hrun)
    as (job & _ & Hjob2 & Hfailed & _ & _ & Hnone).
  exists s2, job. split_and!; [vm_compute; reflexivity|assumption..|apply Hnone].
Defined.

(** * Initiating and asking *)


(** A download path of white space only, for an endpoint that has no
    connection: the path is trimmed to the empty path, which cannot be
    made.  The job is registered and in progress, no timer is set, nothing
    is pooled, and the job stays as it is whatever is delivered later. *)
Example blank_path_example :
  let params :=
    {| in_host := lit "irc.example.com"; in_port := 6667; in_channel := lit "#test";
       in_bot := lit "bot1"; in_packs := lit "1";
       in_download_path := lit "   "; in_nickname := lit "MCPUser" |} in
  let call := initiateDownload params bytes1 now1 initial in
  call.1 = Raises (SystemError (lit ""))
  ∧ lookupJob call.2 (lit "job_00010203040506ff") = Some job_1_in_progress
  ∧ timers call.2 = [] ∧ ircConnections call.2 = ∅ ∧ directories call.2 = ∅
  ∧ ∀ ev, step (Deliver 0 ev) call.2 = None.
Proof.
  split_and!; try (vm_compute; reflexivity). intros ev. by destruct ev.
Qed.

(** A download directory that the file system refuses to make: the call
    throws and leaves its job registered; once the directory can be made, a
    second call for the endpoint makes it, pools the connection and
    returns. *)
Example refused_path_example :
  let refusal := Refuse {[ lit "./downloads/" ]} in
  let s1 := after [refusal; Initiate (request "1") bytes1 now1] in
  let s2 := after [refusal; Initiate (request "1") bytes1 now1;
                   Refuse ∅; Initiate (request "2") bytes2 now1] in
  (initiateDownload (request "1") bytes1 now1 (after [refusal])).1
  = Raises (SystemError (lit "./downloads/"))
  ∧ res_status (getDownloadStatus (lit "job_00010203040506ff") s1) = in_progress
  ∧ timers s1 = [] ∧ ircConnections s1 = ∅ ∧ directories s1 = ∅
  ∧ timers s2 = [1%nat]
  ∧ directories s2 = {[ lit "./downloads/" ]}
  ∧ is_Some (ircConnections s2 !! lit "irc.example.com:6667")
  ∧ res_status (getDownloadStatus (lit "job_00010203040506ff") s2) = in_progress.
Proof. split_and!; try (vm_compute; reflexivity). by eexists. Qed.

Lemma lookupJob_frame s s' job_id :
  downloadJobs s' !! job_id = downloadJobs s !! job_id →
  (∀ r0, downloadJobs s !! job_id = Some r0 → objects s' !! r0 = objects s !! r0) →
  getDownloadStatus job_id s' = getDownloadStatus job_id s.
Proof.
  intros Hreg Hobj. unfold getDownloadStatus, lookupJob. rewrite Hreg.
  destruct (downloadJobs s !! job_id) as [r0|] eqn:Hr0; simpl; [|done].
  by rewrite (Hobj r0).
Qed.

(** X10: a job that [initiateDownload] has just created is found under the
    id the call returned, also when the id was in use before: its snapshot
    is in progress, with no completed pack, no failed pack, no error, the
    start time of the call and no end time. *)
Theorem initiate_then_status params randomBytes now s response s' :
  initiateDownload params randomBytes now s = (Returns response, s') →
  let res := getDownloadStatus (out_job_id response) s' in
  res_job_id res = out_job_id response
  ∧ res_status res = in_progress
  ∧ res_completedPacks res = [] ∧ res_failedPacks res = [] ∧ res_errors res = []
  ∧ res_startTime res = Some now ∧ res_endTime res = None
  ∧ ∃ job, lookupJob s' (out_job_id response) = Some job
           ∧ expandPacks (in_packs params) = Returns (requestedPacks job)
           ∧ requestedPacks job ≠ [].
Proof.
  intros Hcall.
  apply initiateDownload_returns in Hcall
    as (job & requested & Hobjects & Hjobs & _ & _ & _ & -> & Hexp & Hne & Hjob).
  assert (lookupJob s' (generateJobId randomBytes) = Some job) as Hlookup.
  { unfold lookupJob. rewrite Hjobs, lookup_insert_eq. simpl.
    rewrite Hobjects. by apply list_lookup_middle. }
  simpl. unfold getDownloadStatus. rewrite Hlookup. simpl.
  rewrite Hjob. simpl. split_and!; try done.
  eexists. split; [done|]. simpl. rewrite expandPacks_trim in Hexp. done.
Qed.

Lemma initiate_then_status_witness :
  ∃ response s',
    initiateDownload (request "1-2") bytes1 now1 initial = (Returns response, s')
    ∧ res_status (getDownloadStatus (out_job_id response) s') = in_progress
    ∧ res_startTime (getDownloadStatus (out_job_id response) s') = Some now1.
Proof.
  pose (call := initiateDownload (request "1-2") bytes1 now1 initial).
  pose (response := {| out_job_id := lit "job_00010203040506ff";
                       out_message := lit "Download started for 2 file(s)";
                       out_status := in_progress |}).
  assert (initiateDownload (request "1-2") bytes1 now1 initial
          = (Returns response, call.2)) as Hcall by (vm_compute; reflexivity).
  destruct (initiate_then_status _ _ _ _ _ _ Hcall) as (_ & Hstatus & _ & _ & _ & Hstart & _).
  exists response, call.2. split_and!; assumption.
Defined.

(** X11: a step does not change the snapshot of a job it is not about.
    Neither the creation of a job with another id nor the delivery of an
    event to another job object changes what [getDownloadStatus] returns
    for an id, registered or not. *)
Theorem snapshot_isolation a s s' job_id :
  reachable s →
  step a s = Some s' →
  ¬ concerns a job_id s →
  getDownloadStatus job_id s' = getDownloadStatus job_id s.
Proof.
  intros Hreach Hstep Hother.
  pose proof (reachable_invariant _ Hreach) as Hinv.
  destruct a as [params randomBytes now|r ev|paths]; simpl in Hstep, Hother;
    [| |by injection Hstep as <-].
  - injection Hstep as <-.
    destruct (initiateDownload_state params randomBytes now s)
      as [->|(job & requested & Hobjects & Hjobs & _)]; [done|].
    apply lookupJob_frame; [|intros r0 Hr0].
    + rewrite Hjobs. by rewrite lookup_insert_ne.
    + rewrite Hobjects. apply lookup_app_l. by eapply inv_registry.
  - apply deliver_state in Hstep as (Hobjects & Hjobs & _).
    apply lookupJob_frame; [by rewrite Hjobs|intros r0 Hr0].
    rewrite Hobjects. apply list_lookup_alter_ne. congruence.
Qed.

Lemma snapshot_isolation_witness :
  ∃ s s',
    step (Deliver 1 (PackError (lit "timeout") None)) s = Some s'
    ∧ getDownloadStatus (lit "job_00010203040506ff") s'
      = getDownloadStatus (lit "job_00010203040506ff") s.
Proof.
  pose (s := after scenario_shared_bot).
  pose (s' := after (scenario_shared_bot ++ [Deliver 1 (PackError (lit "timeout") None)])).
  assert (reachable s) as Hreach
    by (exists ∅, scenario_shared_bot; vm_compute; reflexivity).
  assert (step (Deliver 1 (PackError (lit "timeout") None)) s = Some s') as Hstep
    by (vm_compute; reflexivity).
  exists s, s'. split; [exact Hstep|].
  apply (snapshot_isolation _ _ _ _ Hreach Hstep).
  unfold concerns. vm_compute. discriminate.
Defined.

(** X18: an item-completed event that is delivered twice counts once: the
    second delivery of a success list leaves the job as the first left it.
    A list that holds completed packs only adds nothing to them. *)
Theorem onDownloaded_idempotent success job :
  onDownloaded success (onDownloaded success job) = onDownloaded success job
  ∧ ((∀ x, x ∈ success → x ∈ completedPacks job) →
     completedPacks (onDownloaded success job) = completedPacks job).
Proof.
  assert (∀ job', (∀ x, x ∈ success → x ∈ completedPacks job') →
                   completedPacks (onDownloaded success job') = completedPacks job')
    as Hpresent.
  { intros job' Hall. unfold onDownloaded. simpl.
    rewrite Set_addAll_present by done. case_decide; done. }
  split; [|apply Hpresent].
  assert (∀ x, x ∈ success → x ∈ completedPacks (onDownloaded success job)) as Hall.
  { intros x Hx. unfold onDownloaded. simpl.
    case_decide; simpl; apply Set_addAll_elem; by right. }
  assert (∀ j, (∀ x, x ∈ success → x ∈ completedPacks j) →
               onDownloaded success j
               = if decide (Set_size (completedPacks j) = Set_size (requestedPacks j))
                 then set_status completed j else j) as Hfix.
  { intros j Hj. unfold onDownloaded. simpl. rewrite Set_addAll_present by done.
    destruct j; simpl. case_decide; done. }
  rewrite (Hfix _ Hall). unfold onDownloaded. simpl.
  destruct (decide (Set_size (Set_addAll success (completedPacks job))
                    = Set_size (requestedPacks job))) as [Hsize|Hsize]; simpl.
  - by rewrite decide_True.
  - by rewrite decide_False.
Qed.

(** * The percentage, the echo *)

(** X16: for up to 500 requested packs, of which no more are completed,
    the percentage lies between 0 and 100; it is 0 when no pack is
    completed and 100 when all are, and it is 100 already with one pack
    outstanding when more than 200 are requested. *)
Theorem progressPercent_bounds (c r : nat) :
  (c ≤ r)%nat → (0 < r ≤ 500)%nat →
  ∃ p, progressPercent c r = Some p
       ∧ 0 ≤ p ≤ 100
       ∧ (c = 0%nat → p = 0)
       ∧ (c = r → p = 100)
       ∧ ((200 < r)%nat → S c = r → p = 100).
Proof.
  intros Hc Hr. pose proof (agrees_in_range c r Hc Hr) as Hagree.
  unfold agrees in Hagree. rewrite <- progressPercent_percentZ in Hagree by lia.
  destruct (progressPercent c r) as [p|]; [|done].
  apply andb_true_iff in Hagree as [Hnear%Z.leb_le _].
  exists p. split; [done|]. split_and!; intros; nia.
Qed.

Lemma progressPercent_bounds_witness :
  ∃ p, progressPercent 299 300 = Some p ∧ 0 ≤ p ≤ 100 ∧ p = 100.
Proof.
  destruct (progressPercent_bounds 299 300) as (p & Hp & Hbounds & _ & _ & Hnear);
    [lia|lia|].
  exists p. split; [exact Hp|]. split; [exact Hbounds|].
  apply Hnear; [lia|reflexivity].
Defined.

(** X17: the message of the echo resource is never empty: it is the
    message of the query when that is a string of at least one character,
    and the greeting when the query has no message or an empty one; the
    request URI and the time are passed through. *)
Theorem processEchoResource_message href params now :
  echo_text (processEchoResource href params now) ≠ []
  ∧ (∀ m, echo_message params = Some m → m ≠ [] →
          echo_text (processEchoResource href params now) = m)
  ∧ (echo_message params = None ∨ echo_message params = Some [] →
     echo_text (processEchoResource href params now) = lit "Hello from echo resource!")
  ∧ echo_requestUri (processEchoResource href params now) = href
  ∧ echo_timestamp (processEchoResource href params now) = now.
Proof.
  unfold processEchoResource. destruct (echo_message params) as [[|c m]|]; simpl.
  - split_and!; try done. intros m [= <-]. done.
  - split_and!; try done; [by intros m' [= <-]|]. by intros [?|?].
  - split_and!; done.
Qed.

(** * The registry and the start of a transfer *)

Lemma registry_step a s s' :
  invariant s →
  (∀ job_id r, downloadJobs s !! job_id = Some r →
               ∃ job, objects s !! r = Some job ∧ id job = job_id) →
  step a s = Some s' →
  ∀ job_id r, downloadJobs s' !! job_id = Some r →
              ∃ job, objects s' !! r = Some job ∧ id job = job_id.
Proof.
  intros Hinv Hreg Hstep job_id r Hr.
  destruct a as [params randomBytes now|r0 ev|paths]; simpl in Hstep;
    [| |injection Hstep as <-; by apply Hreg].
  - injection Hstep as <-.
    destruct (initiateDownload_state params randomBytes now s)
      as [Hsame|(job & requested & Hobjects & Hjobs & _ & _ & _ & _ & _ & Hjob)].
    { rewrite Hsame in *. by apply Hreg. }
    rewrite Hjobs in Hr. rewrite Hobjects.
    apply lookup_insert_Some in Hr as [[<- <-]|[Hne Hr]].
    + exists job. split; [by apply list_lookup_middle|]. by rewrite Hjob.
    + destruct (Hreg _ _ Hr) as (job0 & Hjob0 & Hid).
      exists job0. split; [by apply lookup_app_l_Some|done].
  - apply deliver_state in Hstep as (Hobjects & Hjobs & _).
    rewrite Hjobs in Hr. destruct (Hreg _ _ Hr) as (job0 & Hjob0 & Hid).
    exists (evolve r (Deliver r0 ev) job0). split.
    + rewrite Hobjects. simpl. destruct (decide (r0 = r)) as [->|Hne].
      * by rewrite list_lookup_alter_eq, Hjob0.
      * by rewrite list_lookup_alter_ne.
    + by destruct (evolve_identity r (Deliver r0 ev) job0) as [-> _].
Qed.

Lemma registry_reachable s job_id r :
  reachable s →
  downloadJobs s !! job_id = Some r →
  ∃ job, objects s !! r = Some job ∧ id job = job_id.
Proof.
  intros (dirs & actions & Hrun). revert job_id r.
  assert (∀ job_id r, downloadJobs (boot dirs) !! job_id = Some r →
                      ∃ job, objects (boot dirs) !! r = Some job ∧ id job = job_id)
    as Hboot by (intros job_id r; simpl; by rewrite lookup_empty).
  pose proof (invariant_boot dirs) as Hinv.
  revert Hboot Hinv Hrun. generalize (boot dirs).
  induction actions as [|a actions IH]; intros s0 Hreg Hinv; simpl.
  - by intros [= <-].
  - destruct (step a s0) as [s1|] eqn:Hstep; [|done]. simpl.
    apply IH; [by eapply registry_step|by eapply invariant_step].
Qed.

(** X21: the registry is consistent.  In every state of the process an id
    that is registered leads to a job object whose own id it is, so a
    status query for it never takes the not-found branch; a snapshot
    carries a start time exactly when its id is registered. *)
Theorem registry_consistent s job_id :
  reachable s →
  (∀ r, downloadJobs s !! job_id = Some r →
        ∃ job, lookupJob s job_id = Some job
               ∧ objects s !! r = Some job
               ∧ id job = job_id
               ∧ res_status (getDownloadStatus job_id s) = status job
               ∧ res_errors (getDownloadStatus job_id s) = errors job
               ∧ res_completedPacks (getDownloadStatus job_id s) = completedPacks job)
  ∧ (is_Some (res_startTime (getDownloadStatus job_id s))
     ↔ is_Some (downloadJobs s !! job_id)).
Proof.
  intros Hreach. split.
  - intros r Hr. destruct (registry_reachable _ _ _ Hreach Hr) as (job & Hjob & Hid).
    assert (lookupJob s job_id = Some job) as Hlookup
      by (unfold lookupJob; by rewrite Hr).
    exists job. unfold getDownloadStatus. rewrite Hlookup. done.
  - unfold getDownloadStatus, lookupJob.
    destruct (downloadJobs s !! job_id) as [r|] eqn:Hr; simpl.
    + destruct (registry_reachable _ _ _ Hreach Hr) as (job & -> & _). simpl.
      split; eauto.
    + split; intros [? ?]; done.
Qed.

Lemma registry_consistent_witness :
  ∃ job,
    lookupJob (after scenario_completed) (lit "job_00010203040506ff") = Some job
    ∧ id job = lit "job_00010203040506ff"
    ∧ is_Some (res_startTime
                 (getDownloadStatus (lit "job_00010203040506ff") (after scenario_completed))).
Proof.
  assert (reachable (after scenario_completed)) as Hreach
    by (exists ∅, scenario_completed; vm_compute; reflexivity).
  destruct (registry_consistent _ (lit "job_00010203040506ff") Hreach) as [Hreg Hstart].
  destruct (Hreg 0%nat) as (job & Hlookup & _ & Hid & _); [vm_compute; reflexivity|].
  exists job. split_and!; try assumption.
  apply Hstart. exists 0%nat. vm_compute. reflexivity.
Defined.

Lemma fresh_step a s s' :
  invariant s → phased s →
  (∀ r job, r ∈ timers s ∨ r ∈ starting s → objects s !! r = Some job →
            status job = in_progress ∧ completedPacks job = [] ∧ errors job = []) →
  step a s = Some s' →
  ∀ r job, r ∈ timers s' ∨ r ∈ starting s' → objects s' !! r = Some job →
           status job = in_progress ∧ completedPacks job = [] ∧ errors job = [].
Proof.
  intros Hinv Hph Hfresh Hstep r job' Hin Hjob'.
  destruct a as [params randomBytes now|r0 ev|paths]; simpl in Hstep;
    [| |injection Hstep as <-; by apply (Hfresh r)].
  - injection Hstep as <-.
    destruct (initiateDownload_state params randomBytes now s)
      as [Hsame|(job & requested & Hobjects & _ & Ht1 & Hs1 & _ & _ & _ & Hjob)].
    { rewrite Hsame in *. by apply (Hfresh r). }
    rewrite Hs1 in Hin. rewrite Hobjects in Hjob'.
    apply lookup_app_Some in Hjob' as [Hold|[_ Hnew]].
    + apply (Hfresh r); [|done].
      destruct Ht1 as [Ht1|Ht1]; rewrite Ht1 in Hin; [done|].
      destruct Hin as [[Hin| ->%list_elem_of_singleton]%elem_of_app|Hin]; auto.
      apply lookup_lt_Some in Hold. lia.
    + apply list_lookup_singleton_Some in Hnew as [_ <-]. by rewrite Hjob.
  - destruct (Hph r) as [Htr Hsr]. destruct (Hph r0) as [Ht0 Hs0].
    destruct ev; simpl in Hstep; case_decide as Hen; try done;
      injection Hstep as <-; simpl in *.
    + apply (Hfresh r); [|done].
      destruct Hin as [[Hin _]%settle_spec|[Hin| ->%list_elem_of_singleton]%elem_of_app];
        auto.
    + apply (Hfresh r); [|done].
      destruct Hin as [Hin|[Hin _]%settle_spec]; auto.
    + assert (r ≠ r0) as Hne.
      { intros ->. destruct Hin as [Hin|[_ Hin]%settle_spec]; [|done].
        by destruct (Ht0 Hin). }
      rewrite list_lookup_alter_ne in Hjob' by done.
      apply (Hfresh r); [|done].
      destruct Hin as [Hin|[Hin _]%settle_spec]; auto.
    + assert (r ≠ r0) as Hne.
      { intros ->. destruct Hin as [Hin|Hin]; [by destruct (Ht0 Hin)|by apply Hs0]. }
      rewrite list_lookup_alter_ne in Hjob' by done. by apply (Hfresh r).
    + assert (r ≠ r0) as Hne.
      { intros ->. destruct Hin as [Hin|Hin]; [by destruct (Ht0 Hin)|by apply Hs0]. }
      rewrite list_lookup_alter_ne in Hjob' by done. by apply (Hfresh r).
    + assert (r ≠ r0) as Hne.
      { intros ->. destruct Hin as [Hin|Hin]; [by destruct (Ht0 Hin)|by apply Hs0]. }
      rewrite list_lookup_alter_ne in Hjob' by done. by apply (Hfresh r).
Qed.

(** A job whose timer or whose start is pending is as it was created. *)
Lemma fresh_reachable s r job :
  reachable s →
  r ∈ timers s ∨ r ∈ starting s →
  objects s !! r = Some job →
  status job = in_progress ∧ completedPacks job = [] ∧ errors job = [].
Proof.
  intros (dirs & actions & Hrun). revert r job.
  assert (∀ r job, r ∈ timers (boot dirs) ∨ r ∈ starting (boot dirs) →
                   objects (boot dirs) !! r = Some job →
                   status job = in_progress ∧ completedPacks job = []
                   ∧ errors job = []) as Hboot
    by (intros r job _; simpl; by rewrite lookup_nil).
  assert (phased (boot dirs)) as Hph
    by (intros r; split; simpl; by intros ?%elem_of_nil).
  pose proof (invariant_boot dirs) as Hinv.
  revert Hboot Hph Hinv Hrun. generalize (boot dirs).
  induction actions as [|a actions IH]; intros s0 Hfresh Hph Hinv; simpl.
  - by intros [= <-].
  - destruct (step a s0) as [s1|] eqn:Hstep; [|done]. simpl.
    apply IH; [by eapply fresh_step|by eapply phased_step|by eapply invariant_step].
Qed.

(** X20: until the start of its transfer has resolved, a job is as it was
    created.  In every state of the process a job whose timer or whose
    start is pending is in progress, with no completed pack and no error,
    and no pack event can be delivered to it. *)
Theorem untouched_before_start s r job :
  reachable s →
  r ∈ timers s ∨ r ∈ starting s →
  objects s !! r = Some job →
  status job = in_progress ∧ completedPacks job = [] ∧ errors job = []
  ∧ step (Deliver r Downloading) s = None
  ∧ (∀ success, step (Deliver r (Downloaded success)) s = None)
  ∧ (∀ errorMessage stack_, step (Deliver r (PackError errorMessage stack_)) s = None).
Proof.
  intros Hreach Hin Hjob.
  assert (r ∉ wired s) as Hw.
  { destruct (phased_reachable _ Hreach r) as [Ht Hs].
    destruct Hin as [Hin|Hin]; [by destruct (Ht Hin)|by apply Hs]. }
  destruct (fresh_reachable _ _ _ Hreach Hin Hjob) as (Hst & Hc & He).
  split_and!; try done; intros; simpl; by rewrite decide_False.
Qed.

Lemma untouched_before_start_witness :
  ∃ s job,
    reachable s
    ∧ objects s !! 0%nat = Some job
    ∧ status job = in_progress
    ∧ step (Deliver 0 (Downloaded [Int 1])) s = None.
Proof.
  pose (s := after [Initiate (request "1") bytes1 now1; Deliver 0 TimerFired]).
  assert (reachable s) as Hreach.
  { exists ∅, [Initiate (request "1") bytes1 now1; Deliver 0 TimerFired].
    vm_compute. reflexivity. }
  assert (objects s !! 0%nat = Some job_1_in_progress) as Hjob
    by (vm_compute; reflexivity).
  assert (0%nat ∈ timers s ∨ 0%nat ∈ starting s) as Hin.
  { right. apply (bool_decide_unpack _). vm_compute. reflexivity. }
  destruct (untouched_before_start _ _ _ Hreach Hin Hjob) as (Hst & _ & _ & _ & Hnone & _).
  exists s, job_1_in_progress. split_and!; try assumption. apply Hnone.
Defined.

(** X22: a returning call of [initiateDownload] asks the connection of its
    endpoint to join its channel, whether the connection is new or not.
    When the pool has a connection for the endpoint it is kept, with the
    nickname and the path it has, and no directory is made; otherwise the
    connection is made with the nickname and the path of the call, and the
    path is among the directories afterwards. *)
Theorem initiate_joins params randomBytes now s response s' :
  initiateDownload params randomBytes now s = (Returns response, s') →
  let key := connectionKey (trim (in_host params)) (in_port params) in
  ∃ xdcc',
    ircConnections s' !! key = Some xdcc'
    ∧ last (xdcc_joined xdcc') = Some (trim (in_channel params))
    ∧ (∀ xdcc, ircConnections s !! key = Some xdcc →
               xdcc_nickname xdcc' = xdcc_nickname xdcc
               ∧ xdcc_path xdcc' = xdcc_path xdcc
               ∧ xdcc_joined xdcc' = xdcc_joined xdcc ++ [trim (in_channel params)]
               ∧ directories s' = directories s
               ∧ size (ircConnections s') = size (ircConnections s))
    ∧ (ircConnections s !! key = None →
       xdcc_nickname xdcc' = trim (in_nickname params)
       ∧ xdcc_path xdcc' = trim (in_download_path params)
       ∧ xdcc_joined xdcc' = [trim (in_channel params)]
       ∧ trim (in_download_path params) ∈ directories s'
       ∧ size (ircConnections s') = S (size (ircConnections s))).
Proof.
  intros Hcall key. apply initiateDownload_pool in Hcall. fold key in Hcall.
  destruct (ircConnections s !! key) as [xdcc|] eqn:Hkey; destruct Hcall as [-> ->];
    rewrite lookup_insert_eq; eexists; (split; [done|]); simpl.
  - split; [by rewrite last_snoc|]. split; [|done].
    intros ? [= <-]. split_and!; try done.
    rewrite map_size_insert, Hkey. done.
  - split; [done|]. split; [done|]. intros _. split_and!; try done.
    + apply elem_of_union. left. by apply elem_of_singleton.
    + by rewrite map_size_insert, Hkey.
Qed.

Lemma initiate_joins_witness :
  ∃ xdcc',
    ircConnections (after [Initiate (request "1") bytes1 now1])
      !! lit "irc.example.com:6667" = Some xdcc'
    ∧ last (xdcc_joined xdcc') = Some (lit "#test").
Proof.
  pose (call := initiateDownload (request "1") bytes1 now1 initial).
  pose (response := {| out_job_id := lit "job_00010203040506ff";
                       out_message := lit "Download started for 1 file(s)";
                       out_status := in_progress |}).
  assert (initiateDownload (request "1") bytes1 now1 initial
          = (Returns response, call.2)) as Hcall by (vm_compute; reflexivity).
  destruct (initiate_joins _ _ _ _ _ _ Hcall) as (xdcc' & Hkey & Hlast & _).
  exists xdcc'. split; [|exact Hlast].
  change (after [Initiate (request "1") bytes1 now1]) with call.2.
  exact Hkey.
Defined.

(** * Completed and failed jobs *)

(** C1, amended: once a job of the process is completed or failed, every
    later step leaves it completed or failed and leaves its end time as it
    was.  Neither its timer nor its start is pending any more, so a
    rejected start is never delivered to it.  The status stays the same
    unless a pack error sets it to failed, or a pack completion that brings
    the completed packs to the size of the requested packs sets it to
    completed.  The event is not discarded: its callback runs on the job
    as on any other. *)
Theorem terminal_stays_terminal a s s' r job :
  reachable s →
  step a s = Some s' →
  objects s !! r = Some job →
  terminal (status job) →
  (r ∉ timers s) ∧ (r ∉ starting s)
  ∧ step (Deliver r TimerFired) s = None
  ∧ step (Deliver r StartResolved) s = None
  ∧ (∀ error, step (Deliver r (StartRejected error)) s = None)
  ∧ ∃ job',
      objects s' !! r = Some job'
      ∧ job' = evolve r a job
      ∧ terminal (status job')
      ∧ endTime job' = endTime job
      ∧ (status job' = status job
         ∨ (status job' = failed ∧ ∃ m st, a = Deliver r (PackError m st))
         ∨ (status job' = completed
            ∧ ∃ success, a = Deliver r (Downloaded success)
                ∧ Set_size (completedPacks job') = Set_size (requestedPacks job'))).
Proof.
  intros Hreach Hstep Hjob Hterm.
  assert ((r ∉ timers s) ∧ (r ∉ starting s)) as [Ht Hs].
  { split; intros Hin;
      [destruct (fresh_reachable s r job Hreach (or_introl Hin) Hjob) as [Hst _]
      |destruct (fresh_reachable s r job Hreach (or_intror Hin) Hjob) as [Hst _]];
      rewrite Hst in Hterm; by destruct Hterm. }
  assert (∀ error, step (Deliver r (StartRejected error)) s = None) as Hrejected
    by (intros error; simpl; by rewrite decide_False).
  split; [done|]. split; [done|].
  split; [simpl; by rewrite decide_False|].
  split; [simpl; by rewrite decide_False|].
  split; [done|].
  destruct (terminal_step _ _ _ _ _ Hstep Hjob Hterm)
    as (job' & Hjob' & Hevolve & Hterm' & Hend & Hstatus).
  exists job'. split_and!; try done.
  destruct Hstatus as [Hsame|[[Hfailed [Hpack|[error ->]]]|Hcompleted]].
  - by left.
  - right. by left.
  - by rewrite Hrejected in Hstep.
  - right. by right.
Qed.

Lemma terminal_stays_terminal_witness :
  ∃ s1 s2 job2,
    run scenario_completed initial = Some s1
    ∧ objects s1 !! 0%nat = Some job_1_completed
    ∧ step (Deliver 0 (PackError (lit "timeout") None)) s1 = Some s2
    ∧ objects s2 !! 0%nat = Some job2
    ∧ terminal (status job2)
    ∧ endTime job2 = endTime job_1_completed
    ∧ step (Deliver 0 (StartRejected {| message := lit "late"; stack := None |})) s1 = None.
Proof.
  pose (s1 := after scenario_completed).
  pose (s2 := after (scenario_completed
                       ++ [Deliver 0 (PackError (lit "timeout") None)])).
  assert (reachable s1) as Hreach
    by (exists ∅, scenario_completed; vm_compute; reflexivity).
  assert (run scenario_completed initial = Some s1) as Hrun
    by (vm_compute; reflexivity).
  assert (objects s1 !! 0%nat = Some job_1_completed) as Hjob
    by (vm_compute; reflexivity).
  assert (step (Deliver 0 (PackError (lit "timeout") None)) s1 = Some s2) as Hstep
    by (vm_compute; reflexivity).
  destruct (terminal_stays_terminal _ _ _ _ _ Hreach Hstep Hjob (or_introl eq_refl))
    as (_ & _ & _ & _ & Hrejected & job2 & Hjob2 & _ & Hterm & Hend & _).
  exists s1, s2, job2. split_and!; try assumption. apply Hrejected.
Defined.
